(** * Asset pipeline of the fantasy game: mesh assembly, vertex colours,
      skin binding and key-framed animation clips

    A shallow embedding of the algorithmic core of the Blender pipeline
    scripts ([rig_and_export.py], [generate_animations.py],
    [generate_rocks.py], [generate_trees.py], [generate_buildings.py]).

    Conventions.
    - Python floats and [mathutils] components are idealised as real
      numbers ([R]); [float('inf')] is a constructor of its own.
    - Authored key-frame values (degrees, offsets) are exact decimals and
      are kept as rationals ([Q]), so that clips can be evaluated.
    - A Python exception is the [None] of an [option] result.
    - Host-owned collections that the scripts index by position
      ([mesh.vertices], [color_layer.data]) are lists; name-indexed ones
      ([pose.bones], f-curve keys) are finite maps. *)

From Stdlib Require Import Reals Lra Lia ZArith QArith.
From stdpp Require Import base option gmap strings list fin_maps.

Open Scope R_scope.

(* ================================================================== *)
(** * mathutils                                                        *)
(* ================================================================== *)

Module Mathutils.

(** [mathutils.Vector] of size three. *)
Record Vector : Type := mkVector { x : R; y : R; z : R }.

Definition vadd (a b : Vector) : Vector :=
  mkVector (x a + x b) (y a + y b) (z a + z b).

Definition vsub (a b : Vector) : Vector :=
  mkVector (x a - x b) (y a - y b) (z a - z b).

(** [v * t] *)
Definition vscale (v : Vector) (t : R) : Vector :=
  mkVector (x v * t) (y v * t) (z v * t).

(** [a.dot(b)] *)
Definition dot (a b : Vector) : R := x a * x b + y a * y b + z a * z b.

(** [v.length_squared] and [v.length] *)
Definition length_squared (v : Vector) : R := dot v v.
Definition length (v : Vector) : R := sqrt (length_squared v).

(** A 4x4 [mathutils.Matrix], row by row. *)
Record Matrix : Type := mkMatrix {
  row0 : R * R * R * R;
  row1 : R * R * R * R;
  row2 : R * R * R * R;
  row3 : R * R * R * R
}.

Definition row_apply (r : R * R * R * R) (v : Vector) : R :=
  let '(a, b, c, d) := r in a * x v + b * y v + c * z v + d.

(** [m @ v] for a 4x4 matrix and a 3D vector: the vector is extended by a
    fourth component 1 and the first three rows give the result. *)
Definition matmul (m : Matrix) (v : Vector) : Vector :=
  mkVector (row_apply (row0 m) v) (row_apply (row1 m) v) (row_apply (row2 m) v).

Definition identity : Matrix :=
  mkMatrix (1, 0, 0, 0) (0, 1, 0, 0) (0, 0, 1, 0) (0, 0, 0, 1).

(** Comparisons of reals are decided by the trichotomy of [R]. *)
#[global] Instance Rlt_decision (a b : R) : Decision (a < b) := Rlt_dec a b.
#[global] Instance Rle_decision (a b : R) : Decision (a <= b) := Rle_dec a b.
#[global] Instance Rgt_decision (a b : R) : Decision (a > b) := Rgt_dec a b.
#[global] Instance Req_decision : EqDecision R := Req_dec_T.

End Mathutils.

Import Mathutils.

(* ================================================================== *)
(** * Python built-ins used by the scripts                             *)
(* ================================================================== *)

Module Python.

(** Two-argument [max(a, b)] and [min(a, b)]: the first argument is kept
    unless the second is strictly better. *)
Definition max (a b : R) : R := if decide (a < b) then b else a.
Definition min (a b : R) : R := if decide (b < a) then b else a.

(** [min(xs)] and [max(xs)] over a list: [ValueError] on the empty list,
    otherwise the first best element. *)
Definition min_list (xs : list R) : option R :=
  match xs with
  | [] => None
  | x0 :: rest => Some (foldl min x0 rest)
  end.

Definition max_list (xs : list R) : option R :=
  match xs with
  | [] => None
  | x0 :: rest => Some (foldl max x0 rest)
  end.

(** A float that may be [float('inf')]. *)
Inductive Float : Type :=
| Finite (r : R)
| inf.

(** [d < best] for a finite [d]. *)
Definition lt_float (d : R) (best : Float) : bool :=
  match best with
  | inf => true
  | Finite b => bool_decide (d < b)
  end.

(** Truth value of a [str] in a condition: only the empty string is
    false. *)
Definition truthy (s : string) : bool := negb (String.eqb s "").

(** [int(r)] of a float: the integer towards zero. *)
Definition int (r : R) : Z :=
  if decide (0 <= r) then Int_part r else (- Int_part (- r))%Z.

(** [xs[i]] on a list: a negative index counts from the end;
    [None] is [IndexError]. *)
Definition getitem {A : Type} (xs : list A) (i : Z) : option A :=
  if decide (0 <= i)%Z then xs !! Z.to_nat i
  else if decide (- Z.of_nat (List.length xs) <= i)%Z
       then xs !! Z.to_nat (Z.of_nat (List.length xs) + i)
       else None.

End Python.

Declare Scope vec_scope.
Delimit Scope vec_scope with vec.
Bind Scope vec_scope with Vector.
Infix "+" := vadd : vec_scope.
Infix "-" := vsub : vec_scope.
Infix "*" := vscale : vec_scope.
Infix "@" := matmul (at level 40, left associativity) : vec_scope.

(* ================================================================== *)
(** * The part of the host data model the skin binder reads and writes *)
(* ================================================================== *)

Module Bpy.

(** A rest-pose bone of [arm_obj.data.bones]. *)
Record Bone : Type := mkBone {
  name : string;
  head_local : Vector;
  tail_local : Vector
}.

(** The armature object: its world matrix and [data.bones] in
    enumeration order. *)
Record ArmatureObject : Type := mkArmatureObject {
  arm_matrix_world : Matrix;
  bones : list Bone
}.

(** A vertex group: its name and the weight of each member vertex
    (keyed by vertex index). *)
Record VertexGroup : Type := mkVertexGroup {
  vg_name : string;
  weights : gmap nat R
}.

(** The mesh object: world matrix, [data.vertices] (the element at
    position [i] is the vertex of index [i], holding [v.co]) and the
    ordered collection [vertex_groups]. *)
Record MeshObject : Type := mkMeshObject {
  matrix_world : Matrix;
  vertices : list Vector;
  vertex_groups : list VertexGroup
}.

(** [vertex_groups.clear()] *)
Definition vertex_groups_clear (groups : list VertexGroup) : list VertexGroup := [].

(** [vertex_groups.new(name=n)]: a new empty group at the end. Bone names
    of one armature are pairwise distinct, so no renaming takes place. *)
Definition vertex_groups_new (n : string) (groups : list VertexGroup)
  : list VertexGroup :=
  groups ++ [mkVertexGroup n ∅].

(** [vg.add([index], weight, 'REPLACE')] *)
Definition vg_add (index : nat) (weight : R) (vg : VertexGroup) : VertexGroup :=
  mkVertexGroup (vg_name vg) (<[index := weight]> (weights vg)).

(** [vg = vertex_groups[n]; vg.add([index], weight, 'REPLACE')]: the
    first group called [n] is updated in place; [KeyError] when there is
    none. *)
Fixpoint vertex_groups_add (n : string) (index : nat) (weight : R)
    (groups : list VertexGroup) : option (list VertexGroup) :=
  match groups with
  | [] => None
  | vg :: rest =>
      if decide (vg_name vg = n) then Some (vg_add index weight vg :: rest)
      else cons vg <$> vertex_groups_add n index weight rest
  end.

End Bpy.

(* ================================================================== *)
(** * rig_and_export.py                                                *)
(* ================================================================== *)

Module RigAndExport.
Import Bpy.

(** Squared-length threshold under which a bone counts as a point. *)
Definition epsilon : R := 1e-8.

(** [closest_point_on_segment(p, a, b)] *)
Definition closest_point_on_segment (p a b : Vector) : Vector :=
  let ab := (b - a)%vec in
  let length_sq := length_squared ab in
  if decide (length_sq < epsilon) then a
  else
    let t := Python.max 0 (Python.min 1 (dot (p - a)%vec ab / length_sq)) in
    (a + ab * t)%vec.

(** The list [bone_data] of [(bone_name, head, tail)] in world space,
    the 'Root' utility bone left out. *)
Definition bone_data (arm_obj : ArmatureObject) : list (string * Vector * Vector) :=
  flat_map (fun bone =>
    if bool_decide (name bone ∈ ["Root"%string]) then []
    else [(name bone,
           (arm_matrix_world arm_obj @ head_local bone)%vec,
           (arm_matrix_world arm_obj @ tail_local bone)%vec)])
    (bones arm_obj).

(** [dist] of one candidate, as the inner loop computes it. *)
Definition dist (co : Vector) (cand : string * Vector * Vector) : R :=
  let '(_, head, tail) := cand in
  let pt := closest_point_on_segment co head tail in
  length (co - pt)%vec.

(** One iteration of the inner loop over [bone_data]. *)
Definition nearest_step (co : Vector) (best : option string * Python.Float)
    (cand : string * Vector * Vector) : option string * Python.Float :=
  let '(best_bone, best_dist) := best in
  if Python.lt_float (dist co cand) best_dist
  then (Some (fst (fst cand)), Python.Finite (dist co cand))
  else (best_bone, best_dist).

(** The inner loop: [best_bone] and [best_dist] after all candidates. *)
Definition nearest_bone (co : Vector) (bd : list (string * Vector * Vector))
  : option string * Python.Float :=
  foldl (nearest_step co) (None, Python.inf) bd.

(** The loop over [mesh_obj.data.vertices], from vertex index [index]. *)
Fixpoint assign_loop (m : Matrix) (bd : list (string * Vector * Vector))
    (vs : list Vector) (index : nat) (groups : list VertexGroup)
  : option (list VertexGroup) :=
  match vs with
  | [] => Some groups
  | v_co :: rest =>
      let co := (m @ v_co)%vec in
      let best_bone := fst (nearest_bone co bd) in
      groups' ←
        match best_bone with
        | Some n =>
            if Python.truthy n then vertex_groups_add n index 1.0 groups
            else Some groups
        | None => Some groups
        end;
      assign_loop m bd rest (S index) groups'
  end.

(** [assign_weights_by_bones(mesh_obj, arm_obj)]; the final report only
    prints and is left out. *)
Definition assign_weights_by_bones (mesh_obj : MeshObject) (arm_obj : ArmatureObject)
  : option MeshObject :=
  let bd := bone_data arm_obj in
  let cleared := vertex_groups_clear (vertex_groups mesh_obj) in
  let created := foldl (fun groups cand => vertex_groups_new (fst (fst cand)) groups)
                       cleared bd in
  groups ← assign_loop (matrix_world mesh_obj) bd (vertices mesh_obj) 0 created;
  Some (mkMeshObject (matrix_world mesh_obj) (vertices mesh_obj) groups).

(** ** The skeleton *)

(** The bone definitions: name, head, tail and the name of the parent. *)
Definition BONES : list (string * Vector * Vector * option string) :=
  [("Root"%string, mkVector 0 0 0.00, mkVector 0 0 0.10, None);
   ("Hips"%string, mkVector 0 0 0.90, mkVector 0 0 0.95, Some "Root"%string);
   ("Spine"%string, mkVector 0 0 0.95, mkVector 0 0 1.10, Some "Hips"%string);
   ("Chest"%string, mkVector 0 0 1.10, mkVector 0 0 1.30, Some "Spine"%string);
   ("Neck"%string, mkVector 0 0 1.46, mkVector 0 0 1.52, Some "Chest"%string);
   ("Head"%string, mkVector 0 0 1.52, mkVector 0 0 1.75, Some "Neck"%string);
   ("Shoulder_L"%string, mkVector 0.15 0 1.42, mkVector 0.30 0 1.40, Some "Chest"%string);
   ("UpperArm_L"%string, mkVector 0.30 0 1.40, mkVector 0.56 0 1.38, Some "Shoulder_L"%string);
   ("LowerArm_L"%string, mkVector 0.56 0 1.38, mkVector 0.84 0 1.38, Some "UpperArm_L"%string);
   ("Hand_L"%string, mkVector 0.84 0 1.38, mkVector 0.98 0 1.38, Some "LowerArm_L"%string);
   ("Shoulder_R"%string, mkVector (-0.15) 0 1.42, mkVector (-0.30) 0 1.40, Some "Chest"%string);
   ("UpperArm_R"%string, mkVector (-0.30) 0 1.40, mkVector (-0.56) 0 1.38, Some "Shoulder_R"%string);
   ("LowerArm_R"%string, mkVector (-0.56) 0 1.38, mkVector (-0.84) 0 1.38, Some "UpperArm_R"%string);
   ("Hand_R"%string, mkVector (-0.84) 0 1.38, mkVector (-0.98) 0 1.38, Some "LowerArm_R"%string);
   ("UpperLeg_L"%string, mkVector 0.12 0 0.88, mkVector 0.12 0 0.50, Some "Hips"%string);
   ("LowerLeg_L"%string, mkVector 0.12 0 0.50, mkVector 0.12 0 0.08, Some "UpperLeg_L"%string);
   ("Foot_L"%string, mkVector 0.12 0 0.08, mkVector 0.12 0.15 0.02, Some "LowerLeg_L"%string);
   ("UpperLeg_R"%string, mkVector (-0.12) 0 0.88, mkVector (-0.12) 0 0.50, Some "Hips"%string);
   ("LowerLeg_R"%string, mkVector (-0.12) 0 0.50, mkVector (-0.12) 0 0.08, Some "UpperLeg_R"%string);
   ("Foot_R"%string, mkVector (-0.12) 0 0.08, mkVector (-0.12) 0.15 0.02, Some "LowerLeg_R"%string)].

(** An edit bone of [arm_data.edit_bones]; the parent is referred to by
    its position in that collection. *)
Record EditBone : Type := mkEditBone {
  eb_name : string;
  eb_head : Vector;
  eb_tail : Vector;
  use_connect : bool;
  parent : option nat
}.

(** One iteration of the loop over the bone definitions, on
    [arm_data.edit_bones] and [bone_map]. Setting [use_connect] on a bone
    with a parent makes the host move the head of the bone onto the
    tail of the parent. *)
Definition new_bone (state : list EditBone * gmap string nat)
    (definition : string * Vector * Vector * option string)
  : list EditBone * gmap string nat :=
  let '(edit_bones, bone_map) := state in
  let '(n, head, tail, parent_name) := definition in
  let bone := mkEditBone n head tail false None in
  let bone :=
    match parent_name with
    | Some parent_name =>
        if Python.truthy parent_name then
          match bone_map !! parent_name with
          | Some parent_id =>
              let bone := mkEditBone (eb_name bone) (eb_head bone) (eb_tail bone)
                                     (use_connect bone) (Some parent_id) in
              match edit_bones !! parent_id with
              | Some parent_bone =>
                  if decide (length (eb_head bone - eb_tail parent_bone)%vec < 0.01)
                  then mkEditBone (eb_name bone) (eb_tail parent_bone) (eb_tail bone)
                                  true (parent bone)
                  else bone
              | None => bone
              end
          | None => bone
          end
        else bone
    | None => bone
    end in
  (edit_bones ++ [bone], <[n := List.length edit_bones]> bone_map).

(** The loop of [create_armature] over a list of bone definitions. *)
Definition create_bones (definitions : list (string * Vector * Vector * option string))
  : list EditBone * gmap string nat :=
  foldl new_bone ([], ∅) definitions.

(** [create_armature()]: the edit bones of the new armature when edit
    mode is left. *)
Definition create_armature : list EditBone := fst (create_bones BONES).

End RigAndExport.

(* ================================================================== *)
(** * generate_animations.py                                           *)
(* ================================================================== *)

Module GenerateAnimations.
Import Bpy.

(** ** The skin binder, duplicated from rig_and_export.py *)

Definition epsilon : R := 1e-8.

Definition closest_point_on_segment (p a b : Vector) : Vector :=
  let ab := (b - a)%vec in
  let length_sq := length_squared ab in
  if decide (length_sq < epsilon) then a
  else
    let t := Python.max 0 (Python.min 1 (dot (p - a)%vec ab / length_sq)) in
    (a + ab * t)%vec.

Definition bone_data (arm_obj : ArmatureObject) : list (string * Vector * Vector) :=
  flat_map (fun bone =>
    if bool_decide (name bone = "Root"%string) then []
    else [(name bone,
           (arm_matrix_world arm_obj @ head_local bone)%vec,
           (arm_matrix_world arm_obj @ tail_local bone)%vec)])
    (bones arm_obj).

Definition dist (co : Vector) (cand : string * Vector * Vector) : R :=
  let '(_, head, tail) := cand in
  let pt := closest_point_on_segment co head tail in
  length (co - pt)%vec.

Definition nearest_step (co : Vector) (best : option string * Python.Float)
    (cand : string * Vector * Vector) : option string * Python.Float :=
  let '(best_bone, best_dist) := best in
  if Python.lt_float (dist co cand) best_dist
  then (Some (fst (fst cand)), Python.Finite (dist co cand))
  else (best_bone, best_dist).

Definition nearest_bone (co : Vector) (bd : list (string * Vector * Vector))
  : option string * Python.Float :=
  foldl (nearest_step co) (None, Python.inf) bd.

Fixpoint assign_loop (m : Matrix) (bd : list (string * Vector * Vector))
    (vs : list Vector) (index : nat) (groups : list VertexGroup)
  : option (list VertexGroup) :=
  match vs with
  | [] => Some groups
  | v_co :: rest =>
      let co := (m @ v_co)%vec in
      let best_bone := fst (nearest_bone co bd) in
      groups' ←
        match best_bone with
        | Some n =>
            if Python.truthy n then vertex_groups_add n index 1.0 groups
            else Some groups
        | None => Some groups
        end;
      assign_loop m bd rest (S index) groups'
  end.

Definition assign_weights_by_bones (mesh_obj : MeshObject) (arm_obj : ArmatureObject)
  : option MeshObject :=
  let bd := bone_data arm_obj in
  let cleared := vertex_groups_clear (vertex_groups mesh_obj) in
  let created := foldl (fun groups cand => vertex_groups_new (fst (fst cand)) groups)
                       cleared bd in
  groups ← assign_loop (matrix_world mesh_obj) bd (vertices mesh_obj) 0 created;
  Some (mkMeshObject (matrix_world mesh_obj) (vertices mesh_obj) groups).

(** ** Pose bones, actions and key frames *)

(** Three authored numbers: Euler angles in degrees (the unit the clips
    are written in; the host receives them rescaled to radians,
    componentwise) or a location offset. *)
Definition Triple : Type := (Q * Q * Q)%type.

Record PoseBone : Type := mkPoseBone {
  rotation_mode : string;
  rotation_euler : Triple;
  location : Triple
}.

(** An action: for each channel, the value keyed for a bone at a frame. *)
Record Action : Type := mkAction {
  action_name : string;
  rotation_keys : gmap (string * Z) Triple;
  location_keys : gmap (string * Z) Triple
}.

(** The armature object as the clip builders see it: [pose.bones] by
    name, the shared store of actions ([bpy.data.actions], an action is
    referred to by its position), [animation_data.action] and
    [animation_data.nla_tracks] (track name and the action of its
    strip). *)
Record Rig : Type := mkRig {
  pose_bones : gmap string PoseBone;
  actions : list Action;
  action : option nat;
  nla_tracks : list (string * nat)
}.

(** [bpy.data.actions.new(name=n)] followed by the assignment to
    [animation_data.action]; returns the new action. *)
Definition create_action (arm_obj : Rig) (n : string) : nat * Rig :=
  let id := List.length (actions arm_obj) in
  (id, mkRig (pose_bones arm_obj)
             (actions arm_obj ++ [mkAction n ∅ ∅])
             (Some id)
             (nla_tracks arm_obj)).

(** The action a key frame goes to: the current one, or a new one that
    the host creates when there is none. *)
Definition current_action (arm_obj : Rig) : nat * Rig :=
  match action arm_obj with
  | Some id => (id, arm_obj)
  | None => create_action arm_obj "Action"
  end.

(** [pose_bone.keyframe_insert(data_path="rotation_euler", frame=frame)]
    for the pose bone called [bone_name]: the bone's present value is
    keyed at [frame] in the current action. *)
Definition keyframe_insert_rotation (bone_name : string) (frame : Z) (arm_obj : Rig)
  : Rig :=
  match pose_bones arm_obj !! bone_name with
  | None => arm_obj
  | Some pb =>
      let '(id, arm_obj) := current_action arm_obj in
      mkRig (pose_bones arm_obj)
            (alter (fun act => mkAction (action_name act)
                      (<[(bone_name, frame) := rotation_euler pb]> (rotation_keys act))
                      (location_keys act)) id (actions arm_obj))
            (action arm_obj) (nla_tracks arm_obj)
  end.

(** [pose_bone.keyframe_insert(data_path="location", frame=frame)] *)
Definition keyframe_insert_location (bone_name : string) (frame : Z) (arm_obj : Rig)
  : Rig :=
  match pose_bones arm_obj !! bone_name with
  | None => arm_obj
  | Some pb =>
      let '(id, arm_obj) := current_action arm_obj in
      mkRig (pose_bones arm_obj)
            (alter (fun act => mkAction (action_name act)
                      (rotation_keys act)
                      (<[(bone_name, frame) := location pb]> (location_keys act)))
                   id (actions arm_obj))
            (action arm_obj) (nla_tracks arm_obj)
  end.

(** [set_bone_rotation(arm_obj, bone_name, rx_deg, ry_deg, rz_deg, frame)] *)
Definition set_bone_rotation (bone_name : string) (rx_deg ry_deg rz_deg : Q)
    (frame : Z) (arm_obj : Rig) : Rig :=
  match pose_bones arm_obj !! bone_name with
  | None => arm_obj
  | Some pose_bone =>
      let pose_bone := mkPoseBone "XYZ" (rx_deg, ry_deg, rz_deg) (location pose_bone) in
      keyframe_insert_rotation bone_name frame
        (mkRig (<[bone_name := pose_bone]> (pose_bones arm_obj))
               (actions arm_obj) (action arm_obj) (nla_tracks arm_obj))
  end.

(** [set_bone_location(arm_obj, bone_name, x, y, z, frame)] *)
Definition set_bone_location (bone_name : string) (lx ly lz : Q)
    (frame : Z) (arm_obj : Rig) : Rig :=
  match pose_bones arm_obj !! bone_name with
  | None => arm_obj
  | Some pose_bone =>
      let pose_bone := mkPoseBone (rotation_mode pose_bone)
                                  (rotation_euler pose_bone) (lx, ly, lz) in
      keyframe_insert_location bone_name frame
        (mkRig (<[bone_name := pose_bone]> (pose_bones arm_obj))
               (actions arm_obj) (action arm_obj) (nla_tracks arm_obj))
  end.

(** [push_to_nla(arm_obj, action, name)] *)
Definition push_to_nla (arm_obj : Rig) (act : nat) (n : string) : Rig :=
  mkRig (pose_bones arm_obj) (actions arm_obj) None
        (nla_tracks arm_obj ++ [(n, act)]).

(** [reset_pose(arm_obj)] *)
Definition reset_pose (arm_obj : Rig) : Rig :=
  mkRig ((fun pb => mkPoseBone "XYZ" (0, 0, 0)%Q (0, 0, 0)%Q) <$> pose_bones arm_obj)
        (actions arm_obj) (action arm_obj) (nla_tracks arm_obj).

(** A block of statements run in order, and a [for] loop over a list. *)
Definition block (stmts : list (Rig -> Rig)) (arm_obj : Rig) : Rig :=
  foldl (fun r stmt => stmt r) arm_obj stmts.

Definition for_each {A : Type} (xs : list A) (body : A -> Rig -> Rig)
    (arm_obj : Rig) : Rig :=
  foldl (fun r a => body a r) arm_obj xs.

(** [create_idle(arm_obj)] *)
Definition create_idle (arm_obj : Rig) : Rig :=
  let '(act, arm_obj) := create_action arm_obj "Idle" in
  let arm_obj := reset_pose arm_obj in
  let arm_obj := for_each [1; 60]%Z (fun frame => block [
    set_bone_rotation "Spine" 0 0 0 frame;
    set_bone_rotation "Chest" 0 0 0 frame;
    set_bone_rotation "Head" 0 0 0 frame;
    set_bone_rotation "UpperArm_L" 0 0 0 frame;
    set_bone_rotation "UpperArm_R" 0 0 0 frame ]) arm_obj in
  let arm_obj := block [
    set_bone_rotation "Spine" 2 0 0 30;
    set_bone_rotation "Chest" (-1.5) 0 0 30;
    set_bone_rotation "Head" (-1) 0 0 30;
    set_bone_rotation "UpperArm_L" 0 0 1 30;
    set_bone_rotation "UpperArm_R" 0 0 (-1) 30 ] arm_obj in
  push_to_nla arm_obj act "Idle".

(** [create_walk(arm_obj)] *)
Definition create_walk (arm_obj : Rig) : Rig :=
  let '(act, arm_obj) := create_action arm_obj "Walk" in
  let arm_obj := reset_pose arm_obj in
  let arm_obj := for_each [1; 30]%Z (fun f => block [
    set_bone_rotation "UpperLeg_L" (-25) 0 0 f;
    set_bone_rotation "LowerLeg_L" 5 0 0 f;
    set_bone_rotation "Foot_L" 10 0 0 f;
    set_bone_rotation "UpperLeg_R" 20 0 0 f;
    set_bone_rotation "LowerLeg_R" 35 0 0 f;
    set_bone_rotation "Foot_R" (-5) 0 0 f;
    set_bone_rotation "UpperArm_L" 15 0 0 f;
    set_bone_rotation "LowerArm_L" (-10) 0 0 f;
    set_bone_rotation "UpperArm_R" (-15) 0 0 f;
    set_bone_rotation "LowerArm_R" (-15) 0 0 f;
    set_bone_rotation "Spine" 2 3 0 f;
    set_bone_rotation "Chest" 0 (-3) 0 f;
    set_bone_location "Hips" 0 0 (-0.02) f ]) arm_obj in
  let arm_obj := block [
    set_bone_rotation "UpperLeg_L" 0 0 0 8;
    set_bone_rotation "LowerLeg_L" 30 0 0 8;
    set_bone_rotation "Foot_L" (-15) 0 0 8;
    set_bone_rotation "UpperLeg_R" 0 0 0 8;
    set_bone_rotation "LowerLeg_R" 5 0 0 8;
    set_bone_rotation "Foot_R" 0 0 0 8;
    set_bone_rotation "UpperArm_L" 0 0 0 8;
    set_bone_rotation "LowerArm_L" (-5) 0 0 8;
    set_bone_rotation "UpperArm_R" 0 0 0 8;
    set_bone_rotation "LowerArm_R" (-5) 0 0 8;
    set_bone_rotation "Spine" 2 0 0 8;
    set_bone_rotation "Chest" 0 0 0 8;
    set_bone_location "Hips" 0 0 0.01 8;

    set_bone_rotation "UpperLeg_L" 20 0 0 15;
    set_bone_rotation "LowerLeg_L" 35 0 0 15;
    set_bone_rotation "Foot_L" (-5) 0 0 15;
    set_bone_rotation "UpperLeg_R" (-25) 0 0 15;
    set_bone_rotation "LowerLeg_R" 5 0 0 15;
    set_bone_rotation "Foot_R" 10 0 0 15;
    set_bone_rotation "UpperArm_L" (-15) 0 0 15;
    set_bone_rotation "LowerArm_L" (-15) 0 0 15;
    set_bone_rotation "UpperArm_R" 15 0 0 15;
    set_bone_rotation "LowerArm_R" (-10) 0 0 15;
    set_bone_rotation "Spine" 2 (-3) 0 15;
    set_bone_rotation "Chest" 0 3 0 15;
    set_bone_location "Hips" 0 0 (-0.02) 15;

    set_bone_rotation "UpperLeg_L" 0 0 0 23;
    set_bone_rotation "LowerLeg_L" 5 0 0 23;
    set_bone_rotation "Foot_L" 0 0 0 23;
    set_bone_rotation "UpperLeg_R" 0 0 0 23;
    set_bone_rotation "LowerLeg_R" 30 0 0 23;
    set_bone_rotation "Foot_R" (-15) 0 0 23;
    set_bone_rotation "UpperArm_L" 0 0 0 23;
    set_bone_rotation "LowerArm_L" (-5) 0 0 23;
    set_bone_rotation "UpperArm_R" 0 0 0 23;
    set_bone_rotation "LowerArm_R" (-5) 0 0 23;
    set_bone_rotation "Spine" 2 0 0 23;
    set_bone_rotation "Chest" 0 0 0 23;
    set_bone_location "Hips" 0 0 0.01 23 ] arm_obj in
  push_to_nla arm_obj act "Walk".

(** [create_run(arm_obj)] *)
Definition create_run (arm_obj : Rig) : Rig :=
  let '(act, arm_obj) := create_action arm_obj "Run" in
  let arm_obj := reset_pose arm_obj in
  let arm_obj := for_each [1; 20]%Z (fun f => block [
    set_bone_rotation "UpperLeg_L" (-40) 0 0 f;
    set_bone_rotation "LowerLeg_L" 10 0 0 f;
    set_bone_rotation "Foot_L" 15 0 0 f;
    set_bone_rotation "UpperLeg_R" 30 0 0 f;
    set_bone_rotation "LowerLeg_R" 50 0 0 f;
    set_bone_rotation "Foot_R" (-10) 0 0 f;
    set_bone_rotation "UpperArm_L" 25 0 0 f;
    set_bone_rotation "LowerArm_L" (-20) 0 0 f;
    set_bone_rotation "UpperArm_R" (-30) 0 0 f;
    set_bone_rotation "LowerArm_R" (-25) 0 0 f;
    set_bone_rotation "Spine" 5 5 0 f;
    set_bone_rotation "Chest" (-3) (-5) 0 f;
    set_bone_location "Hips" 0 0 (-0.03) f ]) arm_obj in
  let arm_obj := block [
    set_bone_rotation "UpperLeg_L" 5 0 0 5;
    set_bone_rotation "LowerLeg_L" 45 0 0 5;
    set_bone_rotation "Foot_L" (-20) 0 0 5;
    set_bone_rotation "UpperLeg_R" (-5) 0 0 5;
    set_bone_rotation "LowerLeg_R" 10 0 0 5;
    set_bone_rotation "Foot_R" 0 0 0 5;
    set_bone_rotation "UpperArm_L" 0 0 0 5;
    set_bone_rotation "LowerArm_L" (-10) 0 0 5;
    set_bone_rotation "UpperArm_R" 0 0 0 5;
    set_bone_rotation "LowerArm_R" (-10) 0 0 5;
    set_bone_rotation "Spine" 5 0 0 5;
    set_bone_rotation "Chest" (-3) 0 0 5;
    set_bone_location "Hips" 0 0 0.02 5;

    set_bone_rotation "UpperLeg_L" 30 0 0 10;
    set_bone_rotation "LowerLeg_L" 50 0 0 10;
    set_bone_rotation "Foot_L" (-10) 0 0 10;
    set_bone_rotation "UpperLeg_R" (-40) 0 0 10;
    set_bone_rotation "LowerLeg_R" 10 0 0 10;
    set_bone_rotation "Foot_R" 15 0 0 10;
    set_bone_rotation "UpperArm_L" (-30) 0 0 10;
    set_bone_rotation "LowerArm_L" (-25) 0 0 10;
    set_bone_rotation "UpperArm_R" 25 0 0 10;
    set_bone_rotation "LowerArm_R" (-20) 0 0 10;
    set_bone_rotation "Spine" 5 (-5) 0 10;
    set_bone_rotation "Chest" (-3) 5 0 10;
    set_bone_location "Hips" 0 0 (-0.03) 10;

    set_bone_rotation "UpperLeg_L" (-5) 0 0 15;
    set_bone_rotation "LowerLeg_L" 10 0 0 15;
    set_bone_rotation "Foot_L" 0 0 0 15;
    set_bone_rotation "UpperLeg_R" 5 0 0 15;
    set_bone_rotation "LowerLeg_R" 45 0 0 15;
    set_bone_rotation "Foot_R" (-20) 0 0 15;
    set_bone_rotation "UpperArm_L" 0 0 0 15;
    set_bone_rotation "LowerArm_L" (-10) 0 0 15;
    set_bone_rotation "UpperArm_R" 0 0 0 15;
    set_bone_rotation "LowerArm_R" (-10) 0 0 15;
    set_bone_rotation "Spine" 5 0 0 15;
    set_bone_rotation "Chest" (-3) 0 0 15;
    set_bone_location "Hips" 0 0 0.02 15 ] arm_obj in
  push_to_nla arm_obj act "Run".

(** [create_jump(arm_obj)] *)
Definition create_jump (arm_obj : Rig) : Rig :=
  let '(act, arm_obj) := create_action arm_obj "Jump" in
  let arm_obj := reset_pose arm_obj in
  let arm_obj := block [
    set_bone_rotation "Spine" 0 0 0 1;
    set_bone_rotation "UpperLeg_L" 0 0 0 1;
    set_bone_rotation "UpperLeg_R" 0 0 0 1;
    set_bone_rotation "LowerLeg_L" 0 0 0 1;
    set_bone_rotation "LowerLeg_R" 0 0 0 1;
    set_bone_rotation "UpperArm_L" 0 0 0 1;
    set_bone_rotation "UpperArm_R" 0 0 0 1;
    set_bone_location "Hips" 0 0 0 1;

    set_bone_rotation "Spine" 15 0 0 6;
    set_bone_rotation "UpperLeg_L" (-30) 0 0 6;
    set_bone_rotation "UpperLeg_R" (-30) 0 0 6;
    set_bone_rotation "LowerLeg_L" 50 0 0 6;
    set_bone_rotation "LowerLeg_R" 50 0 0 6;
    set_bone_rotation "Foot_L" (-15) 0 0 6;
    set_bone_rotation "Foot_R" (-15) 0 0 6;
    set_bone_rotation "UpperArm_L" 20 0 0 6;
    set_bone_rotation "UpperArm_R" 20 0 0 6;
    set_bone_rotation "LowerArm_L" (-20) 0 0 6;
    set_bone_rotation "LowerArm_R" (-20) 0 0 6;
    set_bone_location "Hips" 0 0 (-0.1) 6;

    set_bone_rotation "Spine" (-10) 0 0 10;
    set_bone_rotation "UpperLeg_L" 10 0 0 10;
    set_bone_rotation "UpperLeg_R" 10 0 0 10;
    set_bone_rotation "LowerLeg_L" 5 0 0 10;
    set_bone_rotation "LowerLeg_R" 5 0 0 10;
    set_bone_rotation "Foot_L" 15 0 0 10;
    set_bone_rotation "Foot_R" 15 0 0 10;
    set_bone_rotation "UpperArm_L" (-40) 0 0 10;
    set_bone_rotation "UpperArm_R" (-40) 0 0 10;
    set_bone_rotation "LowerArm_L" (-5) 0 0 10;
    set_bone_rotation "LowerArm_R" (-5) 0 0 10;
    set_bone_location "Hips" 0 0 0.05 10;

    set_bone_rotation "Spine" (-5) 0 0 16;
    set_bone_rotation "UpperLeg_L" (-15) 0 0 16;
    set_bone_rotation "UpperLeg_R" (-15) 0 0 16;
    set_bone_rotation "LowerLeg_L" 25 0 0 16;
    set_bone_rotation "LowerLeg_R" 25 0 0 16;
    set_bone_rotation "Foot_L" 0 0 0 16;
    set_bone_rotation "Foot_R" 0 0 0 16;
    set_bone_rotation "UpperArm_L" (-20) 0 (-15) 16;
    set_bone_rotation "UpperArm_R" (-20) 0 15 16;
    set_bone_rotation "LowerArm_L" (-10) 0 0 16;
    set_bone_rotation "LowerArm_R" (-10) 0 0 16;
    set_bone_location "Hips" 0 0 0.03 16;

    set_bone_rotation "Spine" 10 0 0 22;
    set_bone_rotation "UpperLeg_L" (-20) 0 0 22;
    set_bone_rotation "UpperLeg_R" (-20) 0 0 22;
    set_bone_rotation "LowerLeg_L" 35 0 0 22;
    set_bone_rotation "LowerLeg_R" 35 0 0 22;
    set_bone_rotation "Foot_L" (-10) 0 0 22;
    set_bone_rotation "Foot_R" (-10) 0 0 22;
    set_bone_rotation "UpperArm_L" 10 0 0 22;
    set_bone_rotation "UpperArm_R" 10 0 0 22;
    set_bone_rotation "LowerArm_L" (-15) 0 0 22;
    set_bone_rotation "LowerArm_R" (-15) 0 0 22;
    set_bone_location "Hips" 0 0 (-0.06) 22;

    set_bone_rotation "Spine" 0 0 0 30;
    set_bone_rotation "UpperLeg_L" 0 0 0 30;
    set_bone_rotation "UpperLeg_R" 0 0 0 30;
    set_bone_rotation "LowerLeg_L" 0 0 0 30;
    set_bone_rotation "LowerLeg_R" 0 0 0 30;
    set_bone_rotation "Foot_L" 0 0 0 30;
    set_bone_rotation "Foot_R" 0 0 0 30;
    set_bone_rotation "UpperArm_L" 0 0 0 30;
    set_bone_rotation "UpperArm_R" 0 0 0 30;
    set_bone_rotation "LowerArm_L" 0 0 0 30;
    set_bone_rotation "LowerArm_R" 0 0 0 30;
    set_bone_location "Hips" 0 0 0 30 ] arm_obj in
  push_to_nla arm_obj act "Jump".

(** Step 4 of [import_rigged_model]: the current action is unset, every
    NLA track is removed and every action of [bpy.data.actions] is
    removed. *)
Definition clear_animation_data (arm_obj : Rig) : Rig :=
  mkRig (pose_bones arm_obj) [] None [].

(** The four builder calls of [main], in their order. *)
Definition create_all (arm_obj : Rig) : Rig :=
  let arm_obj := create_idle arm_obj in
  let arm_obj := create_walk arm_obj in
  let arm_obj := create_run arm_obj in
  create_jump arm_obj.

(** ** Import: the choice of the armature and of the mesh *)

(** An object of [bpy.data.objects] as [import_rigged_model] reads it:
    its name (the host keeps names distinct), its [type] and, for a
    mesh, [len(obj.data.vertices)]. *)
Record DataObject : Type := mkDataObject {
  obj_name : string;
  obj_type : string;
  n_vertices : nat
}.

(** One iteration of the loop over [bpy.data.objects], on [arm_obj] and
    [mesh_obj]. *)
Definition choose_step (chosen : option DataObject * option DataObject)
    (obj : DataObject) : option DataObject * option DataObject :=
  let '(arm_obj, mesh_obj) := chosen in
  if decide (obj_type obj = "ARMATURE"%string) then (Some obj, mesh_obj)
  else if decide (obj_type obj = "MESH"%string) then
    match mesh_obj with
    | None => (arm_obj, Some obj)
    | Some m =>
        if decide (n_vertices m < n_vertices obj)%nat then (arm_obj, Some obj)
        else (arm_obj, mesh_obj)
    end
  else (arm_obj, mesh_obj).

(** The loop that removes the mesh objects other than [mesh_obj]. *)
Definition remove_strays (objects : list DataObject) (mesh_obj : option DataObject)
  : list DataObject :=
  filter (fun obj => ~ (obj_type obj = "MESH"%string /\
                        Some (obj_name obj) <> (obj_name <$> mesh_obj)))
         objects.

(** [import_rigged_model()], from the imported objects up to the two
    checks: the objects left in [bpy.data.objects], [arm_obj] and
    [mesh_obj]; [None] is [sys.exit(1)]. *)
Definition import_rigged_model (objects : list DataObject)
  : option (list DataObject * DataObject * DataObject) :=
  let '(arm_obj, mesh_obj) := foldl choose_step (None, None) objects in
  let objects := remove_strays objects mesh_obj in
  arm_obj ← arm_obj;
  mesh_obj ← mesh_obj;
  Some (objects, arm_obj, mesh_obj).

End GenerateAnimations.

(* ================================================================== *)
(** * Colours and the [random] module                                  *)
(* ================================================================== *)

(** An RGBA colour (a 4-tuple in the scripts). *)
Record Color : Type := RGBA { red : R; green : R; blue : R; alpha : R }.

Module Random.

(** A generator of the standard [random] module: how an instance is
    seeded and how [random()] draws the next number of [[0, 1)]. *)
Record Generator : Type := mkGenerator {
  state : Type;
  Random : Z -> state;
  random : state -> R * state;
  random_range : forall s, 0 <= fst (random s) < 1
}.

(** [rng.uniform(a, b)], that is [a + (b - a) * rng.random()]. *)
Definition uniform (G : Generator) (a b : R) (rng : state G) : R * state G :=
  let '(u, rng') := random G rng in (a + (b - a) * u, rng').

End Random.

(* ================================================================== *)
(** * generate_rocks.py                                                *)
(* ================================================================== *)

Module GenerateRocks.

Record MeshVertex : Type := mkMeshVertex { co : Vector; normal : Vector }.

Record MeshPolygon : Type := mkMeshPolygon {
  poly_normal : Vector;
  loop_indices : list nat
}.

(** A colour attribute of the CORNER domain: one colour per loop. *)
Record ColorAttribute : Type := mkColorAttribute {
  attr_name : string;
  data : list Color
}.

Record Mesh : Type := mkMesh {
  vertices : list MeshVertex;
  loops : list nat;
  polygons : list MeshPolygon;
  color_attributes : list ColorAttribute
}.

(** [color_layer.data[loop_idx].color = c]; [IndexError] out of range. *)
Definition set_color (loop_idx : nat) (c : Color) (colors : list Color)
  : option (list Color) :=
  if decide (loop_idx < List.length colors)%nat
  then Some (<[loop_idx := c]> colors)
  else None.

Section Host.

(** The value the host gives to the entries of a new colour attribute. *)
Variable new_attribute_fill : Color.

(** [mesh.color_attributes.new(name="Color", type='BYTE_COLOR',
    domain='CORNER')] *)
Definition color_attributes_new (mesh : Mesh) : Mesh :=
  mkMesh (vertices mesh) (loops mesh) (polygons mesh)
    (color_attributes mesh ++
     [mkColorAttribute "Color"
        (replicate (List.length (loops mesh)) new_attribute_fill)]).

(** The colour written to every corner of a polygon. *)
Definition corner_color (base_color moss_color : Color) (moss_threshold : R)
    (normal_z : R) : Color :=
  if decide (normal_z > moss_threshold) then
    let blend := (normal_z - moss_threshold) / (1.0 - moss_threshold) in
    let r := red base_color * (1 - blend) + red moss_color * blend in
    let g := green base_color * (1 - blend) + green moss_color * blend in
    let b := blue base_color * (1 - blend) + blue moss_color * blend in
    RGBA r g b 1.0
  else base_color.

(** The inner loop over [poly.loop_indices]. *)
Fixpoint color_loops (c : Color) (idxs : list nat) (colors : list Color)
  : option (list Color) :=
  match idxs with
  | [] => Some colors
  | loop_idx :: rest => colors' ← set_color loop_idx c colors; color_loops c rest colors'
  end.

(** The outer loop over [mesh.polygons]. *)
Fixpoint color_polygons (base_color moss_color : Color) (moss_threshold : R)
    (polys : list MeshPolygon) (colors : list Color) : option (list Color) :=
  match polys with
  | [] => Some colors
  | poly :: rest =>
      let normal_z := z (poly_normal poly) in
      colors' ← color_loops (corner_color base_color moss_color moss_threshold normal_z)
                            (loop_indices poly) colors;
      color_polygons base_color moss_color moss_threshold rest colors'
  end.

(** [set_vertex_colors_with_moss(obj, base_color, moss_color,
    moss_threshold)] on the mesh of [obj]; [mesh.update()] only refreshes
    data derived by the host and is left out. *)
Definition set_vertex_colors_with_moss (mesh : Mesh) (base_color moss_color : Color)
    (moss_threshold : R) : option Mesh :=
  let mesh := match color_attributes mesh with
              | [] => color_attributes_new mesh
              | _ => mesh
              end in
  match color_attributes mesh with
  | [] => None
  | color_layer :: others =>
      colors ← color_polygons base_color moss_color moss_threshold
                 (polygons mesh) (data color_layer);
      Some (mkMesh (vertices mesh) (loops mesh) (polygons mesh)
              (mkColorAttribute (attr_name color_layer) colors :: others))
  end.

End Host.

(** The state a call of [displace_vertices] runs in: the module-level
    generator of [random] (seeded once by [random.seed(SEED)]) and the
    mesh of the object. *)
Record World (G : Random.Generator) : Type := mkWorld {
  module_rng : Random.state G;
  mesh : Mesh
}.
Arguments mkWorld {G} _ _.
Arguments module_rng {G} _.
Arguments mesh {G} _.

(** The loop over [mesh.vertices]: [v.co += v.normal * displacement]. *)
Fixpoint displace_loop (G : Random.Generator) (amount : R) (rng : Random.state G)
    (vs : list MeshVertex) : list MeshVertex :=
  match vs with
  | [] => []
  | v :: rest =>
      let '(displacement, rng') := Random.uniform G (- amount) amount rng in
      mkMeshVertex (co v + normal v * displacement)%vec (normal v)
        :: displace_loop G amount rng' rest
  end.

(** [displace_vertices(obj, amount, seed_offset)] *)
Definition displace_vertices (G : Random.Generator) (w : World G) (amount : R)
    (seed_offset : Z) : World G :=
  let rng := Random.Random G seed_offset in
  let m := mesh w in
  mkWorld (module_rng w)
    (mkMesh (displace_loop G amount rng (vertices m))
            (loops m) (polygons m) (color_attributes m)).

End GenerateRocks.

(* ================================================================== *)
(** * generate_trees.py                                                *)
(* ================================================================== *)

Module GenerateTrees.
Import GenerateRocks.

(** The loop over [mesh.vertices]: three draws per vertex, for x, y, z. *)
Fixpoint displace_loop (G : Random.Generator) (amount : R) (rng : Random.state G)
    (vs : list MeshVertex) : list MeshVertex :=
  match vs with
  | [] => []
  | v :: rest =>
      let '(dx, rng1) := Random.uniform G (- amount) amount rng in
      let '(dy, rng2) := Random.uniform G (- amount) amount rng1 in
      let '(dz, rng3) := Random.uniform G (- amount) amount rng2 in
      mkMeshVertex (mkVector (x (co v) + dx) (y (co v) + dy) (z (co v) + dz))
                   (normal v)
        :: displace_loop G amount rng3 rest
  end.

(** [displace_vertices(obj, amount, seed_offset)] *)
Definition displace_vertices (G : Random.Generator) (w : World G) (amount : R)
    (seed_offset : Z) : World G :=
  let rng := Random.Random G seed_offset in
  let m := mesh w in
  mkWorld (module_rng w)
    (mkMesh (displace_loop G amount rng (vertices m))
            (loops m) (polygons m) (color_attributes m)).

End GenerateTrees.

(* ================================================================== *)
(** * generate_buildings.py                                            *)
(* ================================================================== *)

Module GenerateBuildings.

(** ** The primitive assembler *)

(** The mesh data a primitive operator creates, by its arguments. *)
Inductive Primitive : Type :=
| Cube
| Cylinder (vertices : nat) (radius depth : R)
| UVSphere (segments ring_count : nat)
| Cone (vertices : nat) (radius1 radius2 depth : R)
| Torus (major_radius minor_radius : R) (major_segments minor_segments : nat).

(** A scene object: its mesh data as created, the transforms already
    baked into that data by [transform_apply] (scale and rotation, oldest
    first) and its pending transform. *)
Record Object : Type := mkObject {
  name : string;
  primitive : Primitive;
  applied : list (Vector * Vector);
  location : Vector;
  scale : Vector;
  rotation_euler : Vector
}.

(** The scene: the store of objects (an object is referred to by its
    position), the selection and [bpy.context.active_object]. *)
Record Scene : Type := mkScene {
  objects : list Object;
  selected : list nat;
  active_object : option nat
}.

(** [bpy.ops.mesh.primitive_*_add(location=loc, ...)]: the new object
    becomes the only selected object and the active one. *)
Definition primitive_add (default_name : string) (prim : Primitive) (loc : Vector)
    (scene : Scene) : Scene :=
  let id := List.length (objects scene) in
  mkScene (objects scene ++
           [mkObject default_name prim [] loc (mkVector 1 1 1) (mkVector 0 0 0)])
          [id] (Some id).

(** [bpy.ops.object.transform_apply(scale=True, rotation=True)] on the
    selected objects. *)
Definition transform_apply_object (o : Object) : Object :=
  mkObject (name o) (primitive o) (applied o ++ [(scale o, rotation_euler o)])
           (location o) (mkVector 1 1 1) (mkVector 0 0 0).

Definition transform_apply (scene : Scene) : Scene :=
  mkScene (foldl (fun objs id => alter transform_apply_object id objs)
                 (objects scene) (selected scene))
          (selected scene) (active_object scene).

(** The attribute assignments of [add_part] on the object [obj]. *)
Definition configure (part_name : string) (scl : Vector) (rot : option Vector)
    (o : Object) : Object :=
  let o := mkObject part_name (primitive o) (applied o) (location o)
                    (scale o) (rotation_euler o) in
  let o := mkObject (name o) (primitive o) (applied o) (location o)
                    scl (rotation_euler o) in
  match rot with
  | Some r => mkObject (name o) (primitive o) (applied o) (location o) (scale o) r
  | None => o
  end.

(** [add_part(parts, name, prim, loc, scl, rot)]: the scene and the list
    [parts] after the call and the object returned; [None] when the call
    raises (an attribute is set on [None]). *)
Definition add_part (scene : Scene) (parts : list nat) (part_name prim : string)
    (loc scl : Vector) (rot : option Vector) : option (Scene * list nat * nat) :=
  let scene :=
    if decide (prim = "cube"%string) then primitive_add "Cube" Cube loc scene
    else if decide (prim = "cylinder"%string) then
      primitive_add "Cylinder" (Cylinder 8 1 1) loc scene
    else if decide (prim = "uv_sphere"%string) then
      primitive_add "Sphere" (UVSphere 10 8) loc scene
    else if decide (prim = "cone"%string) then
      primitive_add "Cone" (Cone 8 1 0 1) loc scene
    else if decide (prim = "torus"%string) then
      primitive_add "Torus" (Torus 1 0.25 12 6) loc scene
    else scene in
  obj ← active_object scene;
  _ ← objects scene !! obj;
  let scene := mkScene (alter (configure part_name scl rot) obj (objects scene))
                       (selected scene) (active_object scene) in
  let scene := transform_apply scene in
  Some (scene, parts ++ [obj], obj).

(** ** Origin normalisation *)

(** The joined mesh object: [data.vertices] (each [v.co]) and
    [obj.location]. *)
Record MeshObject : Type := mkMeshObject {
  vertices : list Vector;
  obj_location : Vector
}.

(** [set_origin_bottom(obj, z_offset)]; [None] is the [ValueError] of
    [min] and [max] on an empty sequence. *)
Definition set_origin_bottom (obj : MeshObject) (z_offset : R) : option MeshObject :=
  let verts := vertices obj in
  let xs := map x verts in
  let ys := map y verts in
  let zs := map z verts in
  min_xs ← Python.min_list xs;
  max_xs ← Python.max_list xs;
  let cx := (min_xs + max_xs) * 0.5 in
  min_ys ← Python.min_list ys;
  max_ys ← Python.max_list ys;
  let cy := (min_ys + max_ys) * 0.5 in
  min_zs ← Python.min_list zs;
  let min_z := min_zs + z_offset in
  Some (mkMeshObject
          (map (fun v => mkVector (x v - cx) (y v - cy) (z v - min_z)) verts)
          (mkVector 0 0 0)).

(** ** The positional colour classifier of the cottage *)

(** [cottage_color(pos)], a closure over [offset_x]. *)
Definition cottage_color (offset_x : R) (pos : Vector) : Color :=
  let lx := x pos - offset_x in
  if decide (lx > 0.90 /\ y pos > 1.0 /\ z pos > 2.0) then
    RGBA 0.45 0.42 0.40 1.0
  else if decide (z pos > 1.85) then
    RGBA 0.32 0.22 0.12 1.0
  else if decide (z pos < 0.32) then
    RGBA 0.50 0.48 0.45 1.0
  else if decide (Rabs lx < 0.32 /\ Rabs (y pos) < 0.10 /\ z pos < 1.35) then
    RGBA 0.30 0.18 0.08 1.0
  else if decide (lx > 1.35 /\ z pos > 1.0 /\ z pos < 1.45) then
    RGBA 0.28 0.16 0.06 1.0
  else if decide (z pos > 0.30 /\ z pos < 1.90) then
    let grain := sin (z pos * 15) * 0.02 in
    RGBA (0.55 + grain) (0.38 + grain) 0.20 1.0
  else RGBA 0.50 0.35 0.18 1.0.

(** ** The other positional colour classifiers *)

(** [forge_color(pos)], a closure over [offset_x]. *)
Definition forge_color (offset_x : R) (pos : Vector) : Color :=
  let lx := x pos - offset_x in
  if decide (Rabs lx < 0.28 /\ y pos > 1.0 /\ z pos > 1.40) then
    RGBA 0.40 0.38 0.36 1.0
  else if decide (Rabs lx < 0.40 /\ y pos > 0.80 /\ y pos < 1.05 /\
                  z pos > 0.30 /\ z pos < 0.70) then
    RGBA 0.90 0.40 0.10 1.0
  else if decide (lx > 0.30 /\ lx < 0.72 /\ y pos > 0.15 /\ y pos < 0.45 /\
                  z pos > 0.25 /\ z pos < 0.55) then
    RGBA 0.30 0.28 0.30 1.0
  else if decide (lx < - (0.60) /\ z pos < 0.65 /\ z pos > 0.10) then
    RGBA 0.32 0.20 0.10 1.0
  else if decide (Rabs (y pos - 1.05) < 0.08 /\ z pos > 0.95 /\ z pos < 1.40) then
    RGBA 0.40 0.38 0.35 1.0
  else if decide (lx < - (0.20) /\ lx > - (0.50) /\ y pos > 0.68 /\ z pos < 0.60) then
    RGBA 0.42 0.28 0.14 1.0
  else if decide (z pos > 1.82) then
    RGBA 0.30 0.20 0.10 1.0
  else if decide (y pos > 0.90 /\ z pos > 0.20 /\ z pos < 1.10) then
    RGBA 0.38 0.35 0.32 1.0
  else if decide (z pos < 0.22) then
    RGBA 0.48 0.45 0.42 1.0
  else if decide (Rabs lx > 1.30) then
    RGBA 0.46 0.43 0.40 1.0
  else if decide (y pos > 1.05) then
    RGBA 0.44 0.41 0.38 1.0
  else if decide (Rabs lx > 1.20 /\ z pos > 0.50) then
    RGBA 0.42 0.28 0.14 1.0
  else RGBA 0.45 0.30 0.15 1.0.

(** [stall_color(pos)], a closure over [offset_x]; [None] is the
    [IndexError] of [colors[idx]]. *)
Definition stall_color (offset_x : R) (pos : Vector) : option Color :=
  let lx := x pos - offset_x in
  if decide (z pos > 1.88) then
    let stripe := (Python.int ((lx + 2) * 3) mod 2)%Z in
    if decide (stripe <> 0%Z) then Some (RGBA 0.72 0.25 0.12 1.0)
    else Some (RGBA 0.80 0.65 0.30 1.0)
  else if decide (z pos > 1.62 /\ z pos < 1.82 /\ Rabs (y pos + 0.82) < 0.05) then
    Some (RGBA 0.72 0.25 0.12 1.0)
  else if decide (Rabs (y pos + 0.90) < 0.05 /\ z pos > 1.36 /\ z pos < 1.64) then
    Some (RGBA 0.50 0.35 0.18 1.0)
  else if decide (Rabs (y pos + 0.80) < 0.12 /\ z pos > 0.84 /\ z pos < 0.98) then
    let idx := (Python.int ((lx + 1.5) * 2) mod 3)%Z in
    let colors := [RGBA 0.75 0.55 0.15 1.0;
                   RGBA 0.60 0.25 0.15 1.0;
                   RGBA 0.40 0.55 0.25 1.0] in
    Python.getitem colors idx
  else if decide (z pos > 1.40 /\ z pos < 1.70 /\ Rabs (y pos + 0.40) < 0.08) then
    Some (RGBA 0.55 0.28 0.15 1.0)
  else if decide (Rabs (y pos + 0.80) < 0.15 /\ z pos > 0.74 /\ z pos < 0.86) then
    Some (RGBA 0.58 0.42 0.22 1.0)
  else if decide (Rabs (y pos - 0.70) < 0.18 /\ z pos > 0.96 /\ z pos < 1.06) then
    Some (RGBA 0.52 0.36 0.18 1.0)
  else Some (RGBA 0.40 0.26 0.12 1.0).

(** [tower_color(pos)], a closure over [offset_x]. *)
Definition tower_color (offset_x : R) (pos : Vector) : Color :=
  let lx := x pos - offset_x in
  if decide (z pos > 3.60) then
    RGBA 0.30 0.20 0.10 1.0
  else if decide (z pos > 2.90 /\ (Rabs lx > 0.65 \/ Rabs (y pos) > 0.65)) then
    RGBA 0.52 0.38 0.20 1.0
  else if decide (z pos > 2.72 /\ z pos < 2.90) then
    RGBA 0.48 0.34 0.18 1.0
  else if decide (Rabs lx < 0.15 /\ Rabs (y pos + 0.55) < 0.08 /\ z pos < 2.80) then
    RGBA 0.50 0.36 0.18 1.0
  else if decide (Rabs (Rabs lx - 0.12) < 0.04 /\ Rabs (y pos + 0.55) < 0.08) then
    RGBA 0.45 0.30 0.14 1.0
  else
    let dist_side :=
      Python.min (if decide (Rabs lx > 0.50) then Rabs lx - 0.60 else 10)
                 (if decide (Rabs (y pos) > 0.50) then Rabs (y pos) - 0.60 else 10) in
    if decide (dist_side < 0.05 /\ z pos > 0.50 /\ z pos < 1.50) then
      RGBA 0.42 0.28 0.13 1.0
    else if decide (Rabs (Rabs lx - 0.60) < 0.10 /\
                    Rabs (Rabs (y pos) - 0.60) < 0.10) then
      RGBA 0.38 0.24 0.12 1.0
    else if decide (z pos < 0.10) then
      RGBA 0.44 0.40 0.36 1.0
    else RGBA 0.42 0.28 0.14 1.0.

(** ** Colouring a mesh by position *)

Section Host.

(** The value the host gives to the entries of a new colour attribute. *)
Variable new_attribute_fill : Color.

(** The loop over [poly.loop_indices]: [mesh.loops[li].vertex_index] is
    entry [li] of [loops]; [None] is the [IndexError] of [mesh.loops[li]]
    or of [color_layer.data[li]], the [KeyError] of [vert_positions[vi]]
    or an exception of [color_func]. *)
Fixpoint color_corners (loops : list nat) (vert_positions : list Vector)
    (color_func : Vector -> option Color) (idxs : list nat) (colors : list Color)
  : option (list Color) :=
  match idxs with
  | [] => Some colors
  | li :: rest =>
      vi ← loops !! li;
      pos ← vert_positions !! vi;
      c ← color_func pos;
      colors' ← GenerateRocks.set_color li c colors;
      color_corners loops vert_positions color_func rest colors'
  end.

(** The loop over [mesh.polygons]. *)
Fixpoint color_faces (loops : list nat) (vert_positions : list Vector)
    (color_func : Vector -> option Color) (polys : list GenerateRocks.MeshPolygon)
    (colors : list Color) : option (list Color) :=
  match polys with
  | [] => Some colors
  | poly :: rest =>
      colors' ← color_corners loops vert_positions color_func
                  (GenerateRocks.loop_indices poly) colors;
      color_faces loops vert_positions color_func rest colors'
  end.

(** [set_vertex_colors(obj, color_func)] on the mesh of [obj];
    [vert_positions] maps the index of a vertex to a copy of its
    position. *)
Definition set_vertex_colors (mesh : GenerateRocks.Mesh)
    (color_func : Vector -> option Color) : option GenerateRocks.Mesh :=
  let mesh := match GenerateRocks.color_attributes mesh with
              | [] => GenerateRocks.color_attributes_new new_attribute_fill mesh
              | _ => mesh
              end in
  match GenerateRocks.color_attributes mesh with
  | [] => None
  | color_layer :: others =>
      let vert_positions := GenerateRocks.co <$> GenerateRocks.vertices mesh in
      colors ← color_faces (GenerateRocks.loops mesh) vert_positions color_func
                 (GenerateRocks.polygons mesh) (GenerateRocks.data color_layer);
      Some (GenerateRocks.mkMesh (GenerateRocks.vertices mesh)
              (GenerateRocks.loops mesh) (GenerateRocks.polygons mesh)
              (GenerateRocks.mkColorAttribute (GenerateRocks.attr_name color_layer) colors
               :: others))
  end.

End Host.

End GenerateBuildings.

(* ================================================================== *)
(** * Vocabulary of the specification                                  *)
(* ================================================================== *)

Module Spec.
Import Bpy.

(** ** Segments *)

(** The point [a + t * (b - a)] of the line through [a] and [b]. *)
Definition segment_point (a b : Vector) (t : R) : Vector :=
  (a + (b - a) * t)%vec.

(** [q] is a point of the segment [a b] that is nearest to [p]. *)
Definition nearest_on_segment (p a b q : Vector) : Prop :=
  exists t, 0 <= t <= 1 /\ q = segment_point a b t /\
    forall t', 0 <= t' <= 1 ->
      length (p - q)%vec <= length (p - segment_point a b t')%vec.

(** Parameter of the orthogonal projection of [p] on the line [a b]. *)
Definition projection_parameter (p a b : Vector) : R :=
  dot (p - a)%vec (b - a)%vec / length_squared (b - a)%vec.

(** What is asked of the result [q] of the closest-point computation. *)
Definition closest_point_spec (p a b q : Vector) : Prop :=
  nearest_on_segment p a b q /\
  (projection_parameter p a b < 0 -> q = a) /\
  (1 < projection_parameter p a b -> q = b) /\
  (length_squared (b - a)%vec < RigAndExport.epsilon -> q = a).

(** ** Skin binding *)

(** A candidate of [bone_data]: name, head and tail in world space. *)
Abbreviation candidate := (string * Vector * Vector)%type (only parsing).
Definition cand_name (c : candidate) : string := fst (fst c).
Definition cand_head (c : candidate) : Vector := snd (fst c).
Definition cand_tail (c : candidate) : Vector := snd c.

(** What the host guarantees of an armature: bone names are pairwise
    distinct and not empty. *)
Definition armature_wf (arm_obj : ArmatureObject) : Prop :=
  NoDup (name <$> bones arm_obj) /\
  Forall (fun bone => name bone <> ""%string) (bones arm_obj).

(** Vertex [i] is in group number [k] with weight 1.0 and in no other
    group. *)
Definition bound_to (groups : list VertexGroup) (i k : nat) : Prop :=
  (exists g, groups !! k = Some g /\ weights g !! i = Some 1) /\
  forall k' g', k' <> k -> groups !! k' = Some g' -> weights g' !! i = None.

(** The segment of [c] is at least as near to [co] as that of [c']:
    every point of the latter is matched by one of the former. *)
Definition nearer_segment (co : Vector) (c c' : candidate) : Prop :=
  forall t', 0 <= t' <= 1 ->
    exists t, 0 <= t <= 1 /\
      length (co - segment_point (cand_head c) (cand_tail c) t)%vec
      <= length (co - segment_point (cand_head c') (cand_tail c') t')%vec.

(** The same comparison on the distances the binder computes. *)
Definition nearer_computed (co : Vector) (c c' : candidate) : Prop :=
  RigAndExport.dist co c <= RigAndExport.dist co c'.

(** Vertex [i] of the mesh is bound, with weight 1.0 and to no other
    bone, to a bone that is nearest in the sense of [nearer], the first
    such in enumeration order; group number [k] is the group of
    candidate number [k]. *)
Definition binds_nearest (nearer : Vector -> candidate -> candidate -> Prop)
    (mesh_obj : MeshObject) (arm_obj : ArmatureObject) (i : nat) : Prop :=
  exists mesh' v k cand g,
    RigAndExport.assign_weights_by_bones mesh_obj arm_obj = Some mesh' /\
    vertices mesh_obj !! i = Some v /\
    RigAndExport.bone_data arm_obj !! k = Some cand /\
    vertex_groups mesh' !! k = Some g /\ vg_name g = cand_name cand /\
    bound_to (vertex_groups mesh') i k /\
    let co := (matrix_world mesh_obj @ v)%vec in
    (forall c, c ∈ RigAndExport.bone_data arm_obj -> nearer co cand c) /\
    (forall j c, (j < k)%nat -> RigAndExport.bone_data arm_obj !! j = Some c ->
                 ~ nearer co c cand).

(** The groups right after they have been created. *)
Definition fresh_groups (arm_obj : ArmatureObject) : list VertexGroup :=
  (fun c => mkVertexGroup (cand_name c) ∅) <$> RigAndExport.bone_data arm_obj.

(** Candidate number [k] is the first of least computed distance. *)
Definition first_nearest (co : Vector) (bd : list candidate) (k : nat)
    (cand : candidate) : Prop :=
  bd !! k = Some cand /\
  (forall j c, bd !! j = Some c -> RigAndExport.dist co cand <= RigAndExport.dist co c) /\
  (forall j c, (j < k)%nat -> bd !! j = Some c ->
               RigAndExport.dist co cand < RigAndExport.dist co c).

(** The weight of vertex [i] in group number [p], if any. *)
Definition weight_at (groups : list VertexGroup) (p i : nat) : option R :=
  g ← groups !! p; weights g !! i.

(** A bone that is not treated as a point unless it is one. *)
Definition nondegenerate (c : candidate) : Prop :=
  cand_head c = cand_tail c \/
  RigAndExport.epsilon <= length_squared (cand_tail c - cand_head c)%vec.

(** The two-bone skeleton of the scenario and a mesh with the vertex
    (0.1, 0, 0.5); the mesh carries a stale vertex group. *)
Definition two_bones : ArmatureObject :=
  mkArmatureObject identity
    [mkBone "Bone A" (mkVector 0 0 0) (mkVector 0 0 1);
     mkBone "Bone B" (mkVector 0 0 1) (mkVector 0 0 2)].

Definition one_vertex : MeshObject :=
  mkMeshObject identity [mkVector 0.1 0 0.5]
    [mkVertexGroup "Stale" {[ 0%nat := 0.5 ]}].

(** The scenario: the vertex is bound to Bone A, the first group. *)
Definition scenario_binds_bone_a : Prop :=
  exists mesh' g,
    RigAndExport.assign_weights_by_bones one_vertex two_bones = Some mesh' /\
    vertex_groups mesh' !! 0%nat = Some g /\ vg_name g = "Bone A"%string /\
    bound_to (vertex_groups mesh') 0 0.

(** A skeleton with a very short first bone, and a vertex between its
    two bones. *)
Definition short_bone : ArmatureObject :=
  mkArmatureObject identity
    [mkBone "Bone A" (mkVector 0 0 0) (mkVector 0.00008 0 0);
     mkBone "Bone B" (mkVector 2 0 0) (mkVector 3 0 0)].

Definition vertex_between : MeshObject :=
  mkMeshObject identity [mkVector 1.00003 0 0] [].

(** ** Buildings *)

(** The two colours of the cottage cascade that C7 is about. *)
Definition roof_color : Color := RGBA 0.32 0.22 0.12 1.0.

Definition wall_color (pos : Vector) : Color :=
  let grain := sin (z pos * 15) * 0.02 in
  RGBA (0.55 + grain) (0.38 + grain) 0.20 1.0.

(** Midpoint of the least and the greatest element of a sequence. *)
Definition midpoint (rs : list R) : option R :=
  lo ← Python.min_list rs; hi ← Python.max_list rs; Some ((lo + hi) * 0.5).

(** The placement convention: centred in X and Y, lowest point at
    height [bottom]. *)
Definition placed (obj : GenerateBuildings.MeshObject) (bottom : R) : Prop :=
  midpoint (map x (GenerateBuildings.vertices obj)) = Some 0 /\
  midpoint (map y (GenerateBuildings.vertices obj)) = Some 0 /\
  Python.min_list (map z (GenerateBuildings.vertices obj)) = Some bottom.


(** A scene in which one cube part has been added. *)
Definition scene_with_cube : GenerateBuildings.Scene :=
  GenerateBuildings.mkScene
    [GenerateBuildings.mkObject "CO_Foundation" GenerateBuildings.Cube
       [(mkVector 1.60 1.60 0.15, mkVector 0 0 0)]
       (mkVector 0 0 0.15) (mkVector 1 1 1) (mkVector 0 0 0)]
    [0%nat] (Some 0%nat).

(** ** Normal-blend colouring *)

(** Linear blend of two colours, channel by channel. *)
Definition lerp_color (c0 c1 : Color) (t : R) : Color :=
  RGBA (red c0 * (1 - t) + red c1 * t) (green c0 * (1 - t) + green c1 * t)
       (blue c0 * (1 - t) + blue c1 * t) (alpha c0 * (1 - t) + alpha c1 * t).

Definition blend_factor (normal_z threshold : R) : R :=
  (normal_z - threshold) / (1 - threshold).

(** The corner addressing of a mesh: every loop index belongs to at most
    one polygon and is in range, and colour data has one entry per loop. *)
Definition corners_wf (mesh : GenerateRocks.Mesh) : Prop :=
  let corners := concat (map GenerateRocks.loop_indices (GenerateRocks.polygons mesh)) in
  NoDup corners /\
  Forall (fun li => (li < List.length (GenerateRocks.loops mesh))%nat) corners /\
  Forall (fun layer => List.length (GenerateRocks.data layer)
                       = List.length (GenerateRocks.loops mesh))
         (GenerateRocks.color_attributes mesh).

(** The colour of a corner in the first colour attribute. *)
Definition corner (mesh : GenerateRocks.Mesh) (li : nat) : option Color :=
  layer ← head (GenerateRocks.color_attributes mesh);
  GenerateRocks.data layer !! li.

(** What C5 asks of the colour [c] of a corner of a polygon with normal
    [n]. *)
Definition moss_spec (base_color moss_color : Color) (threshold : R)
    (n : Vector) (c : Color) : Prop :=
  if decide (z n > threshold)
  then c = lerp_color base_color moss_color (blend_factor (z n) threshold)
  else c = base_color.

(** The same with the blend confined to the red, green and blue
    channels and an opaque result. *)
Definition moss_spec_rgb (base_color moss_color : Color) (threshold : R)
    (n : Vector) (c : Color) : Prop :=
  if decide (z n > threshold)
  then let l := lerp_color base_color moss_color (blend_factor (z n) threshold) in
       red c = red l /\ green c = green l /\ blue c = blue l /\ alpha c = 1
  else c = base_color.

(** One upward triangle with an uncoloured mesh. *)
Definition one_triangle : GenerateRocks.Mesh :=
  GenerateRocks.mkMesh
    [GenerateRocks.mkMeshVertex (mkVector 0 0 0) (mkVector 0 0 1);
     GenerateRocks.mkMeshVertex (mkVector 1 0 0) (mkVector 0 0 1);
     GenerateRocks.mkMeshVertex (mkVector 0 1 0) (mkVector 0 0 1)]
    [0; 1; 2]%nat
    [GenerateRocks.mkMeshPolygon (mkVector 0 0 1) [0; 1; 2]%nat]
    [].

(** ** Displacement *)








(** ** Animation clips *)

#[global] Instance Q_eq_dec : EqDecision Q.
Proof. solve_decision. Defined.

(** The clip pushed last: the name of the last NLA track and the action
    of its strip. *)
Definition pushed (arm_obj : GenerateAnimations.Rig)
  : option (string * GenerateAnimations.Action) :=
  '(n, id) ← last (GenerateAnimations.nla_tracks arm_obj);
  act ← GenerateAnimations.actions arm_obj !! id;
  Some (n, act).

(** Closure of a table of keys: a bone has the same key (or none) at
    the first and at the last frame, and a bone keyed at any frame is
    keyed at the first one. *)
Definition table_closed (T : gmap (string * Z) GenerateAnimations.Triple)
    (first_frame last_frame : Z) : Prop :=
  forall bone,
    T !! (bone, first_frame) = T !! (bone, last_frame) /\
    forall f, is_Some (T !! (bone, f)) -> is_Some (T !! (bone, first_frame)).

(** Loop closure of a clip: both channels are closed. *)
Definition loop_closed (act : GenerateAnimations.Action) (first_frame last_frame : Z)
  : Prop :=
  table_closed (GenerateAnimations.rotation_keys act) first_frame last_frame /\
  table_closed (GenerateAnimations.location_keys act) first_frame last_frame.

(** The left/right counterpart of a bone name: a final [_L] becomes
    [_R] and conversely; other names are their own counterpart. *)
Fixpoint mirror_name (s : string) : string :=
  if String.eqb s "_L" then "_R"%string
  else if String.eqb s "_R" then "_L"%string
  else match s with
       | EmptyString => EmptyString
       | String c rest => String c (mirror_name rest)
       end.

(** The bones of the centre line whose lateral components change sign. *)
Definition center_line : list string := ["Spine"; "Chest"]%string.

(** Mirror image of the Euler angles of a bone: on the centre line the
    second and third (lateral) components change sign. *)
Definition mirror_rotation (bone : string) (e : GenerateAnimations.Triple)
  : GenerateAnimations.Triple :=
  if bool_decide (bone ∈ center_line)
  then let '(rx, ry, rz) := e in (rx, - ry, - rz)%Q
  else e.

(** The key pose at [right_frame] is the mirror image of the one at
    [left_frame]. *)
Definition mirrored (act : GenerateAnimations.Action) (left_frame right_frame : Z)
  : Prop :=
  forall bone,
    GenerateAnimations.rotation_keys act !! (bone, right_frame)
    = mirror_rotation bone
        <$> GenerateAnimations.rotation_keys act !! (mirror_name bone, left_frame) /\
    GenerateAnimations.location_keys act !! (bone, right_frame)
    = GenerateAnimations.location_keys act !! (mirror_name bone, left_frame).

(** A rig with a left bone for every right bone and conversely. *)
Definition symmetric (arm_obj : GenerateAnimations.Rig) : Prop :=
  forall bone,
    is_Some (GenerateAnimations.pose_bones arm_obj !! bone) <->
    is_Some (GenerateAnimations.pose_bones arm_obj !! mirror_name bone).

(** The bone names of the humanoid armature (BONES of rig_and_export.py)
    and the rig with these bones at rest, as imported. *)
Definition humanoid_bone_names : list string :=
  ["Root"; "Hips"; "Spine"; "Chest"; "Neck"; "Head";
   "Shoulder_L"; "UpperArm_L"; "LowerArm_L"; "Hand_L";
   "Shoulder_R"; "UpperArm_R"; "LowerArm_R"; "Hand_R";
   "UpperLeg_L"; "LowerLeg_L"; "Foot_L";
   "UpperLeg_R"; "LowerLeg_R"; "Foot_R"]%string.

Definition humanoid_rig : GenerateAnimations.Rig :=
  GenerateAnimations.mkRig
    (list_to_map
       ((fun n => (n, GenerateAnimations.mkPoseBone "QUATERNION"
                        (0, 0, 0)%Q (0, 0, 0)%Q))
          <$> humanoid_bone_names))
    [] None [].

(** The clip a builder authors, read off its run on the humanoid rig. *)
Definition authored (builder : GenerateAnimations.Rig -> GenerateAnimations.Rig)
  : GenerateAnimations.Action :=
  match pushed (builder humanoid_rig) with
  | Some (_, act) => act
  | None => GenerateAnimations.mkAction "" ∅ ∅
  end.

Definition idle_clip : GenerateAnimations.Action :=
  authored GenerateAnimations.create_idle.
Definition walk_clip : GenerateAnimations.Action :=
  authored GenerateAnimations.create_walk.
Definition run_clip : GenerateAnimations.Action :=
  authored GenerateAnimations.create_run.

(** The keys of [act] are those of the authored clip [clip], restricted
    to the bones the rig has. *)
Definition keys_restricted (arm_obj : GenerateAnimations.Rig)
    (act clip : GenerateAnimations.Action) : Prop :=
  GenerateAnimations.action_name act = GenerateAnimations.action_name clip /\
  forall bone f,
    GenerateAnimations.rotation_keys act !! (bone, f)
    = (if bool_decide (is_Some (GenerateAnimations.pose_bones arm_obj !! bone))
       then GenerateAnimations.rotation_keys clip !! (bone, f) else None) /\
    GenerateAnimations.location_keys act !! (bone, f)
    = (if bool_decide (is_Some (GenerateAnimations.pose_bones arm_obj !! bone))
       then GenerateAnimations.location_keys clip !! (bone, f) else None).

(** While the statements of a clip builder run on a rig whose bones are
    those [present], the current action [id] holds the keys of the
    tables [Trot] and [Tloc] for the bones present. *)
Definition building (present : string -> bool) (tracks : list (string * nat))
    (n : string) (id : nat)
    (Trot Tloc : gmap (string * Z) GenerateAnimations.Triple)
    (r : GenerateAnimations.Rig) : Prop :=
  GenerateAnimations.action r = Some id /\
  GenerateAnimations.nla_tracks r = tracks /\
  (forall bone,
     is_Some (GenerateAnimations.pose_bones r !! bone) <-> present bone = true) /\
  exists act,
    GenerateAnimations.actions r !! id = Some act /\
    GenerateAnimations.action_name act = n /\
    (forall bone f, GenerateAnimations.rotation_keys act !! (bone, f)
                    = if present bone then Trot !! (bone, f) else None) /\
    (forall bone f, GenerateAnimations.location_keys act !! (bone, f)
                    = if present bone then Tloc !! (bone, f) else None).

(** The bones a table of keys mentions. *)
Definition table_bones (T : gmap (string * Z) GenerateAnimations.Triple)
  : list string :=
  remove_dups ((fun kv => fst (fst kv)) <$> map_to_list T).



(** ** Further vocabulary: animation clips *)

Definition jump_clip : GenerateAnimations.Action :=
  authored GenerateAnimations.create_jump.

(** The builder has appended the action [act] to the rig [r] as its only
    change to the store of actions, has pushed it on a new last track
    called [n], has left no current action and has kept the bones. *)
Definition appended (r r' : GenerateAnimations.Rig) (n : string)
    (act : GenerateAnimations.Action) : Prop :=
  GenerateAnimations.actions r' = GenerateAnimations.actions r ++ [act] /\
  GenerateAnimations.nla_tracks r'
  = GenerateAnimations.nla_tracks r
    ++ [(n, List.length (GenerateAnimations.actions r))] /\
  GenerateAnimations.action r' = None /\
  forall bone, is_Some (GenerateAnimations.pose_bones r' !! bone)
               <-> is_Some (GenerateAnimations.pose_bones r !! bone).

(** While the statements of a builder run: the store is [acts] followed
    by the action under construction, which is the current one and
    holds the keys of [Trot] and [Tloc] for the bones present. *)
Definition building_on (acts : list GenerateAnimations.Action)
    (present : string -> bool) (tracks : list (string * nat)) (n : string)
    (Trot Tloc : gmap (string * Z) GenerateAnimations.Triple)
    (r : GenerateAnimations.Rig) : Prop :=
  GenerateAnimations.action r = Some (List.length acts) /\
  GenerateAnimations.nla_tracks r = tracks /\
  (forall bone,
     is_Some (GenerateAnimations.pose_bones r !! bone) <-> present bone = true) /\
  exists act,
    GenerateAnimations.actions r = acts ++ [act] /\
    GenerateAnimations.action_name act = n /\
    (forall bone f, GenerateAnimations.rotation_keys act !! (bone, f)
                    = if present bone then Trot !! (bone, f) else None) /\
    (forall bone f, GenerateAnimations.location_keys act !! (bone, f)
                    = if present bone then Tloc !! (bone, f) else None).

(** The frames at which [create_jump] places its poses. *)
Definition jump_frames : list Z := [1; 6; 10; 16; 22; 30]%Z.

(** Every key of the table at frame [f] is the zero triple. *)
Definition rest_at (T : gmap (string * Z) GenerateAnimations.Triple) (f : Z) : Prop :=
  forall bone v, T !! (bone, f) = Some v -> v = (0, 0, 0)%Q.

(** Mirror image of Euler angles or of an offset across the sagittal
    plane: rotations keep the first component, offsets change the sign
    of the first. *)
Definition mirror_angles (e : GenerateAnimations.Triple) : GenerateAnimations.Triple :=
  let '(rx, ry, rz) := e in (rx, - ry, - rz)%Q.

Definition mirror_offset (e : GenerateAnimations.Triple) : GenerateAnimations.Triple :=
  let '(lx, ly, lz) := e in (- lx, ly, lz)%Q.

(** At every frame the pose is its own mirror image. *)
Definition bilateral (act : GenerateAnimations.Action) : Prop :=
  forall bone f,
    GenerateAnimations.rotation_keys act !! (mirror_name bone, f)
    = mirror_angles <$> GenerateAnimations.rotation_keys act !! (bone, f) /\
    GenerateAnimations.location_keys act !! (mirror_name bone, f)
    = mirror_offset <$> GenerateAnimations.location_keys act !! (bone, f).

(** Componentwise, [w] is no larger than [v] in magnitude and does not
    point the other way. *)
Definition amplified_component (w v : Q) : Prop :=
  (0 <= w * v)%Q /\ (Qabs.Qabs w <= Qabs.Qabs v)%Q.

Definition amplified_triple (w v : GenerateAnimations.Triple) : Prop :=
  let '(w1, w2, w3) := w in
  let '(v1, v2, v3) := v in
  amplified_component w1 v1 /\ amplified_component w2 v2 /\ amplified_component w3 v3.

(** [big] keys at [big_frame] every bone that [small] keys at
    [small_frame], with an amplified value, on both channels. *)
Definition amplifies (small big : GenerateAnimations.Action)
    (small_frame big_frame : Z) : Prop :=
  forall bone,
    (forall w, GenerateAnimations.rotation_keys small !! (bone, small_frame) = Some w ->
       exists v, GenerateAnimations.rotation_keys big !! (bone, big_frame) = Some v /\
                 amplified_triple w v) /\
    (forall w, GenerateAnimations.location_keys small !! (bone, small_frame) = Some w ->
       exists v, GenerateAnimations.location_keys big !! (bone, big_frame) = Some v /\
                 amplified_triple w v).

(** The same, as a check. *)
Definition amplified_componentb (w v : Q) : bool :=
  Qle_bool 0 (w * v) && Qle_bool (Qabs.Qabs w) (Qabs.Qabs v).

Definition amplified_tripleb (w v : GenerateAnimations.Triple) : bool :=
  let '(w1, w2, w3) := w in
  let '(v1, v2, v3) := v in
  amplified_componentb w1 v1 && amplified_componentb w2 v2 && amplified_componentb w3 v3.

(** The check of one bone, on one channel. *)
Definition amplified_at (T1 T2 : gmap (string * Z) GenerateAnimations.Triple) (f1 f2 : Z)
    (bone : string) : bool :=
  match T1 !! (bone, f1), T2 !! (bone, f2) with
  | Some w, Some v => amplified_tripleb w v
  | Some _, None => false
  | None, _ => true
  end.

(** ** Further vocabulary: buildings *)

(** The mesh object moved by [d], with any origin. *)
Definition translate (d : Vector) (loc : Vector) (obj : GenerateBuildings.MeshObject)
  : GenerateBuildings.MeshObject :=
  GenerateBuildings.mkMeshObject
    (map (fun v => (v + d)%vec) (GenerateBuildings.vertices obj)) loc.

(** A colour a byte colour attribute stores as it is: every channel in
    [0,1], fully opaque. *)
Definition opaque_in_gamut (c : Color) : Prop :=
  0 <= red c <= 1 /\ 0 <= green c <= 1 /\ 0 <= blue c <= 1 /\ alpha c = 1.

(** The position of the vertex a corner belongs to. *)
Definition corner_position (mesh : GenerateRocks.Mesh) (li : nat) : option Vector :=
  vi ← GenerateRocks.loops mesh !! li;
  GenerateRocks.co <$> GenerateRocks.vertices mesh !! vi.

(** The corners of the polygons of a mesh. *)
Definition polygon_corners (mesh : GenerateRocks.Mesh) : list nat :=
  concat (map GenerateRocks.loop_indices (GenerateRocks.polygons mesh)).

(** Every corner of a polygon is a loop of a vertex of the mesh, the
    colour function is defined at that vertex, and colour data has one
    entry per loop. *)
Definition colourable (mesh : GenerateRocks.Mesh)
    (color_func : Vector -> option Color) : Prop :=
  Forall (fun li => exists pos, corner_position mesh li = Some pos /\
                                is_Some (color_func pos))
         (polygon_corners mesh) /\
  Forall (fun layer => List.length (GenerateRocks.data layer)
                       = List.length (GenerateRocks.loops mesh))
         (GenerateRocks.color_attributes mesh).

(** A quad of four vertices with two colour layers. *)
Definition one_quad : GenerateRocks.Mesh :=
  GenerateRocks.mkMesh
    [GenerateRocks.mkMeshVertex (mkVector 0 0 0) (mkVector 0 0 1);
     GenerateRocks.mkMeshVertex (mkVector 1 0 0) (mkVector 0 0 1);
     GenerateRocks.mkMeshVertex (mkVector 1 0 2) (mkVector 0 0 1);
     GenerateRocks.mkMeshVertex (mkVector 0 0 2) (mkVector 0 0 1)]
    [0; 1; 2; 3]%nat
    [GenerateRocks.mkMeshPolygon (mkVector 0 (-1) 0) [0; 1; 2; 3]%nat]
    [].

(** ** Further vocabulary: the skeleton *)

Definition definition_name (d : string * Vector * Vector * option string) : string :=
  fst (fst (fst d)).
Definition definition_head (d : string * Vector * Vector * option string) : Vector :=
  snd (fst (fst d)).
Definition definition_tail (d : string * Vector * Vector * option string) : Vector :=
  snd (fst d).

(** The rest-pose bone an edit bone becomes when edit mode is left. *)
Definition rest_bone (eb : RigAndExport.EditBone) : Bone :=
  mkBone (RigAndExport.eb_name eb) (RigAndExport.eb_head eb) (RigAndExport.eb_tail eb).

(** [arm_obj] is a new armature object (at the origin, not rotated or
    scaled) whose bones are the given edit bones, enumerated in any
    order. *)
Definition armature_of (edit_bones : list RigAndExport.EditBone)
    (arm_obj : ArmatureObject) : Prop :=
  arm_matrix_world arm_obj = identity /\
  bones arm_obj ≡ₚ rest_bone <$> edit_bones.

(** The edit bones of the humanoid: heads and tails as authored,
    parents by position. *)
Definition humanoid_edit_bones : list RigAndExport.EditBone :=
  [RigAndExport.mkEditBone "Root" (mkVector 0 0 0.00) (mkVector 0 0 0.10) false None;
   RigAndExport.mkEditBone "Hips" (mkVector 0 0 0.90) (mkVector 0 0 0.95) false (Some 0%nat);
   RigAndExport.mkEditBone "Spine" (mkVector 0 0 0.95) (mkVector 0 0 1.10) true (Some 1%nat);
   RigAndExport.mkEditBone "Chest" (mkVector 0 0 1.10) (mkVector 0 0 1.30) true (Some 2%nat);
   RigAndExport.mkEditBone "Neck" (mkVector 0 0 1.46) (mkVector 0 0 1.52) false (Some 3%nat);
   RigAndExport.mkEditBone "Head" (mkVector 0 0 1.52) (mkVector 0 0 1.75) true (Some 4%nat);
   RigAndExport.mkEditBone "Shoulder_L" (mkVector 0.15 0 1.42) (mkVector 0.30 0 1.40) false (Some 3%nat);
   RigAndExport.mkEditBone "UpperArm_L" (mkVector 0.30 0 1.40) (mkVector 0.56 0 1.38) true (Some 6%nat);
   RigAndExport.mkEditBone "LowerArm_L" (mkVector 0.56 0 1.38) (mkVector 0.84 0 1.38) true (Some 7%nat);
   RigAndExport.mkEditBone "Hand_L" (mkVector 0.84 0 1.38) (mkVector 0.98 0 1.38) true (Some 8%nat);
   RigAndExport.mkEditBone "Shoulder_R" (mkVector (-0.15) 0 1.42) (mkVector (-0.30) 0 1.40) false (Some 3%nat);
   RigAndExport.mkEditBone "UpperArm_R" (mkVector (-0.30) 0 1.40) (mkVector (-0.56) 0 1.38) true (Some 10%nat);
   RigAndExport.mkEditBone "LowerArm_R" (mkVector (-0.56) 0 1.38) (mkVector (-0.84) 0 1.38) true (Some 11%nat);
   RigAndExport.mkEditBone "Hand_R" (mkVector (-0.84) 0 1.38) (mkVector (-0.98) 0 1.38) true (Some 12%nat);
   RigAndExport.mkEditBone "UpperLeg_L" (mkVector 0.12 0 0.88) (mkVector 0.12 0 0.50) false (Some 1%nat);
   RigAndExport.mkEditBone "LowerLeg_L" (mkVector 0.12 0 0.50) (mkVector 0.12 0 0.08) true (Some 14%nat);
   RigAndExport.mkEditBone "Foot_L" (mkVector 0.12 0 0.08) (mkVector 0.12 0.15 0.02) true (Some 15%nat);
   RigAndExport.mkEditBone "UpperLeg_R" (mkVector (-0.12) 0 0.88) (mkVector (-0.12) 0 0.50) false (Some 1%nat);
   RigAndExport.mkEditBone "LowerLeg_R" (mkVector (-0.12) 0 0.50) (mkVector (-0.12) 0 0.08) true (Some 17%nat);
   RigAndExport.mkEditBone "Foot_R" (mkVector (-0.12) 0 0.08) (mkVector (-0.12) 0.15 0.02) true (Some 18%nat)].


(** ** Further vocabulary: the imported objects *)

(** [mesh] is a mesh of [objects] with the most vertices, the first
    such: the meshes before it have fewer vertices, those after it no
    more. *)
Definition largest_mesh (objects : list GenerateAnimations.DataObject)
    (mesh : GenerateAnimations.DataObject) : Prop :=
  GenerateAnimations.obj_type mesh = "MESH"%string /\
  exists before after, objects = before ++ mesh :: after /\
    Forall (fun o => GenerateAnimations.obj_type o = "MESH"%string ->
                     (GenerateAnimations.n_vertices o
                      < GenerateAnimations.n_vertices mesh)%nat) before /\
    Forall (fun o => GenerateAnimations.obj_type o = "MESH"%string ->
                     (GenerateAnimations.n_vertices o
                      <= GenerateAnimations.n_vertices mesh)%nat) after.

(** [arm] is the last armature of [objects]. *)
Definition last_armature (objects : list GenerateAnimations.DataObject)
    (arm : GenerateAnimations.DataObject) : Prop :=
  GenerateAnimations.obj_type arm = "ARMATURE"%string /\
  exists before after, objects = before ++ arm :: after /\
    Forall (fun o => GenerateAnimations.obj_type o <> "ARMATURE"%string) after.

(** An import with a stray primitive besides the character. *)
Definition imported_objects : list GenerateAnimations.DataObject :=
  [GenerateAnimations.mkDataObject "Icosphere" "MESH" 42;
   GenerateAnimations.mkDataObject "Armature" "ARMATURE" 0;
   GenerateAnimations.mkDataObject "Humanoid" "MESH" 1200;
   GenerateAnimations.mkDataObject "Empty" "EMPTY" 0].

(** ** Further vocabulary: colours between two colours *)

(** [c] lies between [a] and [b]. *)
Definition between (a b c : R) : Prop := Rmin a b <= c <= Rmax a b.

(** Red, green and blue of [c] lie between those of [c0] and [c1]. *)
Definition rgb_between (c0 c1 c : Color) : Prop :=
  between (red c0) (red c1) (red c) /\
  between (green c0) (green c1) (green c) /\
  between (blue c0) (blue c1) (blue c).

(** ** Further vocabulary: moving the character *)

(** The armature with every bone moved by [d], and the mesh with every
    vertex moved by [d]. *)
Definition move_armature (d : Vector) (arm_obj : ArmatureObject) : ArmatureObject :=
  mkArmatureObject (arm_matrix_world arm_obj)
    ((fun bone => mkBone (name bone) (head_local bone + d)%vec (tail_local bone + d)%vec)
       <$> bones arm_obj).

Definition move_mesh (d : Vector) (mesh_obj : MeshObject) : MeshObject :=
  mkMeshObject (matrix_world mesh_obj) ((fun v => (v + d)%vec) <$> vertices mesh_obj)
               (vertex_groups mesh_obj).

End Spec.

(* ================================================================== *)
(** * Closest point on a segment                                       *)
(* ================================================================== *)

Section ClosestPoint.
Import RigAndExport Spec.

Lemma vector_eq (u w : Vector) :
  x u = x w -> y u = y w -> z u = z w -> u = w.
Proof. destruct u, w; simpl; intros; subst; reflexivity. Qed.

Lemma length_squared_nonneg (v : Vector) : 0 <= length_squared v.
Proof. unfold length_squared, dot. nra. Qed.

Lemma segment_point_0 (a b : Vector) : segment_point a b 0 = a.
Proof. apply vector_eq; simpl; lra. Qed.

Lemma segment_point_1 (a b : Vector) : segment_point a b 1 = b.
Proof. apply vector_eq; simpl; lra. Qed.

Lemma clamp_bounds (t0 : R) :
  0 <= Python.max 0 (Python.min 1 t0) <= 1.
Proof.
  unfold Python.max, Python.min.
  repeat case_decide; lra.
Qed.

Lemma clamp_low (t0 : R) : t0 <= 0 -> Python.max 0 (Python.min 1 t0) = 0.
Proof. intros. unfold Python.max, Python.min. repeat case_decide; lra. Qed.

Lemma clamp_high (t0 : R) : 1 <= t0 -> Python.max 0 (Python.min 1 t0) = 1.
Proof. intros. unfold Python.max, Python.min. repeat case_decide; lra. Qed.

Lemma clamp_inside (t0 : R) : 0 <= t0 <= 1 -> Python.max 0 (Python.min 1 t0) = t0.
Proof. intros. unfold Python.max, Python.min. repeat case_decide; lra. Qed.

(** Squared distance from [p] to the point of parameter [t], as a
    quadratic in [t]. *)
Lemma length_squared_segment_point (p a b : Vector) (t : R) :
  length_squared (p - segment_point a b t)%vec =
  length_squared (p - a)%vec - 2 * t * dot (p - a)%vec (b - a)%vec
  + t * t * length_squared (b - a)%vec.
Proof. unfold length_squared, dot, segment_point. simpl. ring. Qed.

(** The clamped projection parameter minimises the quadratic on [0,1]. *)
Lemma clamp_minimises_aux (L t0 t' : R) :
  0 < L -> 0 <= t' <= 1 ->
  let t := Python.max 0 (Python.min 1 t0) in
  - 2 * t * (t0 * L) + t * t * L <= - 2 * t' * (t0 * L) + t' * t' * L.
Proof.
  intros HL Ht' t.
  destruct (Rle_dec t0 0) as [Hlo|Hlo]; [|destruct (Rle_dec 1 t0) as [Hhi|Hhi]].
  - subst t. rewrite clamp_low by assumption.
    assert (0 <= t' * L) by nra.
    assert (0 <= (t' * L) * (- t0)) by nra.
    assert (0 <= t' * t' * L) by nra. nra.
  - subst t. rewrite clamp_high by assumption.
    assert (0 <= (1 - t') * L) by nra.
    assert (0 <= ((1 - t') * L) * (t0 - 1)) by nra.
    assert (0 <= (1 - t') * (1 - t') * L) by nra. nra.
  - subst t. rewrite clamp_inside by lra.
    assert (0 <= (t' - t0) * (t' - t0) * L)
      by (apply Rmult_le_pos; [apply Rle_0_sqr | lra]).
    nra.
Qed.

Lemma clamp_minimises (L S t' : R) :
  0 < L -> 0 <= t' <= 1 ->
  let t := Python.max 0 (Python.min 1 (S / L)) in
  - 2 * t * S + t * t * L <= - 2 * t' * S + t' * t' * L.
Proof.
  intros HL Ht'.
  assert (HS : S = (S / L) * L) by (field; lra).
  pose proof (clamp_minimises_aux L (S / L) t' HL Ht') as H.
  rewrite <- HS in H. exact H.
Qed.

Lemma closest_point_short (p a b : Vector) :
  length_squared (b - a)%vec < epsilon -> closest_point_on_segment p a b = a.
Proof. intros H. unfold closest_point_on_segment. rewrite decide_True; done. Qed.

Lemma closest_point_long (p a b : Vector) :
  epsilon <= length_squared (b - a)%vec ->
  closest_point_on_segment p a b =
  segment_point a b (Python.max 0 (Python.min 1 (projection_parameter p a b))).
Proof.
  intros H. unfold closest_point_on_segment. rewrite decide_False by lra.
  reflexivity.
Qed.

Lemma closest_point_on_segment_param (p a b : Vector) :
  exists t, 0 <= t <= 1 /\ closest_point_on_segment p a b = segment_point a b t.
Proof.
  destruct (Rlt_dec (length_squared (b - a)%vec) epsilon) as [H|H].
  - exists 0. split; [lra|]. rewrite closest_point_short by assumption.
    symmetry. apply segment_point_0.
  - eexists. split; [apply clamp_bounds|]. apply closest_point_long. lra.
Qed.

Lemma closest_point_nearest (p a b : Vector) :
  epsilon <= length_squared (b - a)%vec ->
  nearest_on_segment p a b (closest_point_on_segment p a b).
Proof.
  intros H. rewrite closest_point_long by assumption.
  eexists. split; [apply clamp_bounds|]. split; [reflexivity|].
  intros t' Ht'. unfold length. apply sqrt_le_1_alt.
  rewrite !length_squared_segment_point.
  assert (HL : 0 < length_squared (b - a)%vec) by (unfold epsilon in H; lra).
  pose proof (clamp_minimises _ (dot (p - a)%vec (b - a)%vec) t' HL Ht') as Hm.
  cbv zeta in Hm. unfold projection_parameter. lra.
Qed.

Lemma closest_point_same_ends (p a : Vector) :
  nearest_on_segment p a a (closest_point_on_segment p a a).
Proof.
  assert (Hz : length_squared (a - a)%vec = 0).
  { unfold length_squared, dot. simpl. ring. }
  rewrite closest_point_short by (rewrite Hz; unfold epsilon; lra).
  exists 0. split; [lra|]. split; [symmetry; apply segment_point_0|].
  intros t' _. right. f_equal. f_equal. apply vector_eq; simpl; ring.
Qed.

Lemma closest_point_copies_agree (p a b : Vector) :
  GenerateAnimations.closest_point_on_segment p a b = closest_point_on_segment p a b.
Proof. reflexivity. Qed.

(** C2, as stated, fails: for the short segment from (0,0,0) to
    (0.00005,0,0) and the point (1,0,0) the result is the head, at
    distance 1, while the tail is at distance 0.99995. *)
Lemma closest_point_short_segment_not_nearest :
  ~ closest_point_spec (mkVector 1 0 0) (mkVector 0 0 0) (mkVector 0.00005 0 0)
      (closest_point_on_segment (mkVector 1 0 0) (mkVector 0 0 0)
                                (mkVector 0.00005 0 0)).
Proof.
  intros [[t [_ [_ Hmin]]] _].
  rewrite closest_point_short in Hmin
    by (unfold length_squared, dot, epsilon; simpl; lra).
  specialize (Hmin 1 ltac:(lra)). rewrite segment_point_1 in Hmin.
  apply Rle_not_lt in Hmin. apply Hmin.
  unfold length. apply sqrt_lt_1_alt.
  unfold length_squared, dot. simpl. lra.
Qed.

(** C2 (amended): the result always has the form [a + t * (b - a)] with
    [t] in [[0,1]], and it is the head when the squared length is below
    1e-8; when the squared length is at least 1e-8, or the two ends
    coincide, the result is a nearest point of the segment and a
    projection parameter outside [[0,1]] gives the respective end. The
    copy in generate_animations.py is the same function. *)
Theorem closest_point_on_segment_correct (p a b : Vector) :
  (exists t, 0 <= t <= 1 /\ closest_point_on_segment p a b = segment_point a b t) /\
  (length_squared (b - a)%vec < epsilon -> closest_point_on_segment p a b = a) /\
  (a = b \/ epsilon <= length_squared (b - a)%vec ->
   closest_point_spec p a b (closest_point_on_segment p a b)) /\
  GenerateAnimations.closest_point_on_segment p a b = closest_point_on_segment p a b.
Proof.
  split; [apply closest_point_on_segment_param|].
  split; [apply closest_point_short|].
  split; [|reflexivity].
  intros [->|Hlen].
  - split; [apply closest_point_same_ends|].
    assert (Hz : length_squared (b - b)%vec = 0)
      by (unfold length_squared, dot; simpl; ring).
    assert (Hs : closest_point_on_segment p b b = b)
      by (apply closest_point_short; rewrite Hz; unfold epsilon; lra).
    repeat split; intros; exact Hs.
  - split; [apply closest_point_nearest; assumption|].
    rewrite closest_point_long by assumption.
    split; [|split].
    + intros Hneg. rewrite clamp_low by lra. apply segment_point_0.
    + intros Hbig. rewrite clamp_high by lra. apply segment_point_1.
    + intros Hshort. lra.
Qed.

Lemma closest_point_on_segment_correct_witness :
  closest_point_spec (mkVector 0.1 0 0.5) (mkVector 0 0 0) (mkVector 0 0 1)
    (closest_point_on_segment (mkVector 0.1 0 0.5) (mkVector 0 0 0) (mkVector 0 0 1)).
Proof.
  apply (closest_point_on_segment_correct
           (mkVector 0.1 0 0.5) (mkVector 0 0 0) (mkVector 0 0 1)).
  right. unfold epsilon, length_squared, dot. simpl. lra.
Defined.

End ClosestPoint.

(* ================================================================== *)
(** * Buildings: colour cascade, origin normalisation, part assembly   *)
(* ================================================================== *)

Section Buildings.
Import GenerateBuildings Spec.

(** C7: a position above the roof threshold that also satisfies the wall
    predicate gets the roof colour, which differs from the wall colour. *)
Theorem cottage_roof_precedes_wall (offset_x : R) (pos : Vector) :
  z pos > 1.85 -> 0.30 < z pos < 1.90 ->
  cottage_color offset_x pos = roof_color /\
  cottage_color offset_x pos <> wall_color pos.
Proof.
  intros Hroof Hwall.
  assert (Hc : cottage_color offset_x pos = roof_color).
  { unfold cottage_color.
    rewrite decide_False by lra. rewrite decide_True by lra. reflexivity. }
  split; [exact Hc|].
  rewrite Hc. unfold roof_color, wall_color. intros Heq.
  assert (Hb : (0.12 : R) = 0.20) by (injection Heq; intros; assumption).
  lra.
Qed.

Lemma cottage_roof_precedes_wall_witness :
  cottage_color 0 (mkVector 0 0 1.87) = roof_color /\
  cottage_color 0 (mkVector 0 0 1.87) <> wall_color (mkVector 0 0 1.87).
Proof. apply cottage_roof_precedes_wall; simpl; lra. Defined.

(** *** [min] and [max] of a sequence under a shift *)

Lemma min_shift (a b c : R) : Python.min (a - c) (b - c) = Python.min a b - c.
Proof. unfold Python.min. repeat case_decide; lra. Qed.

Lemma max_shift (a b c : R) : Python.max (a - c) (b - c) = Python.max a b - c.
Proof. unfold Python.max. repeat case_decide; lra. Qed.

Lemma foldl_min_shift (c : R) (rs : list R) (a : R) :
  foldl Python.min (a - c) (map (fun r => r - c) rs) = foldl Python.min a rs - c.
Proof.
  revert a. induction rs as [|r rs IH]; intros a; simpl; [reflexivity|].
  rewrite min_shift. apply IH.
Qed.

Lemma foldl_max_shift (c : R) (rs : list R) (a : R) :
  foldl Python.max (a - c) (map (fun r => r - c) rs) = foldl Python.max a rs - c.
Proof.
  revert a. induction rs as [|r rs IH]; intros a; simpl; [reflexivity|].
  rewrite max_shift. apply IH.
Qed.

Lemma min_list_shift (c : R) (rs : list R) :
  Python.min_list (map (fun r => r - c) rs) = (fun m => m - c) <$> Python.min_list rs.
Proof. destruct rs as [|r rs]; simpl; [reflexivity|]. by rewrite foldl_min_shift. Qed.

Lemma max_list_shift (c : R) (rs : list R) :
  Python.max_list (map (fun r => r - c) rs) = (fun m => m - c) <$> Python.max_list rs.
Proof. destruct rs as [|r rs]; simpl; [reflexivity|]. by rewrite foldl_max_shift. Qed.

Lemma min_list_is_Some (rs : list R) : rs <> [] -> is_Some (Python.min_list rs).
Proof. destruct rs; [congruence|]. intros _. simpl. eauto. Qed.

Lemma max_list_is_Some (rs : list R) : rs <> [] -> is_Some (Python.max_list rs).
Proof. destruct rs; [congruence|]. intros _. simpl. eauto. Qed.

(** The midpoint after every element is moved by the old midpoint. *)
Lemma midpoint_centred (rs : list R) (lo hi : R) :
  Python.min_list rs = Some lo -> Python.max_list rs = Some hi ->
  midpoint (map (fun r => r - (lo + hi) * 0.5) rs) = Some 0.
Proof.
  intros Hlo Hhi. unfold midpoint.
  rewrite min_list_shift, max_list_shift, Hlo, Hhi. simpl.
  f_equal. lra.
Qed.

(** What [set_origin_bottom] returns on a mesh with a vertex. *)
Lemma set_origin_bottom_result (obj : MeshObject) (z_offset : R) :
  vertices obj <> [] ->
  exists obj', set_origin_bottom obj z_offset = Some obj' /\
               placed obj' (- z_offset) /\ obj_location obj' = mkVector 0 0 0.
Proof.
  intros Hne. unfold set_origin_bottom.
  assert (Hmap : forall f : Vector -> R, map f (vertices obj) <> [])
    by (intros f; destruct (vertices obj); [congruence | discriminate]).
  destruct (min_list_is_Some _ (Hmap x)) as [lox Hlox].
  destruct (max_list_is_Some _ (Hmap x)) as [hix Hhix].
  destruct (min_list_is_Some _ (Hmap y)) as [loy Hloy].
  destruct (max_list_is_Some _ (Hmap y)) as [hiy Hhiy].
  destruct (min_list_is_Some _ (Hmap z)) as [loz Hloz].
  rewrite Hlox, Hhix, Hloy, Hhiy, Hloz. simpl.
  eexists. split; [reflexivity|]. split; [|reflexivity].
  unfold placed. simpl. rewrite !map_map. simpl.
  rewrite <- (map_map x (fun r => r - (lox + hix) * 0.5)).
  rewrite <- (map_map y (fun r => r - (loy + hiy) * 0.5)).
  rewrite <- (map_map z (fun r => r - (loz + z_offset))).
  split; [by apply midpoint_centred|].
  split; [by apply midpoint_centred|].
  rewrite min_list_shift, Hloz. simpl. f_equal. lra.
Qed.

(** C8, as stated, fails on the height: with a single vertex at the
    origin and [z_offset = 1] the lowest point ends at height -1. *)
Lemma set_origin_bottom_offset_is_subtracted :
  exists obj',
    set_origin_bottom (mkMeshObject [mkVector 0 0 0] (mkVector 0 0 0)) 1 = Some obj' /\
    ~ placed obj' 1.
Proof.
  eexists. split; [reflexivity|].
  intros (_ & _ & Hz). simpl in Hz. injection Hz. lra.
Qed.

(** C8 (amended): on a mesh with at least one vertex [set_origin_bottom]
    returns, the X and Y midpoints of the bounding box become 0 and the
    lowest vertex sits at Z = -z_offset (so at 0 for the default
    offset). *)
Theorem set_origin_bottom_places_mesh (obj : MeshObject) (z_offset : R) :
  vertices obj <> [] ->
  exists obj', set_origin_bottom obj z_offset = Some obj' /\
               placed obj' (- z_offset).
Proof.
  intros Hne. destruct (set_origin_bottom_result obj z_offset Hne) as (o & H1 & H2 & _).
  eauto.
Qed.

Lemma set_origin_bottom_places_mesh_witness :
  exists obj',
    set_origin_bottom
      (mkMeshObject [mkVector 1 2 3; mkVector 5 0 4] (mkVector 7 7 7)) 0.5 = Some obj' /\
    placed obj' (- (0.5)).
Proof. apply set_origin_bottom_places_mesh. simpl. discriminate. Defined.

(** *** [add_part] with a primitive kind it does not know *)



(** [scene_with_cube] is the scene after the first part of the cottage
    has been added to the empty scene. *)
Lemma scene_with_cube_reached :
  add_part (mkScene [] [] None) [] "CO_Foundation" "cube"
    (mkVector 0 0 0.15) (mkVector 1.60 1.60 0.15) None
  = Some (scene_with_cube, [0%nat], 0%nat).
Proof. reflexivity. Qed.




End Buildings.

(* ================================================================== *)
(** * Rocks: normal-blend colouring                                    *)
(* ================================================================== *)

Section Moss.
Import GenerateRocks Spec.

Lemma set_color_Some (li : nat) (c : Color) (colors : list Color) :
  (li < List.length colors)%nat -> set_color li c colors = Some (<[li := c]> colors).
Proof. intros H. unfold set_color. by rewrite decide_True. Qed.

(** The inner loop writes [c] to the listed corners and nothing else. *)
Lemma color_loops_spec (c : Color) (idxs : list nat) (colors : list Color) :
  Forall (fun li => (li < List.length colors)%nat) idxs ->
  exists colors',
    color_loops c idxs colors = Some colors' /\
    List.length colors' = List.length colors /\
    (forall li, li ∈ idxs -> colors' !! li = Some c) /\
    (forall li, li ∉ idxs -> colors' !! li = colors !! li).
Proof.
  revert colors. induction idxs as [|i idxs IH]; intros colors Hrange; simpl.
  - exists colors. split; [done|]. split; [done|]. split; [|done].
    intros li Hin. by apply elem_of_nil in Hin.
  - apply Forall_cons in Hrange as [Hi Hrest].
    rewrite set_color_Some by assumption. simpl.
    destruct (IH (<[i := c]> colors)) as (colors' & Hrun & Hlen & Hin & Hout).
    { by rewrite length_insert. }
    exists colors'. split; [exact Hrun|].
    split; [by rewrite Hlen, length_insert|]. split.
    + intros li Hli. destruct (decide (li ∈ idxs)) as [Hl|Hl]; [by apply Hin|].
      apply elem_of_cons in Hli as [->|Hli]; [|done].
      rewrite Hout by assumption. by apply list_lookup_insert_eq.
    + intros li Hli. apply not_elem_of_cons in Hli as [Hne Hli].
      rewrite Hout by assumption. by apply list_lookup_insert_ne.
Qed.

(** The outer loop: every corner of every polygon gets the colour of its
    polygon, corners of no polygon keep theirs. *)
Lemma color_polygons_spec (base_color moss_color : Color) (T : R)
    (polys : list MeshPolygon) (colors : list Color) :
  NoDup (concat (map loop_indices polys)) ->
  Forall (fun li => (li < List.length colors)%nat) (concat (map loop_indices polys)) ->
  exists colors',
    color_polygons base_color moss_color T polys colors = Some colors' /\
    List.length colors' = List.length colors /\
    (forall poly li, poly ∈ polys -> li ∈ loop_indices poly ->
       colors' !! li = Some (corner_color base_color moss_color T (z (poly_normal poly)))) /\
    (forall li, li ∉ concat (map loop_indices polys) -> colors' !! li = colors !! li).
Proof.
  revert colors. induction polys as [|p polys IH]; intros colors Hnd Hrange; simpl in *.
  - exists colors. split; [done|]. split; [done|]. split; [|done].
    intros poly li Hin. by apply elem_of_nil in Hin.
  - apply NoDup_app in Hnd as (Hnd1 & Hdisj & Hnd2).
    apply Forall_app in Hrange as [Hr1 Hr2].
    destruct (color_loops_spec
                (corner_color base_color moss_color T (z (poly_normal p)))
                (loop_indices p) colors Hr1) as (c1 & Hrun1 & Hlen1 & Hin1 & Hout1).
    rewrite Hrun1. simpl.
    destruct (IH c1 Hnd2) as (c2 & Hrun2 & Hlen2 & Hin2 & Hout2).
    { by rewrite Hlen1. }
    exists c2. split; [exact Hrun2|]. split; [congruence|]. split.
    + intros poly li Hpoly Hli. apply elem_of_cons in Hpoly as [->|Hpoly].
      * rewrite Hout2 by (by apply Hdisj). by apply Hin1.
      * by apply Hin2.
    + intros li Hli. apply not_elem_of_app in Hli as [Hl1 Hl2].
      rewrite Hout2 by assumption. by apply Hout1.
Qed.

(** The colour of a corner after [set_vertex_colors_with_moss]. *)
Lemma set_vertex_colors_with_moss_corners (fill : Color) (mesh : Mesh)
    (base_color moss_color : Color) (T : R) :
  corners_wf mesh ->
  exists mesh',
    set_vertex_colors_with_moss fill mesh base_color moss_color T = Some mesh' /\
    polygons mesh' = polygons mesh /\
    forall poly li, poly ∈ polygons mesh -> li ∈ loop_indices poly ->
      corner mesh' li = Some (corner_color base_color moss_color T (z (poly_normal poly))).
Proof.
  intros (Hnd & Hrange & Hlayers). unfold set_vertex_colors_with_moss.
  destruct (color_attributes mesh) as [|layer others] eqn:Hattrs.
  - simpl. rewrite Hattrs. simpl.
    destruct (color_polygons_spec base_color moss_color T (polygons mesh)
                (replicate (List.length (loops mesh)) fill) Hnd)
      as (colors' & Hrun & _ & Hin & _).
    { by rewrite length_replicate. }
    rewrite Hrun. simpl. eexists. split; [reflexivity|]. split; [reflexivity|].
    intros poly li Hp Hl. unfold corner. simpl. by apply Hin.
  - rewrite Hattrs. apply Forall_cons in Hlayers as [Hlen _].
    destruct (color_polygons_spec base_color moss_color T (polygons mesh)
                (data layer) Hnd) as (colors' & Hrun & _ & Hin & _).
    { by rewrite Hlen. }
    rewrite Hrun. simpl. eexists. split; [reflexivity|]. split; [reflexivity|].
    intros poly li Hp Hl. unfold corner. simpl. by apply Hin.
Qed.

(** The blend factor is in (0,1] for a unit normal above the threshold. *)
Lemma blend_factor_range (n : Vector) (T : R) :
  length n = 1 -> z n > T -> 0 < blend_factor (z n) T <= 1.
Proof.
  intros Hunit Hz.
  assert (Hsq : length_squared n = 1).
  { unfold length in Hunit. rewrite <- (sqrt_sqrt (length_squared n)).
    - rewrite Hunit. lra.
    - unfold length_squared, dot. nra. }
  assert (Hz1 : z n <= 1).
  { unfold length_squared, dot in Hsq. nra. }
  unfold blend_factor, Rdiv.
  assert (Hinv : 0 < / (1 - T)) by (apply Rinv_0_lt_compat; lra).
  assert (Hone : (1 - T) * / (1 - T) = 1) by (field; lra).
  split; nra.
Qed.

Lemma corner_color_channels (base_color moss_color : Color) (T nz : R) :
  nz > T ->
  let c := corner_color base_color moss_color T nz in
  let l := lerp_color base_color moss_color (blend_factor nz T) in
  red c = red l /\ green c = green l /\ blue c = blue l /\ alpha c = 1.
Proof.
  intros Hz. unfold corner_color. rewrite decide_True by assumption.
  unfold lerp_color, blend_factor. simpl.
  replace (1.0 - T) with (1 - T) by lra. repeat split; lra.
Qed.

Lemma one_triangle_wf : corners_wf one_triangle.
Proof.
  unfold corners_wf, one_triangle. simpl. split; [|split].
  - by apply (bool_decide_unpack _).
  - repeat (apply Forall_cons; split; [simpl; lia|]). apply Forall_nil_2.
  - apply Forall_nil_2.
Qed.

(** C5, as stated, fails on the alpha channel: with two half-transparent
    colours the blended corner is opaque. *)
Lemma moss_blend_is_opaque :
  exists mesh' c,
    set_vertex_colors_with_moss (RGBA 0 0 0 0) one_triangle
      (RGBA 0.48 0.44 0.38 0.5) (RGBA 0.30 0.40 0.22 0.5) 0.5 = Some mesh' /\
    corner mesh' 0 = Some c /\
    ~ moss_spec (RGBA 0.48 0.44 0.38 0.5) (RGBA 0.30 0.40 0.22 0.5) 0.5
                (mkVector 0 0 1) c.
Proof.
  destruct (set_vertex_colors_with_moss_corners (RGBA 0 0 0 0) one_triangle
              (RGBA 0.48 0.44 0.38 0.5) (RGBA 0.30 0.40 0.22 0.5) 0.5 one_triangle_wf)
    as (mesh' & Hrun & _ & Hcorner).
  exists mesh'. eexists. split; [exact Hrun|]. split.
  - apply (Hcorner (mkMeshPolygon (mkVector 0 0 1) [0; 1; 2]%nat) 0%nat);
      simpl; set_solver.
  - unfold moss_spec. simpl. rewrite decide_True by lra. intros Heq.
    pose proof (corner_color_channels (RGBA 0.48 0.44 0.38 0.5)
                  (RGBA 0.30 0.40 0.22 0.5) 0.5 1 ltac:(lra)) as (_ & _ & _ & Ha).
    rewrite Heq in Ha. unfold lerp_color, blend_factor in Ha. simpl in Ha. lra.
Qed.

(** C5 (amended): on a mesh with well-formed corners the call returns,
    and every corner of every polygon holds: above the threshold, the
    linear blend of base and moss colour in its red, green and blue
    channels with factor (n.z - T)/(1 - T) and alpha 1.0, the factor
    lying in [0,1] for a unit normal; otherwise the base colour. For
    opaque base and moss colours this is the blend of the two colours. *)
Theorem moss_colouring (fill : Color) (mesh : Mesh) (base_color moss_color : Color)
    (T : R) :
  corners_wf mesh ->
  exists mesh',
    set_vertex_colors_with_moss fill mesh base_color moss_color T = Some mesh' /\
    forall poly li, poly ∈ polygons mesh -> li ∈ loop_indices poly ->
      exists c,
        corner mesh' li = Some c /\
        moss_spec_rgb base_color moss_color T (poly_normal poly) c /\
        (z (poly_normal poly) > T -> length (poly_normal poly) = 1 ->
         0 <= blend_factor (z (poly_normal poly)) T <= 1) /\
        (alpha base_color = 1 -> alpha moss_color = 1 ->
         moss_spec base_color moss_color T (poly_normal poly) c).
Proof.
  intros Hwf.
  destruct (set_vertex_colors_with_moss_corners fill mesh base_color moss_color T Hwf)
    as (mesh' & Hrun & _ & Hcorner).
  exists mesh'. split; [exact Hrun|].
  intros poly li Hp Hl. eexists. split; [by apply Hcorner|].
  split; [|split].
  - unfold moss_spec_rgb. case_decide as Hz.
    + by apply corner_color_channels.
    + unfold corner_color. by rewrite decide_False.
  - intros Hz Hunit. pose proof (blend_factor_range _ _ Hunit Hz). lra.
  - intros Hb Hm. unfold moss_spec. case_decide as Hz.
    + pose proof (corner_color_channels base_color moss_color T _ Hz) as (Hr & Hg & Hbl & Ha).
      cbv zeta in *.
      destruct (corner_color base_color moss_color T (z (poly_normal poly))) as [r g b a].
      simpl in *. subst. unfold lerp_color. f_equal. rewrite Hb, Hm. ring.
    + unfold corner_color. by rewrite decide_False.
Qed.

Lemma moss_colouring_witness :
  exists mesh',
    set_vertex_colors_with_moss (RGBA 0 0 0 0) one_triangle
      (RGBA 0.48 0.44 0.38 1.0) (RGBA 0.30 0.40 0.22 1.0) 0.5 = Some mesh' /\
    exists c, corner mesh' 0 = Some c /\
      moss_spec (RGBA 0.48 0.44 0.38 1.0) (RGBA 0.30 0.40 0.22 1.0) 0.5
                (mkVector 0 0 1) c.
Proof.
  destruct (moss_colouring (RGBA 0 0 0 0) one_triangle
              (RGBA 0.48 0.44 0.38 1.0) (RGBA 0.30 0.40 0.22 1.0) 0.5 one_triangle_wf)
    as (mesh' & Hrun & Hall).
  exists mesh'. split; [exact Hrun|].
  destruct (Hall (mkMeshPolygon (mkVector 0 0 1) [0; 1; 2]%nat) 0%nat) as (c & Hc & _ & _ & Hs).
  - simpl. set_solver.
  - simpl. set_solver.
  - exists c. split; [exact Hc|]. apply Hs; simpl; lra.
Defined.

End Moss.

(* ================================================================== *)
(** * Rocks and trees: seeded displacement                             *)
(* ================================================================== *)

Section Displacement.
Import GenerateRocks Spec.
Variable G : Random.Generator.








End Displacement.


(* ================================================================== *)
(** * Animation clips                                                  *)
(* ================================================================== *)

Section Animation.
Import GenerateAnimations Spec.

(** *** Tables of keys *)

Lemma table_lookup_outside (T : gmap (string * Z) Triple) (bone : string) (f : Z) :
  bone ∉ table_bones T -> T !! (bone, f) = None.
Proof.
  intros Hout. destruct (T !! (bone, f)) as [v|] eqn:Hv; [|reflexivity].
  exfalso. apply Hout. unfold table_bones. apply elem_of_remove_dups.
  apply list_elem_of_fmap. exists ((bone, f), v). split; [reflexivity|].
  by apply elem_of_map_to_list.
Qed.

(** A property of bones holds of all bones when it holds of those in a
    finite list and of all others. *)
Lemma all_bones (P : string -> Prop) (bones : list string) :
  Forall P bones -> (forall bone, bone ∉ bones -> P bone) -> forall bone, P bone.
Proof.
  intros Hin Hout bone. destruct (decide (bone ∈ bones)) as [Hb|Hb].
  - by apply (proj1 (Forall_forall P bones) Hin).
  - by apply Hout.
Qed.

(** *** The state of a clip under construction *)

Lemma building_start (r : Rig) (n : string) :
  building (fun bone => bool_decide (is_Some (pose_bones r !! bone))) (nla_tracks r)
    n (List.length (actions r)) ∅ ∅
    (reset_pose (mkRig (pose_bones r) (actions r ++ [mkAction n ∅ ∅])
                       (Some (List.length (actions r))) (nla_tracks r))).
Proof.
  split; [reflexivity|]. split; [reflexivity|]. split.
  - intros bone. simpl. rewrite lookup_fmap, fmap_is_Some.
    symmetry. apply bool_decide_eq_true.
  - exists (mkAction n ∅ ∅). simpl. split.
    + rewrite lookup_app_r by lia. by rewrite Nat.sub_diag.
    + split; [reflexivity|]. split; intros bone f; rewrite lookup_empty;
        by destruct (bool_decide _).
Qed.

Lemma building_rotation (present : string -> bool) tracks n id Trot Tloc r
    (bone : string) (rx ry rz : Q) (f : Z) :
  building present tracks n id Trot Tloc r ->
  building present tracks n id (<[(bone, f) := (rx, ry, rz)]> Trot) Tloc
    (set_bone_rotation bone rx ry rz f r).
Proof.
  intros (Hact & Htr & Hpres & act & Hlook & Hname & Hrot & Hloc).
  unfold set_bone_rotation. destruct (pose_bones r !! bone) as [pb|] eqn:Hpb.
  - assert (Hp : present bone = true) by (apply Hpres; eauto).
    unfold keyframe_insert_rotation. simpl. rewrite lookup_insert_eq.
    unfold current_action. simpl. rewrite Hact. unfold building. simpl.
    split; [reflexivity|]. split; [exact Htr|]. split.
    + intros b. rewrite <- Hpres. rewrite lookup_insert.
      case_decide as Hb; [subst b; rewrite Hpb; split; eauto | reflexivity].
    + eexists. split; [rewrite list_lookup_alter_eq, Hlook; reflexivity|].
      simpl. split; [exact Hname|]. split; [|exact Hloc].
      intros b f'. destruct (decide ((bone, f) = (b, f'))) as [Heq|Hne].
      * injection Heq as <- <-. rewrite !lookup_insert_eq. by rewrite Hp.
      * rewrite !lookup_insert_ne by assumption. apply Hrot.
  - assert (Hp : present bone = false).
    { destruct (present bone) eqn:Hp; [|reflexivity].
      apply Hpres in Hp as [? Hp]. congruence. }
    split; [exact Hact|]. split; [exact Htr|]. split; [exact Hpres|].
    exists act. split; [exact Hlook|]. split; [exact Hname|]. split; [|exact Hloc].
    intros b f'. rewrite Hrot. destruct (present b) eqn:Hb; [|reflexivity].
    rewrite lookup_insert_ne; [reflexivity|]. intros Heq. congruence.
Qed.

Lemma building_location (present : string -> bool) tracks n id Trot Tloc r
    (bone : string) (lx ly lz : Q) (f : Z) :
  building present tracks n id Trot Tloc r ->
  building present tracks n id Trot (<[(bone, f) := (lx, ly, lz)]> Tloc)
    (set_bone_location bone lx ly lz f r).
Proof.
  intros (Hact & Htr & Hpres & act & Hlook & Hname & Hrot & Hloc).
  unfold set_bone_location. destruct (pose_bones r !! bone) as [pb|] eqn:Hpb.
  - assert (Hp : present bone = true) by (apply Hpres; eauto).
    unfold keyframe_insert_location. simpl. rewrite lookup_insert_eq.
    unfold current_action. simpl. rewrite Hact. unfold building. simpl.
    split; [reflexivity|]. split; [exact Htr|]. split.
    + intros b. rewrite <- Hpres. rewrite lookup_insert.
      case_decide as Hb; [subst b; rewrite Hpb; split; eauto | reflexivity].
    + eexists. split; [rewrite list_lookup_alter_eq, Hlook; reflexivity|].
      simpl. split; [exact Hname|]. split; [exact Hrot|].
      intros b f'. destruct (decide ((bone, f) = (b, f'))) as [Heq|Hne].
      * injection Heq as <- <-. rewrite !lookup_insert_eq. by rewrite Hp.
      * rewrite !lookup_insert_ne by assumption. apply Hloc.
  - assert (Hp : present bone = false).
    { destruct (present bone) eqn:Hp; [|reflexivity].
      apply Hpres in Hp as [? Hp]. congruence. }
    split; [exact Hact|]. split; [exact Htr|]. split; [exact Hpres|].
    exists act. split; [exact Hlook|]. split; [exact Hname|]. split; [exact Hrot|].
    intros b f'. rewrite Hloc. destruct (present b) eqn:Hb; [|reflexivity].
    rewrite lookup_insert_ne; [reflexivity|]. intros Heq. congruence.
Qed.

(** Pushing the finished action makes it the last clip. *)
Lemma building_pushed (r0 : Rig) tracks n id Trot Tloc r (clip : Action) :
  building (fun bone => bool_decide (is_Some (pose_bones r0 !! bone)))
           tracks n id Trot Tloc r ->
  action_name clip = n -> rotation_keys clip = Trot -> location_keys clip = Tloc ->
  exists act, pushed (push_to_nla r id n) = Some (n, act) /\ keys_restricted r0 act clip.
Proof.
  intros (Hact & Htr & Hpres & act & Hlook & Hname & Hrot & Hloc) Hn HT HL.
  exists act. split.
  - unfold pushed, push_to_nla. simpl. rewrite last_snoc. simpl.
    rewrite Hlook. reflexivity.
  - split; [congruence|]. intros bone f. rewrite Hrot, Hloc, HT, HL. done.
Qed.

Ltac run_builder :=
  cbn [create_action for_each block foldl];
  repeat first [apply building_rotation | apply building_location];
  apply building_start.

Lemma create_idle_keys (r : Rig) :
  exists act, pushed (create_idle r) = Some ("Idle"%string, act) /\
              keys_restricted r act idle_clip.
Proof.
  unfold create_idle. cbn [create_action].
  eapply building_pushed;
    [run_builder | reflexivity | apply (bool_decide_unpack _); vm_compute; exact I ..].
Qed.

Lemma create_walk_keys (r : Rig) :
  exists act, pushed (create_walk r) = Some ("Walk"%string, act) /\
              keys_restricted r act walk_clip.
Proof.
  unfold create_walk. cbn [create_action].
  eapply building_pushed;
    [run_builder | reflexivity | apply (bool_decide_unpack _); vm_compute; exact I ..].
Qed.

Lemma create_run_keys (r : Rig) :
  exists act, pushed (create_run r) = Some ("Run"%string, act) /\
              keys_restricted r act run_clip.
Proof.
  unfold create_run. cbn [create_action].
  eapply building_pushed;
    [run_builder | reflexivity | apply (bool_decide_unpack _); vm_compute; exact I ..].
Qed.

(** *** Closure and mirror symmetry of tables *)

Lemma table_closed_check (T : gmap (string * Z) Triple) (a b : Z) :
  Forall (fun bone => is_Some (T !! (bone, a)) /\ T !! (bone, a) = T !! (bone, b))
         (table_bones T) ->
  table_closed T a b.
Proof.
  intros Hall bone. pattern bone. revert bone.
  apply all_bones with (bones := table_bones T).
  - eapply Forall_impl; [exact Hall|]. intros bone [Hs He]. split; [exact He|]. done.
  - intros bone Hout. rewrite !table_lookup_outside by assumption.
    split; [reflexivity|]. intros f [v Hv].
    rewrite table_lookup_outside in Hv by assumption. discriminate.
Qed.

Lemma table_closed_restrict (present : string -> bool)
    (T T' : gmap (string * Z) Triple) (a b : Z) :
  (forall bone f, T' !! (bone, f) = if present bone then T !! (bone, f) else None) ->
  table_closed T a b -> table_closed T' a b.
Proof.
  intros Hr Hc bone. destruct (Hc bone) as [He Hs]. rewrite !Hr.
  split.
  - destruct (present bone); [exact He | reflexivity].
  - intros f. rewrite Hr. destruct (present bone); [apply Hs|].
    intros [v Hv]. discriminate.
Qed.

Lemma loop_closed_restrict (r : Rig) (act clip : Action) (a b : Z) :
  keys_restricted r act clip -> loop_closed clip a b -> loop_closed act a b.
Proof.
  intros [_ Hk] [Hrot Hloc]. split.
  - eapply table_closed_restrict; [|exact Hrot]. intros bone f. apply Hk.
  - eapply table_closed_restrict; [|exact Hloc]. intros bone f. apply Hk.
Qed.

Ltac check_table := apply (bool_decide_unpack _); vm_compute; exact I.

Lemma idle_clip_closed : loop_closed idle_clip 1 60.
Proof. split; apply table_closed_check; check_table. Qed.

Lemma walk_clip_closed : loop_closed walk_clip 1 30.
Proof. split; apply table_closed_check; check_table. Qed.

Lemma run_clip_closed : loop_closed run_clip 1 20.
Proof. split; apply table_closed_check; check_table. Qed.

Lemma mirror_name_cons (c : Ascii.ascii) (s : string) :
  mirror_name (String c s) =
  if String.eqb (String c s) "_L" then "_R"%string
  else if String.eqb (String c s) "_R" then "_L"%string
  else String c (mirror_name s).
Proof. reflexivity. Qed.

Lemma mirror_name_involutive (s : string) : mirror_name (mirror_name s) = s.
Proof.
  induction s as [|c s IH]; [reflexivity|].
  rewrite mirror_name_cons.
  destruct (String.eqb_spec (String c s) "_L") as [HL|HL].
  { injection HL as -> ->. reflexivity. }
  destruct (String.eqb_spec (String c s) "_R") as [HR|HR].
  { injection HR as -> ->. reflexivity. }
  rewrite mirror_name_cons.
  destruct (String.eqb_spec (String c (mirror_name s)) "_L") as [HL'|HL'].
  { exfalso. apply HL. injection HL' as -> Hs. f_equal.
    rewrite <- IH, Hs. reflexivity. }
  destruct (String.eqb_spec (String c (mirror_name s)) "_R") as [HR'|HR'].
  { exfalso. apply HR. injection HR' as -> Hs. f_equal.
    rewrite <- IH, Hs. reflexivity. }
  by rewrite IH.
Qed.

(** A table in which the keys at frame [r] mirror those at frame [l],
    the values transformed by [g]. *)
Lemma table_mirrored_check (g : string -> Triple -> Triple)
    (T : gmap (string * Z) Triple) (l r : Z) :
  Forall (fun bone => mirror_name bone ∈ table_bones T /\
                      T !! (bone, r) = g bone <$> T !! (mirror_name bone, l))
         (table_bones T) ->
  forall bone, T !! (bone, r) = g bone <$> T !! (mirror_name bone, l).
Proof.
  intros Hall bone. pattern bone. revert bone.
  apply all_bones with (bones := table_bones T).
  - eapply Forall_impl; [exact Hall|]. by intros bone [_ He].
  - intros bone Hout.
    assert (Hm : mirror_name bone ∉ table_bones T).
    { intros Hin. apply Hout.
      pose proof (proj1 (Forall_forall _ _) Hall _ Hin) as [Hback _].
      by rewrite mirror_name_involutive in Hback. }
    by rewrite !table_lookup_outside by assumption.
Qed.

Lemma mirrored_check (clip : Action) (l r : Z) :
  Forall (fun bone => mirror_name bone ∈ table_bones (rotation_keys clip) /\
            rotation_keys clip !! (bone, r)
            = mirror_rotation bone <$> rotation_keys clip !! (mirror_name bone, l))
         (table_bones (rotation_keys clip)) ->
  Forall (fun bone => mirror_name bone ∈ table_bones (location_keys clip) /\
            location_keys clip !! (bone, r)
            = (fun _ v => v) bone <$> location_keys clip !! (mirror_name bone, l))
         (table_bones (location_keys clip)) ->
  mirrored clip l r.
Proof.
  intros Hrot Hloc bone. split.
  - by apply table_mirrored_check.
  - rewrite (table_mirrored_check (fun _ v => v) _ l r Hloc bone).
    by destruct (location_keys clip !! (mirror_name bone, l)).
Qed.

Lemma mirrored_restrict (r : Rig) (act clip : Action) (a b : Z) :
  symmetric r -> keys_restricted r act clip -> mirrored clip a b -> mirrored act a b.
Proof.
  intros Hsym [_ Hk] Hm bone. destruct (Hm bone) as [Hrot Hloc].
  destruct (Hk bone b) as [-> ->]. destruct (Hk (mirror_name bone) a) as [-> ->].
  assert (Hp : bool_decide (is_Some (pose_bones r !! mirror_name bone))
               = bool_decide (is_Some (pose_bones r !! bone))).
  { apply bool_decide_ext. symmetry. apply Hsym. }
  rewrite Hp. clear Hp.
  destruct (bool_decide (is_Some (pose_bones r !! bone)));
    [split; assumption | split; reflexivity].
Qed.

Lemma walk_clip_mirrored : mirrored walk_clip 1 15 /\ mirrored walk_clip 8 23.
Proof. split; apply mirrored_check; check_table. Qed.

Lemma run_clip_mirrored : mirrored run_clip 1 10 /\ mirrored run_clip 5 15.
Proof. split; apply mirrored_check; check_table. Qed.

Lemma humanoid_rig_bones (bone : string) :
  is_Some (pose_bones humanoid_rig !! bone) <-> bone ∈ humanoid_bone_names.
Proof.
  unfold humanoid_rig. cbn [pose_bones].
  rewrite <- not_eq_None_Some, <- not_elem_of_list_to_map.
  replace (((fun n => (n, mkPoseBone "QUATERNION" (0, 0, 0)%Q (0, 0, 0)%Q))
              <$> humanoid_bone_names).*1)
    with humanoid_bone_names by reflexivity.
  destruct (decide (bone ∈ humanoid_bone_names)); tauto.
Qed.

Lemma humanoid_rig_symmetric : symmetric humanoid_rig.
Proof.
  intros bone. rewrite !humanoid_rig_bones.
  pattern bone. revert bone.
  apply all_bones with (bones := humanoid_bone_names).
  - apply (bool_decide_unpack _). vm_compute. exact I.
  - intros bone Hout. split; [done|]. intros Hin. exfalso. apply Hout.
    assert (Hclosed : Forall (fun b => mirror_name b ∈ humanoid_bone_names)
                             humanoid_bone_names)
      by (apply (bool_decide_unpack _); vm_compute; exact I).
    pose proof (proj1 (Forall_forall _ _) Hclosed _ Hin) as Hback.
    cbv beta in Hback. by rewrite mirror_name_involutive in Hback.
Qed.

(** C3: in each looping clip, on both channels, every bone has the same
    key at the first and at the last frame (1 and 60 for Idle, 1 and 30
    for Walk, 1 and 20 for Run) and every bone keyed in the clip is
    keyed there; on a rig with the bone UpperLeg_L the Walk rotation of
    that bone is -25 degrees about the first axis at frames 1 and 30. *)
Theorem looping_clips_closed (r : Rig) :
  (exists act, pushed (create_idle r) = Some ("Idle"%string, act) /\
               loop_closed act 1 60) /\
  (exists act, pushed (create_walk r) = Some ("Walk"%string, act) /\
               loop_closed act 1 30 /\
               (is_Some (pose_bones r !! "UpperLeg_L"%string) ->
                rotation_keys act !! ("UpperLeg_L"%string, 1%Z)
                = Some (-25, 0, 0)%Q /\
                rotation_keys act !! ("UpperLeg_L"%string, 30%Z)
                = Some (-25, 0, 0)%Q)) /\
  (exists act, pushed (create_run r) = Some ("Run"%string, act) /\
               loop_closed act 1 20).
Proof.
  split; [|split].
  - destruct (create_idle_keys r) as (act & Hp & Hk). exists act.
    split; [exact Hp|]. eapply loop_closed_restrict; [exact Hk | apply idle_clip_closed].
  - destruct (create_walk_keys r) as (act & Hp & Hk). exists act.
    split; [exact Hp|].
    split; [eapply loop_closed_restrict; [exact Hk | apply walk_clip_closed]|].
    intros Hbone. destruct Hk as [_ Hk].
    destruct (Hk "UpperLeg_L"%string 1%Z) as [H1 _].
    destruct (Hk "UpperLeg_L"%string 30%Z) as [H30 _].
    rewrite bool_decide_eq_true_2 in H1, H30 by assumption.
    split; (etransitivity; [eassumption|]); vm_compute; reflexivity.
  - destruct (create_run_keys r) as (act & Hp & Hk). exists act.
    split; [exact Hp|]. eapply loop_closed_restrict; [exact Hk | apply run_clip_closed].
Qed.

Lemma looping_clips_closed_witness :
  exists act, pushed (create_walk humanoid_rig) = Some ("Walk"%string, act) /\
    rotation_keys act !! ("UpperLeg_L"%string, 1%Z) = Some (-25, 0, 0)%Q /\
    rotation_keys act !! ("UpperLeg_L"%string, 30%Z) = Some (-25, 0, 0)%Q.
Proof.
  destruct (looping_clips_closed humanoid_rig) as (_ & (act & Hp & _ & Hu) & _).
  exists act. split; [exact Hp|]. apply Hu.
  apply humanoid_rig_bones. apply (bool_decide_unpack _). vm_compute. exact I.
Defined.

(** C4: on a left/right symmetric rig, in Walk and in Run, the
    right-contact key pose (Walk 15, Run 10) is the mirror image of the
    left-contact key pose (frame 1) and the right-passing key pose
    (Walk 23, Run 15) is the mirror image of the left-passing one (Walk
    8, Run 5): the keys of each _L/_R pair are exchanged and the lateral
    components of Spine and Chest change sign. *)
Theorem contact_and_passing_poses_mirrored (r : Rig) :
  symmetric r ->
  (exists act, pushed (create_walk r) = Some ("Walk"%string, act) /\
               mirrored act 1 15 /\ mirrored act 8 23) /\
  (exists act, pushed (create_run r) = Some ("Run"%string, act) /\
               mirrored act 1 10 /\ mirrored act 5 15).
Proof.
  intros Hsym. split.
  - destruct (create_walk_keys r) as (act & Hp & Hk). exists act.
    split; [exact Hp|].
    split; eapply mirrored_restrict; eauto; apply walk_clip_mirrored.
  - destruct (create_run_keys r) as (act & Hp & Hk). exists act.
    split; [exact Hp|].
    split; eapply mirrored_restrict; eauto; apply run_clip_mirrored.
Qed.

Lemma contact_and_passing_poses_mirrored_witness :
  (exists act, pushed (create_walk humanoid_rig) = Some ("Walk"%string, act) /\
               mirrored act 1 15 /\ mirrored act 8 23) /\
  (exists act, pushed (create_run humanoid_rig) = Some ("Run"%string, act) /\
               mirrored act 1 10 /\ mirrored act 5 15).
Proof.
  apply (contact_and_passing_poses_mirrored humanoid_rig).
  exact humanoid_rig_symmetric.
Defined.

End Animation.

(* ================================================================== *)
(** * The skin binder                                                  *)
(* ================================================================== *)

Section SkinBinder.
Import Bpy RigAndExport Spec.

(** *** The two copies *)

Lemma bone_data_copies_agree (arm_obj : ArmatureObject) :
  GenerateAnimations.bone_data arm_obj = bone_data arm_obj.
Proof.
  unfold GenerateAnimations.bone_data, bone_data.
  induction (bones arm_obj) as [|bone rest IH]; [reflexivity|].
  simpl. rewrite IH. f_equal.
  destruct (decide (name bone = "Root"%string)) as [Heq|Hne].
  - rewrite !bool_decide_eq_true_2; [reflexivity | | assumption].
    rewrite Heq. apply list_elem_of_singleton. reflexivity.
  - rewrite !bool_decide_eq_false_2; [reflexivity | | assumption].
    intros Hin. apply list_elem_of_singleton in Hin. contradiction.
Qed.

Lemma assign_weights_by_bones_copies_agree (mesh_obj : MeshObject)
    (arm_obj : ArmatureObject) :
  GenerateAnimations.assign_weights_by_bones mesh_obj arm_obj
  = assign_weights_by_bones mesh_obj arm_obj.
Proof.
  unfold GenerateAnimations.assign_weights_by_bones, assign_weights_by_bones.
  rewrite bone_data_copies_agree. reflexivity.
Qed.

(** *** The inner loop *)

Lemma nearest_bone_snoc (co : Vector) (bd : list candidate) (c : candidate) :
  nearest_bone co (bd ++ [c]) = nearest_step co (nearest_bone co bd) c.
Proof. unfold nearest_bone. by rewrite foldl_app. Qed.

Lemma nearest_bone_spec (co : Vector) (bd : list candidate) :
  bd <> [] ->
  exists k cand,
    first_nearest co bd k cand /\
    nearest_bone co bd = (Some (cand_name cand), Python.Finite (dist co cand)).
Proof.
  induction bd as [|c l IH] using rev_ind; [congruence|]. intros _.
  rewrite nearest_bone_snoc. destruct (decide (l = [])) as [->|Hne].
  - exists 0%nat, c. split.
    + split; [reflexivity|]. split.
      * intros [|j] c' Hj; simpl in Hj; [|by destruct j].
        injection Hj as <-. apply Rle_refl.
      * intros j c' Hj. lia.
    + reflexivity.
  - destruct (IH Hne) as (k & cand & (Hk & Hmin & Hfirst) & Hrun).
    rewrite Hrun. unfold nearest_step, Python.lt_float.
    assert (Hklt : (k < List.length l)%nat) by (eapply lookup_lt_Some; eassumption).
    assert (Hlast : forall j c', (l ++ [c]) !! j = Some c' ->
                      ~ (j < List.length l)%nat -> c' = c).
    { intros j c' Hj Hj'. rewrite lookup_app_r in Hj by lia.
      destruct (j - List.length l)%nat as [|n]; simpl in Hj; [|by destruct n].
      by injection Hj as <-. }
    case_bool_decide as Hlt.
    + exists (List.length l), c. split; [|reflexivity]. split; [|split].
      * rewrite lookup_app_r by lia. by rewrite Nat.sub_diag.
      * intros j c' Hj. destruct (decide (j < List.length l)%nat) as [Hj'|Hj'].
        -- rewrite lookup_app_l in Hj by assumption.
           apply Rlt_le, (Rlt_le_trans _ (dist co cand)); [exact Hlt|].
           by eapply Hmin.
        -- rewrite (Hlast j c' Hj Hj'). apply Rle_refl.
      * intros j c' Hj' Hj. rewrite lookup_app_l in Hj by assumption.
        apply (Rlt_le_trans _ (dist co cand)); [exact Hlt|]. by eapply Hmin.
    + exists k, cand. split; [|reflexivity]. split; [|split].
      * by rewrite lookup_app_l.
      * intros j c' Hj. destruct (decide (j < List.length l)%nat) as [Hj'|Hj'].
        -- rewrite lookup_app_l in Hj by assumption. by eapply Hmin.
        -- rewrite (Hlast j c' Hj Hj'). by apply Rnot_lt_le.
      * intros j c' Hj' Hj. rewrite lookup_app_l in Hj by lia. by eapply Hfirst.
Qed.

Lemma nearest_bone_nil (co : Vector) : nearest_bone co [] = (None, Python.inf).
Proof. reflexivity. Qed.

(** *** Vertex groups *)

Lemma created_groups (bd : list candidate) (groups : list VertexGroup) :
  foldl (fun gs cand => vertex_groups_new (fst (fst cand)) gs) groups bd
  = groups ++ ((fun c => mkVertexGroup (cand_name c) ∅) <$> bd).
Proof.
  revert groups. induction bd as [|c bd IH]; intros groups; simpl.
  - by rewrite app_nil_r.
  - rewrite IH. unfold vertex_groups_new. by rewrite <- app_assoc.
Qed.

(** When group number [k] is the first one called [n], the weight goes
    to it. *)
Lemma vertex_groups_add_first (n : string) (i : nat) (w : R)
    (groups : list VertexGroup) (k : nat) :
  (vg_name <$> groups) !! k = Some n ->
  (forall j, (j < k)%nat -> (vg_name <$> groups) !! j <> Some n) ->
  vertex_groups_add n i w groups = Some (alter (vg_add i w) k groups).
Proof.
  revert k. induction groups as [|g groups IH]; intros k Hk Hfirst; [done|].
  simpl. destruct k as [|k].
  - simpl in Hk. injection Hk as Hk. by rewrite decide_True.
  - rewrite decide_False.
    + rewrite (IH k); [reflexivity | exact Hk |].
      intros j Hj. apply (Hfirst (S j)). lia.
    + intros Heq. apply (Hfirst 0%nat); [lia|]. simpl. by rewrite Heq.
Qed.

Lemma vertex_groups_add_total (n : string) (i : nat) (w : R)
    (groups : list VertexGroup) :
  n ∈ vg_name <$> groups ->
  exists groups', vertex_groups_add n i w groups = Some groups' /\
                  vg_name <$> groups' = vg_name <$> groups.
Proof.
  induction groups as [|g groups IH]; intros Hin; [by apply elem_of_nil in Hin|].
  simpl. case_decide as Hg.
  - eexists. split; [reflexivity|]. reflexivity.
  - apply elem_of_cons in Hin as [Hin|Hin]; [congruence|].
    destruct (IH Hin) as (groups' & -> & Hnames). simpl.
    eexists. split; [reflexivity|]. rewrite !fmap_cons. by rewrite Hnames.
Qed.

Lemma nearest_bone_name (co : Vector) (bd : list candidate) (n : string) :
  fst (nearest_bone co bd) = Some n -> n ∈ cand_name <$> bd.
Proof.
  destruct bd as [|c bd]; [discriminate|].
  destruct (nearest_bone_spec co (c :: bd)) as (k & cand & (Hk & _) & ->);
    [discriminate|].
  cbn [fst]. intros [= <-]. apply list_elem_of_fmap. exists cand. split; [reflexivity|].
  by eapply list_elem_of_lookup_2.
Qed.

(** The loop over the vertices returns and keeps the group names. *)
Lemma assign_loop_total (m : Matrix) (bd : list candidate) (vs : list Vector)
    (index : nat) (groups : list VertexGroup) :
  vg_name <$> groups = cand_name <$> bd ->
  exists groups', assign_loop m bd vs index groups = Some groups' /\
                  vg_name <$> groups' = vg_name <$> groups.
Proof.
  revert index groups. induction vs as [|v vs IH]; intros index groups Hnames; simpl.
  - eauto.
  - destruct (fst (nearest_bone (m @ v)%vec bd)) as [n|] eqn:Hbest.
    + destruct (Python.truthy n).
      * apply nearest_bone_name in Hbest. rewrite <- Hnames in Hbest.
        destruct (vertex_groups_add_total n index 1.0 groups Hbest)
          as (groups1 & -> & Hn1). simpl.
        destruct (IH (S index) groups1) as (groups' & Hrun & Hn'); [congruence|].
        exists groups'. split; [exact Hrun | congruence].
      * simpl. by apply IH.
    + simpl. by apply IH.
Qed.

Lemma first_nearest_unique (co : Vector) (bd : list candidate) (k k' : nat)
    (c c' : candidate) :
  first_nearest co bd k c -> first_nearest co bd k' c' -> k = k'.
Proof.
  intros (Hk & Hmin & Hfirst) (Hk' & Hmin' & Hfirst').
  destruct (lt_eq_lt_dec k k') as [[Hlt|Heq]|Hlt]; [|exact Heq|].
  - pose proof (Hfirst' k c Hlt Hk). pose proof (Hmin k' c' Hk'). lra.
  - pose proof (Hfirst k' c' Hlt Hk'). pose proof (Hmin' k c Hk). lra.
Qed.

Lemma weight_at_add_same (groups : list VertexGroup) (k i : nat) (w : R) :
  is_Some (groups !! k) -> weight_at (alter (vg_add i w) k groups) k i = Some w.
Proof.
  intros [g Hg]. unfold weight_at. rewrite list_lookup_alter_eq, Hg. simpl.
  apply lookup_insert_eq.
Qed.

Lemma weight_at_add_other (groups : list VertexGroup) (k i p i' : nat) (w : R) :
  p <> k \/ i' <> i ->
  weight_at (alter (vg_add i w) k groups) p i' = weight_at groups p i'.
Proof.
  intros Hne. unfold weight_at. destruct (decide (p = k)) as [->|Hp].
  - rewrite list_lookup_alter_eq. destruct (groups !! k) as [g|]; [|reflexivity].
    simpl. apply lookup_insert_ne. destruct Hne; congruence.
  - by rewrite list_lookup_alter_ne.
Qed.

Lemma alter_vg_add_names (groups : list VertexGroup) (k i : nat) (w : R) :
  vg_name <$> alter (vg_add i w) k groups = vg_name <$> groups.
Proof.
  revert k. induction groups as [|g groups IH]; intros [|k]; simpl; try reflexivity.
  f_equal. apply IH.
Qed.

(** The loop over the vertices: vertex number [index + j] ends with
    weight 1.0 in the group of its first nearest candidate and keeps
    what it had in the other groups; vertices outside the range of the
    loop are not touched. *)
Lemma assign_loop_weights (m : Matrix) (bd : list candidate) (vs : list Vector)
    (index : nat) (groups groups' : list VertexGroup) :
  NoDup (cand_name <$> bd) -> Forall (fun c => cand_name c <> ""%string) bd ->
  vg_name <$> groups = cand_name <$> bd ->
  assign_loop m bd vs index groups = Some groups' ->
  (forall p i, (i < index \/ index + List.length vs <= i)%nat ->
     weight_at groups' p i = weight_at groups p i) /\
  (forall j v k cand, vs !! j = Some v -> first_nearest (m @ v)%vec bd k cand ->
     weight_at groups' k (index + j) = Some 1 /\
     forall p, p <> k -> weight_at groups' p (index + j) = weight_at groups p (index + j)).
Proof.
  intros Hnd Hnames_ne. revert index groups.
  induction vs as [|v vs IH]; intros index groups Hnames Hrun.
  - simpl in Hrun. injection Hrun as <-. split; [reflexivity|].
    intros j v k cand Hj. by rewrite lookup_nil in Hj.
  - simpl in Hrun. destruct (decide (bd = [])) as [->|Hbd].
    + simpl in Hrun. destruct (IH (S index) groups Hnames Hrun) as [Hout _].
      split.
      * intros p i Hi. apply Hout. simpl in Hi. lia.
      * intros j v' k cand _ (Hk & _). by rewrite lookup_nil in Hk.
    + destruct (nearest_bone_spec (m @ v)%vec bd Hbd) as (k0 & cand0 & Hnear0 & Hbest).
      rewrite Hbest in Hrun. cbn [fst] in Hrun.
      assert (Hk0 : bd !! k0 = Some cand0) by apply Hnear0.
      assert (Htruthy : Python.truthy (cand_name cand0) = true).
      { unfold Python.truthy. apply negb_true_iff. apply String.eqb_neq.
        apply (proj1 (Forall_forall _ _) Hnames_ne).
        by eapply list_elem_of_lookup_2. }
      rewrite Htruthy in Hrun.
      assert (Hname0 : (vg_name <$> groups) !! k0 = Some (cand_name cand0)).
      { rewrite Hnames, list_lookup_fmap, Hk0. reflexivity. }
      rewrite (vertex_groups_add_first _ _ _ _ k0 Hname0) in Hrun.
      2:{ intros j Hj Hjn. rewrite Hnames in Hjn, Hname0.
          pose proof (NoDup_lookup _ _ _ _ Hnd Hjn Hname0). lia. }
      simpl in Hrun.
      assert (Hsome : is_Some (groups !! k0)).
      { rewrite list_lookup_fmap in Hname0. destruct (groups !! k0); [eauto|discriminate]. }
      destruct (IH (S index) (alter (vg_add index 1.0) k0 groups)) as [Hout Hin];
        [by rewrite alter_vg_add_names | exact Hrun |].
      split.
      * intros p i Hi. rewrite Hout by (simpl in Hi; lia).
        apply weight_at_add_other. right. simpl in Hi. lia.
      * intros [|j] v' k cand Hj Hnear.
        -- simpl in Hj. injection Hj as <-.
           rewrite (first_nearest_unique _ _ _ _ _ _ Hnear Hnear0).
           rewrite Nat.add_0_r. split.
           ++ rewrite Hout by lia. replace 1 with 1.0 by lra.
              by apply weight_at_add_same.
           ++ intros p Hp. rewrite Hout by lia. apply weight_at_add_other. by left.
        -- simpl in Hj. destruct (Hin j v' k cand Hj Hnear) as [Hone Hothers].
           replace (index + S j)%nat with (S index + j)%nat by lia.
           split; [exact Hone|]. intros p Hp. rewrite Hothers by assumption.
           apply weight_at_add_other. right. lia.
Qed.

(** *** Candidates of a well-formed armature *)

Lemma bone_data_names (arm_obj : ArmatureObject) :
  cand_name <$> bone_data arm_obj
  = name <$> filter (fun bone => name bone <> "Root"%string) (bones arm_obj).
Proof.
  unfold bone_data. induction (bones arm_obj) as [|bone rest IH]; [reflexivity|].
  simpl. rewrite fmap_app, IH. rewrite filter_cons.
  destruct (decide (name bone = "Root"%string)) as [Heq|Hne].
  - rewrite bool_decide_eq_true_2
      by (rewrite Heq; apply list_elem_of_singleton; reflexivity).
    rewrite decide_False by tauto. reflexivity.
  - rewrite bool_decide_eq_false_2
      by (intros Hin; apply list_elem_of_singleton in Hin; contradiction).
    rewrite decide_True by assumption. reflexivity.
Qed.

Lemma bone_data_wf (arm_obj : ArmatureObject) :
  armature_wf arm_obj ->
  NoDup (cand_name <$> bone_data arm_obj) /\
  Forall (fun c => cand_name c <> ""%string) (bone_data arm_obj).
Proof.
  intros [Hnd Hne]. split.
  - rewrite bone_data_names. eapply sublist_NoDup; first [exact Hnd | apply fmap_sublist, sublist_filter].
  - apply Forall_forall. intros c Hc.
    assert (Hin : cand_name c ∈ name <$> bones arm_obj).
    { assert (Hc' : cand_name c ∈ cand_name <$> bone_data arm_obj)
        by (by apply list_elem_of_fmap_2).
      rewrite bone_data_names in Hc'. apply list_elem_of_fmap in Hc' as (b & -> & Hb).
      apply list_elem_of_fmap_2. by apply list_elem_of_filter in Hb as [_ Hb]. }
    apply list_elem_of_fmap in Hin as (b & -> & Hb).
    by apply (proj1 (Forall_forall _ _) Hne).
Qed.

(** *** The whole binder *)

Lemma fresh_groups_names (arm_obj : ArmatureObject) :
  vg_name <$> fresh_groups arm_obj = cand_name <$> bone_data arm_obj.
Proof. unfold fresh_groups. rewrite <- list_fmap_compose. reflexivity. Qed.

Lemma fresh_groups_empty (arm_obj : ArmatureObject) (p i : nat) :
  weight_at (fresh_groups arm_obj) p i = None.
Proof.
  unfold weight_at, fresh_groups. rewrite list_lookup_fmap.
  destruct (bone_data arm_obj !! p); reflexivity.
Qed.

Lemma assign_weights_by_bones_unfold (mesh_obj : MeshObject) (arm_obj : ArmatureObject) :
  assign_weights_by_bones mesh_obj arm_obj =
  groups ← assign_loop (matrix_world mesh_obj) (bone_data arm_obj)
             (vertices mesh_obj) 0 (fresh_groups arm_obj);
  Some (mkMeshObject (matrix_world mesh_obj) (vertices mesh_obj) groups).
Proof.
  unfold assign_weights_by_bones, vertex_groups_clear, fresh_groups.
  by rewrite (created_groups (bone_data arm_obj) []).
Qed.

(** The binder returns, whatever the mesh and the armature, and the
    groups are those of the candidates, in their order. *)
Lemma assign_weights_by_bones_total (mesh_obj : MeshObject) (arm_obj : ArmatureObject) :
  exists groups,
    assign_loop (matrix_world mesh_obj) (bone_data arm_obj)
      (vertices mesh_obj) 0 (fresh_groups arm_obj) = Some groups /\
    assign_weights_by_bones mesh_obj arm_obj
    = Some (mkMeshObject (matrix_world mesh_obj) (vertices mesh_obj) groups) /\
    vg_name <$> groups = cand_name <$> bone_data arm_obj.
Proof.
  destruct (assign_loop_total (matrix_world mesh_obj) (bone_data arm_obj)
              (vertices mesh_obj) 0 (fresh_groups arm_obj) (fresh_groups_names arm_obj))
    as (groups & Hrun & Hnames).
  exists groups. split; [exact Hrun|]. split.
  - rewrite assign_weights_by_bones_unfold, Hrun. reflexivity.
  - by rewrite Hnames, fresh_groups_names.
Qed.

(** Every vertex is bound to its first nearest candidate, by the
    distances the binder computes. *)
Lemma assign_binds_computed (mesh_obj : MeshObject) (arm_obj : ArmatureObject)
    (i : nat) :
  armature_wf arm_obj -> bone_data arm_obj <> [] ->
  (i < List.length (vertices mesh_obj))%nat ->
  binds_nearest nearer_computed mesh_obj arm_obj i.
Proof.
  intros Hwf Hbd Hi.
  destruct (bone_data_wf arm_obj Hwf) as [Hnd Hne].
  destruct (assign_weights_by_bones_total mesh_obj arm_obj)
    as (groups & Hloop & Hrun & Hnames).
  destruct (lookup_lt_is_Some_2 _ _ Hi) as [v Hv].
  destruct (nearest_bone_spec (matrix_world mesh_obj @ v)%vec (bone_data arm_obj) Hbd)
    as (k & cand & Hnear & _).
  destruct (assign_loop_weights _ _ _ _ _ _ Hnd Hne (fresh_groups_names arm_obj) Hloop)
    as [_ Hin].
  destruct (Hin i v k cand Hv Hnear) as [Hone Hothers]. simpl in Hone, Hothers.
  assert (Hg : exists g, groups !! k = Some g /\ weights g !! i = Some 1).
  { unfold weight_at in Hone. destruct (groups !! k) as [g|]; [eauto|discriminate]. }
  destruct Hg as (g & Hg & Hw).
  exists (mkMeshObject (matrix_world mesh_obj) (vertices mesh_obj) groups), v, k, cand, g.
  split; [exact Hrun|]. split; [exact Hv|]. split; [apply Hnear|].
  split; [exact Hg|]. split.
  { assert (Hn : (vg_name <$> groups) !! k = Some (vg_name g))
      by (by rewrite list_lookup_fmap, Hg).
    rewrite Hnames, list_lookup_fmap in Hn. destruct Hnear as [Hk _].
    rewrite Hk in Hn. simpl in Hn. by injection Hn. }
  split.
  { split; [eauto|]. intros k' g' Hk' Hg'. simpl in Hg'.
    pose proof (Hothers k' Hk') as Hw'. rewrite fresh_groups_empty in Hw'.
    unfold weight_at in Hw'. by rewrite Hg' in Hw'. }
  destruct Hnear as (Hk & Hmin & Hfirst). split.
  - intros c Hc. apply list_elem_of_lookup in Hc as [j Hj]. by eapply Hmin.
  - intros j c Hj Hc Hle. pose proof (Hfirst j c Hj Hc). unfold nearer_computed in Hle. lra.
Qed.

(** *** Computed and geometric distance *)

(** For a bone that is not treated as a point, or is one, the computed
    distance is attained on the segment and is the least one. *)
Lemma dist_nearest (co : Vector) (c : candidate) :
  nondegenerate c ->
  exists t, 0 <= t <= 1 /\
    dist co c = length (co - segment_point (cand_head c) (cand_tail c) t)%vec /\
    forall t', 0 <= t' <= 1 ->
      dist co c <= length (co - segment_point (cand_head c) (cand_tail c) t')%vec.
Proof.
  destruct c as [[n a] b]. unfold nondegenerate, cand_head, cand_tail, dist. simpl.
  intros Hnd.
  assert (Hn : nearest_on_segment co a b (closest_point_on_segment co a b)).
  { destruct Hnd as [->|Hlen];
      [apply closest_point_same_ends | by apply closest_point_nearest]. }
  destruct Hn as (t & Ht & Hq & Hmin). exists t. split; [exact Ht|].
  split; [by rewrite <- Hq | exact Hmin].
Qed.

Lemma nearer_computed_segment (co : Vector) (c c' : candidate) :
  nondegenerate c -> nondegenerate c' ->
  nearer_computed co c c' <-> nearer_segment co c c'.
Proof.
  intros Hc Hc'.
  destruct (dist_nearest co c Hc) as (t & Ht & Hd & Hmin).
  destruct (dist_nearest co c' Hc') as (t' & Ht' & Hd' & Hmin').
  unfold nearer_computed, nearer_segment. split.
  - intros Hle s' Hs'. exists t. split; [exact Ht|].
    rewrite <- Hd. pose proof (Hmin' s' Hs'). lra.
  - intros Hseg. destruct (Hseg t' Ht') as (s & Hs & Hle).
    pose proof (Hmin s Hs). rewrite <- Hd' in Hle. lra.
Qed.

Lemma binds_nearest_segment (mesh_obj : MeshObject) (arm_obj : ArmatureObject)
    (i : nat) :
  Forall nondegenerate (bone_data arm_obj) ->
  binds_nearest nearer_computed mesh_obj arm_obj i ->
  binds_nearest nearer_segment mesh_obj arm_obj i.
Proof.
  intros Hnd (mesh' & v & k & cand & g & Hrun & Hv & Hk & Hg & Hname & Hbound & Hmin & Hfirst).
  assert (Hall : forall c, c ∈ bone_data arm_obj -> nondegenerate c)
    by (by apply Forall_forall).
  assert (Hcand : nondegenerate cand)
    by (apply Hall; by eapply list_elem_of_lookup_2).
  exists mesh', v, k, cand, g. repeat (split; [assumption|]). split.
  - intros c Hc. apply nearer_computed_segment; auto.
  - intros j c Hj Hc Hseg. apply (Hfirst j c Hj Hc).
    apply nearer_computed_segment; auto. apply Hall. by eapply list_elem_of_lookup_2.
Qed.

Lemma bound_to_unique (groups : list VertexGroup) (i k k' : nat) :
  bound_to groups i k -> bound_to groups i k' -> k = k'.
Proof.
  intros [(g & Hg & Hw) _] [_ Hothers].
  destruct (decide (k = k')) as [|Hne]; [assumption|].
  rewrite (Hothers k g Hne Hg) in Hw. discriminate.
Qed.

(** *** The two concrete skeletons *)

Lemma matmul_identity (v : Vector) : (identity @ v)%vec = v.
Proof. apply vector_eq; simpl; ring. Qed.

Lemma length_squared_sub (a b : Vector) :
  length_squared (a - b)%vec
  = (x a - x b) * (x a - x b) + (y a - y b) * (y a - y b) + (z a - z b) * (z a - z b).
Proof. reflexivity. Qed.

Lemma two_bones_data :
  bone_data two_bones =
  [("Bone A"%string, mkVector 0 0 0, mkVector 0 0 1);
   ("Bone B"%string, mkVector 0 0 1, mkVector 0 0 2)].
Proof.
  unfold bone_data, two_bones. cbn [bones arm_matrix_world flat_map name head_local
    tail_local app]. rewrite !matmul_identity.
  rewrite !bool_decide_eq_false_2; [reflexivity| |];
    intros Hin; apply list_elem_of_singleton in Hin; discriminate.
Qed.

Lemma short_bone_data :
  bone_data short_bone =
  [("Bone A"%string, mkVector 0 0 0, mkVector 0.00008 0 0);
   ("Bone B"%string, mkVector 2 0 0, mkVector 3 0 0)].
Proof.
  unfold bone_data, short_bone. cbn [bones arm_matrix_world flat_map name head_local
    tail_local app]. rewrite !matmul_identity.
  rewrite !bool_decide_eq_false_2; [reflexivity| |];
    intros Hin; apply list_elem_of_singleton in Hin; discriminate.
Qed.

Lemma two_names_wf (m : Matrix) (a b c d : Vector) :
  armature_wf (mkArmatureObject m [mkBone "Bone A" a b; mkBone "Bone B" c d]).
Proof.
  split; simpl.
  - apply (bool_decide_unpack _). vm_compute. exact I.
  - repeat (apply Forall_cons; split; [discriminate|]). apply Forall_nil_2.
Qed.

Lemma projection_parameter_eq (p a b : Vector) (t : R) :
  length_squared (b - a)%vec <> 0 ->
  dot (p - a)%vec (b - a)%vec = t * length_squared (b - a)%vec ->
  projection_parameter p a b = t.
Proof. intros Hl Hd. unfold projection_parameter. rewrite Hd. by field. Qed.

(** In the scenario Bone A is at distance sqrt 0.01 and Bone B at
    distance sqrt 0.26. *)
Lemma scenario_distances :
  dist (mkVector 0.1 0 0.5) ("Bone A"%string, mkVector 0 0 0, mkVector 0 0 1)
  < dist (mkVector 0.1 0 0.5) ("Bone B"%string, mkVector 0 0 1, mkVector 0 0 2).
Proof.
  unfold dist.
  rewrite !closest_point_long by (unfold epsilon, length_squared, dot; simpl; lra).
  rewrite (projection_parameter_eq _ (mkVector 0 0 0) _ 0.5)
    by (unfold length_squared, dot; simpl; lra).
  rewrite (projection_parameter_eq _ (mkVector 0 0 1) _ (- (0.5)))
    by (unfold length_squared, dot; simpl; lra).
  rewrite clamp_inside by lra. rewrite clamp_low by lra.
  unfold length. apply sqrt_lt_1_alt.
  unfold length_squared, dot, segment_point. simpl. lra.
Qed.

(** With the short bone the binder sees Bone B nearer than Bone A. *)
Lemma short_bone_distances :
  dist (mkVector 1.00003 0 0) ("Bone B"%string, mkVector 2 0 0, mkVector 3 0 0)
  < dist (mkVector 1.00003 0 0) ("Bone A"%string, mkVector 0 0 0, mkVector 0.00008 0 0).
Proof.
  unfold dist.
  rewrite closest_point_long by (unfold epsilon, length_squared, dot; simpl; lra).
  rewrite closest_point_short by (unfold epsilon, length_squared, dot; simpl; lra).
  rewrite (projection_parameter_eq _ (mkVector 2 0 0) _ (- (0.99997)))
    by (unfold length_squared, dot; simpl; lra).
  rewrite clamp_low by lra.
  unfold length. apply sqrt_lt_1_alt.
  unfold length_squared, dot, segment_point. simpl. lra.
Qed.

Lemma scenario_holds : scenario_binds_bone_a.
Proof.
  destruct (assign_binds_computed one_vertex two_bones 0)
    as (mesh' & v & k & cand & g & Hrun & Hv & Hk & Hg & Hname & Hbound & Hmin & _).
  { apply two_names_wf. }
  { rewrite two_bones_data. discriminate. }
  { simpl. lia. }
  rewrite two_bones_data in Hk, Hmin. simpl in Hv. injection Hv as <-.
  cbn [matrix_world one_vertex] in Hmin. rewrite matmul_identity in Hmin.
  destruct k as [|[|k]]; simpl in Hk; [| |discriminate]; injection Hk as <-.
  - exists mesh', g. auto.
  - exfalso.
    assert (Hle : nearer_computed (mkVector 0.1 0 0.5)
                    ("Bone B"%string, mkVector 0 0 1, mkVector 0 0 2)
                    ("Bone A"%string, mkVector 0 0 0, mkVector 0 0 1))
      by (apply Hmin; set_solver).
    pose proof scenario_distances. unfold nearer_computed in Hle. lra.
Qed.

(** C1, as stated, fails: with a first bone of length 0.00008 (treated
    as a point) and a second bone from (2,0,0) to (3,0,0), the vertex
    (1.00003,0,0) is bound to the second bone, at distance 0.99997,
    although the tail of the first bone is at distance 0.99995. *)
Lemma short_bone_not_nearest :
  ~ binds_nearest nearer_segment vertex_between short_bone 0.
Proof.
  intros (mesh' & v & k & cand & g & Hrun & Hv & Hk & Hg & Hname & Hbound & Hmin & _).
  destruct (assign_binds_computed vertex_between short_bone 0)
    as (mesh2 & v2 & k2 & cand2 & g2 & Hrun2 & Hv2 & Hk2 & _ & _ & Hbound2 & Hmin2 & _).
  { apply two_names_wf. }
  { rewrite short_bone_data. discriminate. }
  { simpl. lia. }
  rewrite Hrun in Hrun2. injection Hrun2 as <-.
  rewrite (bound_to_unique _ _ _ _ Hbound Hbound2) in *. clear Hbound Hbound2.
  rewrite short_bone_data in *. simpl in Hv, Hv2.
  injection Hv as <-. injection Hv2 as <-.
  cbn [matrix_world vertex_between] in Hmin, Hmin2. rewrite matmul_identity in Hmin, Hmin2.
  destruct k2 as [|[|k2]]; simpl in Hk, Hk2; [| |discriminate];
    injection Hk as <-; injection Hk2 as <-.
  - assert (Hle : nearer_computed (mkVector 1.00003 0 0)
                    ("Bone A"%string, mkVector 0 0 0, mkVector 0.00008 0 0)
                    ("Bone B"%string, mkVector 2 0 0, mkVector 3 0 0))
      by (apply Hmin2; set_solver).
    pose proof short_bone_distances. unfold nearer_computed in Hle. lra.
  - assert (Hseg : nearer_segment (mkVector 1.00003 0 0)
                     ("Bone B"%string, mkVector 2 0 0, mkVector 3 0 0)
                     ("Bone A"%string, mkVector 0 0 0, mkVector 0.00008 0 0))
      by (apply Hmin; set_solver).
    destruct (Hseg 1 ltac:(lra)) as (t & Ht & Hle).
    unfold length in Hle. apply sqrt_le_0 in Hle; try apply length_squared_nonneg.
    unfold length_squared, dot, segment_point, cand_head, cand_tail in Hle.
    simpl in Hle. nra.
Qed.

(** C1 (amended): for every vertex and every non-empty candidate set of
    an armature with distinct non-empty bone names, the binder returns
    and puts the vertex, with weight 1.0, into the group of exactly one
    bone; that bone has the least distance to the point returned by
    closest_point_on_segment, earlier candidates being strictly
    farther; when every candidate bone has squared length at least 1e-8
    (or coincident ends) this is the least Euclidean distance to the
    head-tail segments, ties going to the first bone. In the two-bone
    scenario the vertex (0.1, 0, 0.5) is bound to Bone A. The copy in
    generate_animations.py computes the same. *)
Theorem nearest_bone_assignment :
  (forall (mesh_obj : MeshObject) (arm_obj : ArmatureObject) (i : nat),
     armature_wf arm_obj -> bone_data arm_obj <> [] ->
     (i < List.length (vertices mesh_obj))%nat ->
     binds_nearest nearer_computed mesh_obj arm_obj i /\
     (Forall nondegenerate (bone_data arm_obj) ->
      binds_nearest nearer_segment mesh_obj arm_obj i) /\
     GenerateAnimations.assign_weights_by_bones mesh_obj arm_obj
     = assign_weights_by_bones mesh_obj arm_obj) /\
  scenario_binds_bone_a.
Proof.
  split; [|exact scenario_holds].
  intros mesh_obj arm_obj i Hwf Hbd Hi.
  pose proof (assign_binds_computed mesh_obj arm_obj i Hwf Hbd Hi) as Hc.
  split; [exact Hc|]. split.
  - intros Hnd. by apply binds_nearest_segment.
  - apply assign_weights_by_bones_copies_agree.
Qed.

Lemma nearest_bone_assignment_witness :
  binds_nearest nearer_segment one_vertex two_bones 0.
Proof.
  apply (proj1 nearest_bone_assignment one_vertex two_bones 0%nat).
  - apply two_names_wf.
  - rewrite two_bones_data. discriminate.
  - simpl. lia.
  - rewrite two_bones_data.
    repeat (apply Forall_cons; split;
            [right; unfold epsilon, length_squared, dot, cand_head, cand_tail;
             simpl; lra|]).
    apply Forall_nil_2.
Defined.

(** C10: the binder discards the vertex groups the mesh had: on two
    meshes with the same vertices and world matrix, whatever their
    vertex groups, it returns the same result for the same armature;
    the resulting groups are called after the bones other than 'Root',
    in bone order. Both copies of the binder do so. *)
Theorem assign_weights_ignores_prior_groups (mesh1 mesh2 : MeshObject)
    (arm_obj : ArmatureObject) :
  matrix_world mesh1 = matrix_world mesh2 -> vertices mesh1 = vertices mesh2 ->
  exists result,
    assign_weights_by_bones mesh1 arm_obj = Some result /\
    assign_weights_by_bones mesh2 arm_obj = Some result /\
    GenerateAnimations.assign_weights_by_bones mesh1 arm_obj = Some result /\
    GenerateAnimations.assign_weights_by_bones mesh2 arm_obj = Some result /\
    vg_name <$> vertex_groups result
    = name <$> filter (fun bone => name bone <> "Root"%string) (bones arm_obj).
Proof.
  intros Hm Hv.
  destruct (assign_weights_by_bones_total mesh1 arm_obj) as (groups & _ & Hrun & Hnames).
  assert (Hsame : assign_weights_by_bones mesh2 arm_obj
                  = assign_weights_by_bones mesh1 arm_obj).
  { rewrite !assign_weights_by_bones_unfold. by rewrite Hm, Hv. }
  eexists. split; [exact Hrun|]. split; [by rewrite Hsame|].
  rewrite !assign_weights_by_bones_copies_agree.
  split; [exact Hrun|]. split; [by rewrite Hsame|].
  simpl. by rewrite Hnames, bone_data_names.
Qed.

Lemma assign_weights_ignores_prior_groups_witness :
  exists result,
    assign_weights_by_bones one_vertex two_bones = Some result /\
    assign_weights_by_bones
      (mkMeshObject identity [mkVector 0.1 0 0.5] []) two_bones = Some result.
Proof.
  destruct (assign_weights_ignores_prior_groups one_vertex
              (mkMeshObject identity [mkVector 0.1 0 0.5] []) two_bones)
    as (result & H1 & H2 & _); [reflexivity | reflexivity |].
  exists result. split; assumption.
Defined.

End SkinBinder.

(* ================================================================== *)
(** * More on the animation clips                                      *)
(* ================================================================== *)

Section ClipBuilders.
Import GenerateAnimations Spec.

Lemma building_on_start (r : Rig) (n : string) :
  building_on (actions r) (fun bone => bool_decide (is_Some (pose_bones r !! bone)))
    (nla_tracks r) n ∅ ∅
    (reset_pose (mkRig (pose_bones r) (actions r ++ [mkAction n ∅ ∅])
                       (Some (List.length (actions r))) (nla_tracks r))).
Proof.
  split; [reflexivity|]. split; [reflexivity|]. split.
  - intros bone. simpl. rewrite lookup_fmap, fmap_is_Some.
    symmetry. apply bool_decide_eq_true.
  - exists (mkAction n ∅ ∅). simpl. split; [reflexivity|].
    split; [reflexivity|]. split; intros bone f; rewrite lookup_empty;
      by destruct (bool_decide _).
Qed.

Lemma alter_last {A : Type} (f : A -> A) (l : list A) (a : A) :
  alter f (List.length l) (l ++ [a]) = l ++ [f a].
Proof. induction l as [|b l IH]; simpl; [reflexivity|]. f_equal. exact IH. Qed.

Lemma building_on_rotation acts (present : string -> bool) tracks n Trot Tloc r
    (bone : string) (rx ry rz : Q) (f : Z) :
  building_on acts present tracks n Trot Tloc r ->
  building_on acts present tracks n (<[(bone, f) := (rx, ry, rz)]> Trot) Tloc
    (set_bone_rotation bone rx ry rz f r).
Proof.
  intros (Hact & Htr & Hpres & act & Hstore & Hname & Hrot & Hloc).
  unfold set_bone_rotation. destruct (pose_bones r !! bone) as [pb|] eqn:Hpb.
  - assert (Hp : present bone = true) by (apply Hpres; eauto).
    unfold keyframe_insert_rotation. simpl. rewrite lookup_insert_eq.
    unfold current_action. simpl. rewrite Hact. unfold building_on. simpl.
    split; [reflexivity|]. split; [exact Htr|]. split.
    + intros b. rewrite <- Hpres. rewrite lookup_insert.
      case_decide as Hb; [subst b; rewrite Hpb; split; eauto | reflexivity].
    + eexists. split; [rewrite Hstore, alter_last; reflexivity|].
      simpl. split; [exact Hname|]. split; [|exact Hloc].
      intros b f'. destruct (decide ((bone, f) = (b, f'))) as [Heq|Hne].
      * injection Heq as <- <-. rewrite !lookup_insert_eq. by rewrite Hp.
      * rewrite !lookup_insert_ne by assumption. apply Hrot.
  - assert (Hp : present bone = false).
    { destruct (present bone) eqn:Hp; [|reflexivity].
      apply Hpres in Hp as [? Hp]. congruence. }
    split; [exact Hact|]. split; [exact Htr|]. split; [exact Hpres|].
    exists act. split; [exact Hstore|]. split; [exact Hname|]. split; [|exact Hloc].
    intros b f'. rewrite Hrot. destruct (present b) eqn:Hb; [|reflexivity].
    rewrite lookup_insert_ne; [reflexivity|]. intros Heq. congruence.
Qed.

Lemma building_on_location acts (present : string -> bool) tracks n Trot Tloc r
    (bone : string) (lx ly lz : Q) (f : Z) :
  building_on acts present tracks n Trot Tloc r ->
  building_on acts present tracks n Trot (<[(bone, f) := (lx, ly, lz)]> Tloc)
    (set_bone_location bone lx ly lz f r).
Proof.
  intros (Hact & Htr & Hpres & act & Hstore & Hname & Hrot & Hloc).
  unfold set_bone_location. destruct (pose_bones r !! bone) as [pb|] eqn:Hpb.
  - assert (Hp : present bone = true) by (apply Hpres; eauto).
    unfold keyframe_insert_location. simpl. rewrite lookup_insert_eq.
    unfold current_action. simpl. rewrite Hact. unfold building_on. simpl.
    split; [reflexivity|]. split; [exact Htr|]. split.
    + intros b. rewrite <- Hpres. rewrite lookup_insert.
      case_decide as Hb; [subst b; rewrite Hpb; split; eauto | reflexivity].
    + eexists. split; [rewrite Hstore, alter_last; reflexivity|].
      simpl. split; [exact Hname|]. split; [exact Hrot|].
      intros b f'. destruct (decide ((bone, f) = (b, f'))) as [Heq|Hne].
      * injection Heq as <- <-. rewrite !lookup_insert_eq. by rewrite Hp.
      * rewrite !lookup_insert_ne by assumption. apply Hloc.
  - assert (Hp : present bone = false).
    { destruct (present bone) eqn:Hp; [|reflexivity].
      apply Hpres in Hp as [? Hp]. congruence. }
    split; [exact Hact|]. split; [exact Htr|]. split; [exact Hpres|].
    exists act. split; [exact Hstore|]. split; [exact Hname|]. split; [exact Hrot|].
    intros b f'. rewrite Hloc. destruct (present b) eqn:Hb; [|reflexivity].
    rewrite lookup_insert_ne; [reflexivity|]. intros Heq. congruence.
Qed.

(** What a finished builder has done to the rig. *)
Lemma building_on_pushed (r0 : Rig) n Trot Tloc r (clip : Action) :
  building_on (actions r0) (fun bone => bool_decide (is_Some (pose_bones r0 !! bone)))
              (nla_tracks r0) n Trot Tloc r ->
  action_name clip = n -> rotation_keys clip = Trot -> location_keys clip = Tloc ->
  exists act,
    appended r0 (push_to_nla r (List.length (actions r0)) n) n act /\
    keys_restricted r0 act clip.
Proof.
  intros (Hact & Htr & Hpres & act & Hstore & Hname & Hrot & Hloc) Hn HT HL.
  exists act. split.
  - unfold appended, push_to_nla. simpl. split; [exact Hstore|].
    split; [by rewrite Htr|]. split; [reflexivity|].
    intros bone. rewrite Hpres. apply bool_decide_eq_true.
  - split; [congruence|]. intros bone f. rewrite Hrot, Hloc, HT, HL. done.
Qed.

Ltac run_builder_on :=
  cbn [create_action for_each block foldl];
  repeat first [apply building_on_rotation | apply building_on_location];
  apply building_on_start.

Ltac builder_done :=
  eapply building_on_pushed;
  [run_builder_on | reflexivity | apply (bool_decide_unpack _); vm_compute; exact I ..].

Lemma create_idle_appends (r : Rig) :
  exists act, appended r (create_idle r) "Idle" act /\ keys_restricted r act idle_clip.
Proof. unfold create_idle. cbn [create_action]. builder_done. Qed.

Lemma create_walk_appends (r : Rig) :
  exists act, appended r (create_walk r) "Walk" act /\ keys_restricted r act walk_clip.
Proof. unfold create_walk. cbn [create_action]. builder_done. Qed.

Lemma create_run_appends (r : Rig) :
  exists act, appended r (create_run r) "Run" act /\ keys_restricted r act run_clip.
Proof. unfold create_run. cbn [create_action]. builder_done. Qed.

Lemma create_jump_appends (r : Rig) :
  exists act, appended r (create_jump r) "Jump" act /\ keys_restricted r act jump_clip.
Proof. unfold create_jump. cbn [create_action]. builder_done. Qed.


Lemma keys_restricted_same_bones (r r' : Rig) (act clip : Action) :
  (forall bone, is_Some (pose_bones r' !! bone) <-> is_Some (pose_bones r !! bone)) ->
  keys_restricted r' act clip -> keys_restricted r act clip.
Proof.
  intros Hsame [Hn Hk]. split; [exact Hn|]. intros bone f.
  rewrite <- (bool_decide_ext _ _ (Hsame bone)). apply Hk.
Qed.

(** X2: whatever animation data the imported rig carries, clearing it
    and running the four builders in the order of [main] leaves exactly
    four actions and the four tracks Idle, Walk, Run, Jump, track number
    [i] playing action number [i], no current action, and each action
    holds the authored keys of its clip for the bones of the rig. *)
Theorem generated_clips (r : Rig) :
  let r' := create_all (clear_animation_data r) in
  nla_tracks r' = [("Idle", 0); ("Walk", 1); ("Run", 2); ("Jump", 3)]%string%nat /\
  action r' = None /\
  exists idle walk run jump,
    actions r' = [idle; walk; run; jump] /\
    keys_restricted r idle idle_clip /\ keys_restricted r walk walk_clip /\
    keys_restricted r run run_clip /\ keys_restricted r jump jump_clip.
Proof.
  unfold create_all. set (r0 := clear_animation_data r).
  destruct (create_idle_appends r0) as (a0 & (Ha0 & Ht0 & _ & Hb0) & Hk0).
  set (r1 := create_idle r0) in *.
  destruct (create_walk_appends r1) as (a1 & (Ha1 & Ht1 & _ & Hb1) & Hk1).
  set (r2 := create_walk r1) in *.
  destruct (create_run_appends r2) as (a2 & (Ha2 & Ht2 & _ & Hb2) & Hk2).
  set (r3 := create_run r2) in *.
  destruct (create_jump_appends r3) as (a3 & (Ha3 & Ht3 & Hc3 & Hb3) & Hk3).
  cbv zeta.
  assert (Hr0 : forall bone, is_Some (pose_bones r0 !! bone) <-> is_Some (pose_bones r !! bone))
    by reflexivity.
  assert (Hr1 : forall bone, is_Some (pose_bones r1 !! bone) <-> is_Some (pose_bones r !! bone))
    by (intros bone; by rewrite Hb0).
  assert (Hr2 : forall bone, is_Some (pose_bones r2 !! bone) <-> is_Some (pose_bones r !! bone))
    by (intros bone; by rewrite Hb1).
  assert (Hr3 : forall bone, is_Some (pose_bones r3 !! bone) <-> is_Some (pose_bones r !! bone))
    by (intros bone; by rewrite Hb2).
  rewrite Ht3, Ht2, Ht1, Ht0, Ha3, Ha2, Ha1, Ha0. simpl.
  split; [reflexivity|]. split; [exact Hc3|].
  exists a0, a1, a2, a3. split; [reflexivity|].
  split; [by apply (keys_restricted_same_bones r r0)|].
  split; [by apply (keys_restricted_same_bones r r1)|].
  split; [by apply (keys_restricted_same_bones r r2)|].
  by apply (keys_restricted_same_bones r r3).
Qed.

Lemma appended_pushed (r r' : Rig) (n : string) (act : Action) :
  appended r r' n act -> pushed r' = Some (n, act).
Proof.
  intros (Ha & Ht & _ & _). unfold pushed. rewrite Ht, last_snoc. simpl.
  rewrite Ha, lookup_app_r by lia. by rewrite Nat.sub_diag.
Qed.

Ltac decide_table := apply (bool_decide_unpack _); vm_compute; exact I.

(** *** Jump *)

Lemma rest_at_check (T : gmap (string * Z) Triple) (f : Z) :
  Forall (fun bone => T !! (bone, f) = None \/ T !! (bone, f) = Some (0, 0, 0)%Q)
         (table_bones T) ->
  rest_at T f.
Proof.
  intros Hall bone. pattern bone. revert bone.
  apply all_bones with (bones := table_bones T).
  - eapply Forall_impl; [exact Hall|]. intros bone [H|H] v Hv.
    + pose proof (eq_trans (eq_sym Hv) H) as E. discriminate.
    + pose proof (eq_trans (eq_sym Hv) H) as E. by injection E.
  - intros bone Hout v Hv. by rewrite table_lookup_outside in Hv.
Qed.

Lemma rest_at_restrict (present : string -> bool) (T T' : gmap (string * Z) Triple)
    (f : Z) :
  (forall bone f, T' !! (bone, f) = if present bone then T !! (bone, f) else None) ->
  rest_at T f -> rest_at T' f.
Proof.
  intros Hr Hrest bone v. rewrite Hr. destruct (present bone); [apply Hrest | discriminate].
Qed.

Lemma keyed_frames_check (T : gmap (string * Z) Triple) (frames : list Z) :
  Forall (fun kv => snd (fst kv) ∈ frames) (map_to_list T) ->
  forall bone f, is_Some (T !! (bone, f)) -> f ∈ frames.
Proof.
  intros Hall bone f [v Hv]. apply elem_of_map_to_list in Hv.
  by apply (proj1 (Forall_forall _ _) Hall _ Hv).
Qed.

(** X3: on every rig the Jump clip starts and ends at rest (every key at
    frames 1 and 30 is zero, on both channels) and has keys only at the
    frames 1, 6, 10, 16, 22 and 30. *)
Theorem jump_rests_at_both_ends (r : Rig) :
  exists act,
    pushed (create_jump r) = Some ("Jump"%string, act) /\
    rest_at (rotation_keys act) 1 /\ rest_at (rotation_keys act) 30 /\
    rest_at (location_keys act) 1 /\ rest_at (location_keys act) 30 /\
    forall bone f,
      is_Some (rotation_keys act !! (bone, f)) \/ is_Some (location_keys act !! (bone, f)) ->
      f ∈ jump_frames.
Proof.
  destruct (create_jump_appends r) as (act & Happ & [_ Hk]).
  exists act. split; [by eapply appended_pushed|].
  assert (Hrot : forall bone f, rotation_keys act !! (bone, f)
            = if bool_decide (is_Some (pose_bones r !! bone))
              then rotation_keys jump_clip !! (bone, f) else None)
    by (intros; apply Hk).
  assert (Hloc : forall bone f, location_keys act !! (bone, f)
            = if bool_decide (is_Some (pose_bones r !! bone))
              then location_keys jump_clip !! (bone, f) else None)
    by (intros; apply Hk).
  repeat split.
  - eapply rest_at_restrict; [exact Hrot|]. apply rest_at_check. decide_table.
  - eapply rest_at_restrict; [exact Hrot|]. apply rest_at_check. decide_table.
  - eapply rest_at_restrict; [exact Hloc|]. apply rest_at_check. decide_table.
  - eapply rest_at_restrict; [exact Hloc|]. apply rest_at_check. decide_table.
  - intros bone f [Hs|Hs].
    + rewrite Hrot in Hs. destruct (bool_decide _); [|by destruct Hs].
      revert Hs. apply keyed_frames_check. decide_table.
    + rewrite Hloc in Hs. destruct (bool_decide _); [|by destruct Hs].
      revert Hs. apply keyed_frames_check. decide_table.
Qed.

Lemma table_bilateral_check (g : Triple -> Triple) (T : gmap (string * Z) Triple) :
  Forall (fun kv => T !! (mirror_name (fst (fst kv)), snd (fst kv)) = g <$> T !! fst kv)
         (map_to_list T) ->
  forall bone f, T !! (mirror_name bone, f) = g <$> T !! (bone, f).
Proof.
  intros Hall bone f.
  assert (Hin : forall b v, T !! (b, f) = Some v ->
                  T !! (mirror_name b, f) = g <$> T !! (b, f)).
  { intros b v Hv. apply elem_of_map_to_list in Hv.
    apply (proj1 (Forall_forall _ _) Hall _ Hv). }
  destruct (T !! (bone, f)) as [v|] eqn:Hv.
  - rewrite (Hin bone v Hv), Hv. reflexivity.
  - destruct (T !! (mirror_name bone, f)) as [w|] eqn:Hw; [|reflexivity].
    pose proof (Hin _ _ Hw) as Hback.
    rewrite mirror_name_involutive, Hv, Hw in Hback. discriminate.
Qed.

Lemma jump_clip_bilateral : bilateral jump_clip.
Proof.
  intros bone f. split; apply table_bilateral_check; decide_table.
Qed.

(** X4: on a left/right symmetric rig the Jump clip is bilateral: at
    every frame the key of a right bone is the mirror image of the key
    of its left counterpart (lateral angles negated) and conversely,
    and the centre-line bones carry no lateral component. *)
Theorem jump_is_bilateral (r : Rig) :
  symmetric r ->
  exists act, pushed (create_jump r) = Some ("Jump"%string, act) /\ bilateral act.
Proof.
  intros Hsym.
  destruct (create_jump_appends r) as (act & Happ & [_ Hk]).
  exists act. split; [by eapply appended_pushed|].
  intros bone f. destruct (jump_clip_bilateral bone f) as [Hrot Hloc].
  destruct (Hk bone f) as [-> ->]. destruct (Hk (mirror_name bone) f) as [-> ->].
  assert (Hp : bool_decide (is_Some (pose_bones r !! mirror_name bone))
               = bool_decide (is_Some (pose_bones r !! bone))).
  { apply bool_decide_ext. symmetry. apply Hsym. }
  rewrite Hp. clear Hp.
  destruct (bool_decide (is_Some (pose_bones r !! bone)));
    [split; assumption | split; reflexivity].
Qed.

Lemma jump_is_bilateral_witness :
  exists act, pushed (create_jump humanoid_rig) = Some ("Jump"%string, act) /\
              bilateral act.
Proof. apply (jump_is_bilateral humanoid_rig). exact humanoid_rig_symmetric. Defined.

(** *** Run against Walk *)

Lemma amplified_tripleb_sound (w v : Triple) :
  amplified_tripleb w v = true -> amplified_triple w v.
Proof.
  destruct w as [[w1 w2] w3], v as [[v1 v2] v3]. unfold amplified_tripleb, amplified_triple.
  rewrite !andb_true_iff. unfold amplified_componentb, amplified_component.
  rewrite !andb_true_iff, !Qle_bool_iff. tauto.
Qed.

Lemma table_amplified_check (T1 T2 : gmap (string * Z) Triple) (f1 f2 : Z) :
  forallb (amplified_at T1 T2 f1 f2) (table_bones T1) = true ->
  forall bone w, T1 !! (bone, f1) = Some w ->
    exists v, T2 !! (bone, f2) = Some v /\ amplified_triple w v.
Proof.
  intros Hall bone w Hw.
  destruct (decide (bone ∈ table_bones T1)) as [Hin|Hout].
  - apply list_elem_of_In in Hin.
    pose proof (proj1 (forallb_forall _ _) Hall bone Hin) as Hb.
    unfold amplified_at in Hb. rewrite Hw in Hb.
    destruct (T2 !! (bone, f2)) as [v|]; [|discriminate].
    exists v. split; [reflexivity|]. by apply amplified_tripleb_sound.
  - by rewrite table_lookup_outside in Hw.
Qed.

Lemma clip_amplifies (small big : Action) (f1 f2 : Z) :
  forallb (amplified_at (rotation_keys small) (rotation_keys big) f1 f2)
          (table_bones (rotation_keys small)) = true ->
  forallb (amplified_at (location_keys small) (location_keys big) f1 f2)
          (table_bones (location_keys small)) = true ->
  amplifies small big f1 f2.
Proof. intros Hrot Hloc bone. split; by apply table_amplified_check. Qed.

Lemma amplifies_restrict (r : Rig) (small big small' big' : Action) (f1 f2 : Z) :
  keys_restricted r small' small -> keys_restricted r big' big ->
  amplifies small big f1 f2 -> amplifies small' big' f1 f2.
Proof.
  intros [_ Hs] [_ Hb] Ha bone. destruct (Ha bone) as [Hrot Hloc].
  destruct (Hs bone f1) as [Hs1 Hs2]. destruct (Hb bone f2) as [Hb1 Hb2].
  split; intros w Hw.
  - rewrite Hs1 in Hw. rewrite Hb1.
    destruct (bool_decide _); [by apply Hrot | discriminate].
  - rewrite Hs2 in Hw. rewrite Hb2.
    destruct (bool_decide _); [by apply Hloc | discriminate].
Qed.

(** X5: Run is an amplified Walk: on every rig, at each of the four key
    poses (Walk frames 1, 8, 15, 23 against Run frames 1, 5, 10, 15)
    every bone keyed by Walk is keyed by Run, and each component of the
    Run value is at least as large in magnitude as that of Walk and
    never of the opposite sign. *)
Theorem run_amplifies_walk (r : Rig) :
  exists walk run,
    pushed (create_walk r) = Some ("Walk"%string, walk) /\
    pushed (create_run r) = Some ("Run"%string, run) /\
    amplifies walk run 1 1 /\ amplifies walk run 8 5 /\
    amplifies walk run 15 10 /\ amplifies walk run 23 15.
Proof.
  destruct (create_walk_appends r) as (walk & Hw & Hkw).
  destruct (create_run_appends r) as (run & Hr & Hkr).
  exists walk, run. split; [by eapply appended_pushed|].
  split; [by eapply appended_pushed|].
  repeat split; (eapply amplifies_restrict; [exact Hkw | exact Hkr |]);
    apply clip_amplifies; vm_compute; reflexivity.
Qed.

(** *** One key frame *)



End ClipBuilders.

(* ================================================================== *)
(** * Buildings: parts, origin and colours                             *)
(* ================================================================== *)

Section BuildingParts.
Import GenerateBuildings Spec.





(** *** The origin *)

Lemma min_list_translate (c : R) (rs : list R) :
  Python.min_list (map (fun r => r + c) rs) = (fun m => m + c) <$> Python.min_list rs.
Proof.
  rewrite (map_ext _ (fun r => r - (- c))) by (intros; lra).
  rewrite min_list_shift. destruct (Python.min_list rs); simpl; [f_equal; lra | reflexivity].
Qed.

Lemma max_list_translate (c : R) (rs : list R) :
  Python.max_list (map (fun r => r + c) rs) = (fun m => m + c) <$> Python.max_list rs.
Proof.
  rewrite (map_ext _ (fun r => r - (- c))) by (intros; lra).
  rewrite max_list_shift. destruct (Python.max_list rs); simpl; [f_equal; lra | reflexivity].
Qed.

(** X8: the result of [set_origin_bottom] does not depend on where the
    mesh was assembled: moving every vertex by the same vector, and the
    object origin anywhere, before the call gives the same mesh (and
    the same failure on a mesh without vertices). *)
Theorem set_origin_bottom_translation_invariant (obj : MeshObject) (d loc : Vector)
    (z_offset : R) :
  set_origin_bottom (translate d loc obj) z_offset = set_origin_bottom obj z_offset.
Proof.
  unfold set_origin_bottom, translate. cbn [vertices].
  rewrite !map_map. cbn [vadd x y z].
  rewrite <- (map_map x (fun r => r + x d)), <- (map_map y (fun r => r + y d)),
          <- (map_map z (fun r => r + z d)).
  rewrite !min_list_translate, !max_list_translate.
  destruct (Python.min_list (map x (vertices obj))) as [lox|]; [|reflexivity].
  destruct (Python.max_list (map x (vertices obj))) as [hix|]; [|reflexivity].
  destruct (Python.min_list (map y (vertices obj))) as [loy|]; [|reflexivity].
  destruct (Python.max_list (map y (vertices obj))) as [hiy|]; [|reflexivity].
  destruct (Python.min_list (map z (vertices obj))) as [loz|]; [|reflexivity].
  cbn [fmap option_fmap option_map mbind option_bind]. do 2 f_equal.
  rewrite map_map. apply map_ext. intros v. cbn [vadd x y z]. f_equal; lra.
Qed.

(** X9: [set_origin_bottom] is idempotent for every offset: applied to
    its own result with the same offset it moves nothing. *)
Theorem set_origin_bottom_idempotent (obj obj' : MeshObject) (z_offset : R) :
  set_origin_bottom obj z_offset = Some obj' ->
  set_origin_bottom obj' z_offset = Some obj'.
Proof.
  intros Hrun.
  assert (Hne : vertices obj <> []).
  { intros Hnil. unfold set_origin_bottom in Hrun. rewrite Hnil in Hrun. discriminate. }
  destruct (set_origin_bottom_result obj z_offset Hne) as (o & Ho & (Hx & Hy & Hz) & Hloc).
  rewrite Hrun in Ho. injection Ho as <-.
  unfold midpoint in Hx, Hy. unfold set_origin_bottom.
  destruct (Python.min_list (map x (vertices obj'))) as [lox|]; [|discriminate].
  destruct (Python.max_list (map x (vertices obj'))) as [hix|]; [|discriminate].
  destruct (Python.min_list (map y (vertices obj'))) as [loy|]; [|discriminate].
  destruct (Python.max_list (map y (vertices obj'))) as [hiy|]; [|discriminate].
  rewrite Hz. cbn [mbind option_bind] in *.
  injection Hx as Hx. injection Hy as Hy. rewrite Hx, Hy.
  destruct obj' as [vs l]. cbn [vertices obj_location] in *. rewrite Hloc.
  do 2 f_equal. rewrite <- (map_id vs) at 2. apply map_ext.
  intros [vx vy vz]. cbn [x y z]. f_equal; lra.
Qed.

Lemma set_origin_bottom_idempotent_witness :
  set_origin_bottom
    (mkMeshObject [mkVector (-2) (-1) (-0.5); mkVector 2 1 0.5] (mkVector 0 0 0)) 0.5
  = Some (mkMeshObject [mkVector (-2) (-1) (-0.5); mkVector 2 1 0.5] (mkVector 0 0 0)).
Proof.
  apply (set_origin_bottom_idempotent
           (mkMeshObject [mkVector 1 2 3; mkVector 5 4 4] (mkVector 7 7 7))).
  unfold set_origin_bottom, Python.min_list, Python.max_list, Python.min, Python.max.
  cbn [vertices map x y z foldl mbind option_bind].
  repeat case_decide; try lra. do 2 f_equal.
  repeat (f_equal; try lra).
Defined.

End BuildingParts.

Section BuildingColours.
Import GenerateRocks GenerateBuildings Spec.

Lemma literal_in_gamut (r g b : R) :
  0 <= r <= 1 -> 0 <= g <= 1 -> 0 <= b <= 1 -> opaque_in_gamut (RGBA r g b 1.0).
Proof. intros Hr Hg Hb. unfold opaque_in_gamut. cbn [red green blue alpha]. lra. Qed.

Ltac literal_colour := apply literal_in_gamut; lra.

Lemma cottage_color_in_gamut (offset_x : R) (pos : Vector) :
  opaque_in_gamut (cottage_color offset_x pos).
Proof.
  unfold cottage_color. cbv zeta.
  pose proof (SIN_bound (z pos * 15)) as Hsin.
  repeat case_decide; apply literal_in_gamut; lra.
Qed.

Lemma forge_color_in_gamut (offset_x : R) (pos : Vector) :
  opaque_in_gamut (forge_color offset_x pos).
Proof. unfold forge_color. cbv zeta. repeat case_decide; literal_colour. Qed.

Lemma tower_color_in_gamut (offset_x : R) (pos : Vector) :
  opaque_in_gamut (tower_color offset_x pos).
Proof.
  unfold tower_color. cbv zeta.
  generalize (Python.min
                (if decide (Rabs (x pos - offset_x) > 0.50)
                 then Rabs (x pos - offset_x) - 0.60 else 10)
                (if decide (Rabs (y pos) > 0.50) then Rabs (y pos) - 0.60 else 10)).
  intros dist_side. repeat case_decide; literal_colour.
Qed.

(** An index reduced modulo the length of the list is in range. *)
Lemma getitem_mod {A : Type} (xs : list A) (i : Z) :
  xs <> [] ->
  exists a, Python.getitem xs (i mod Z.of_nat (List.length xs)) = Some a /\ a ∈ xs.
Proof.
  intros Hne.
  assert (Hlen : (0 < Z.of_nat (List.length xs))%Z) by (destruct xs; [done | simpl; lia]).
  pose proof (Z.mod_pos_bound i _ Hlen) as Hidx.
  unfold Python.getitem. rewrite decide_True by lia.
  destruct (lookup_lt_is_Some_2 xs (Z.to_nat (i mod Z.of_nat (List.length xs))))
    as [a Ha]; [lia|].
  exists a. split; [exact Ha | by eapply list_elem_of_lookup_2].
Qed.

Lemma stall_color_in_gamut (offset_x : R) (pos : Vector) :
  exists c, stall_color offset_x pos = Some c /\ opaque_in_gamut c.
Proof.
  unfold stall_color. cbv zeta.
  repeat case_decide;
    try (eexists; split; [reflexivity | literal_colour]).
  destruct (getitem_mod [RGBA 0.75 0.55 0.15 1.0; RGBA 0.60 0.25 0.15 1.0;
                         RGBA 0.40 0.55 0.25 1.0]
              (Python.int ((x pos - offset_x + 1.5) * 2))) as (c & Hc & Hin);
    [discriminate|].
  exists c. split; [exact Hc|].
  repeat (apply elem_of_cons in Hin as [->|Hin]; [literal_colour|]).
  by apply elem_of_nil in Hin.
Qed.

(** X10: the four positional colour functions of the buildings are
    defined at every position and for every offset (the list lookup of
    the market stall never fails), and the colour they return is
    opaque with red, green and blue within [0,1]. *)
Theorem building_colours_opaque_in_gamut (offset_x : R) (pos : Vector) :
  opaque_in_gamut (cottage_color offset_x pos) /\
  opaque_in_gamut (forge_color offset_x pos) /\
  (exists c, stall_color offset_x pos = Some c /\ opaque_in_gamut c) /\
  opaque_in_gamut (tower_color offset_x pos).
Proof.
  split; [apply cottage_color_in_gamut|]. split; [apply forge_color_in_gamut|].
  split; [apply stall_color_in_gamut | apply tower_color_in_gamut].
Qed.

(** *** Colouring by position *)

(** The inner loop writes to each listed corner the colour of the
    position of its vertex, and to no other corner. *)
Lemma color_corners_spec (loops : list nat) (vert_positions : list Vector)
    (color_func : Vector -> option Color) (idxs : list nat) (colors : list Color) :
  Forall (fun li => (li < List.length colors)%nat /\
                    exists vi pos, loops !! li = Some vi /\
                                   vert_positions !! vi = Some pos /\
                                   is_Some (color_func pos)) idxs ->
  exists colors',
    color_corners loops vert_positions color_func idxs colors = Some colors' /\
    List.length colors' = List.length colors /\
    (forall li, li ∈ idxs ->
       exists vi pos, loops !! li = Some vi /\ vert_positions !! vi = Some pos /\
                      color_func pos = colors' !! li) /\
    (forall li, li ∉ idxs -> colors' !! li = colors !! li).
Proof.
  revert colors. induction idxs as [|i idxs IH]; intros colors Hall; simpl.
  - exists colors. split; [done|]. split; [done|]. split; [|done].
    intros li Hin. by apply elem_of_nil in Hin.
  - apply Forall_cons in Hall as [(Hi & vi & pos & Hvi & Hpos & [c Hc]) Hrest].
    rewrite Hvi. simpl. rewrite Hpos. simpl. rewrite Hc. simpl.
    rewrite set_color_Some by assumption. simpl.
    destruct (IH (<[i := c]> colors)) as (colors' & Hrun & Hlen & Hin & Hout).
    { eapply Forall_impl; [exact Hrest|]. intros li [Hli Hex].
      split; [by rewrite length_insert | exact Hex]. }
    exists colors'. split; [exact Hrun|].
    split; [by rewrite Hlen, length_insert|]. split.
    + intros li Hli. destruct (decide (li ∈ idxs)) as [Hl|Hl]; [by apply Hin|].
      apply elem_of_cons in Hli as [->|Hli]; [|done].
      exists vi, pos. split; [exact Hvi|]. split; [exact Hpos|].
      rewrite Hout by assumption. rewrite list_lookup_insert_eq by assumption.
      exact Hc.
    + intros li Hli. apply not_elem_of_cons in Hli as [Hne Hli].
      rewrite Hout by assumption. by apply list_lookup_insert_ne.
Qed.

(** The outer loop, likewise; a corner listed more than once is written
    the same colour each time. *)
Lemma color_faces_spec (loops : list nat) (vert_positions : list Vector)
    (color_func : Vector -> option Color) (polys : list MeshPolygon)
    (colors : list Color) :
  Forall (fun li => (li < List.length colors)%nat /\
                    exists vi pos, loops !! li = Some vi /\
                                   vert_positions !! vi = Some pos /\
                                   is_Some (color_func pos))
         (concat (map loop_indices polys)) ->
  exists colors',
    color_faces loops vert_positions color_func polys colors = Some colors' /\
    List.length colors' = List.length colors /\
    (forall li, li ∈ concat (map loop_indices polys) ->
       exists vi pos, loops !! li = Some vi /\ vert_positions !! vi = Some pos /\
                      color_func pos = colors' !! li) /\
    (forall li, li ∉ concat (map loop_indices polys) -> colors' !! li = colors !! li).
Proof.
  revert colors. induction polys as [|p polys IH]; intros colors Hall; simpl in *.
  - exists colors. split; [done|]. split; [done|]. split; [|done].
    intros li Hin. by apply elem_of_nil in Hin.
  - apply Forall_app in Hall as [H1 H2].
    destruct (color_corners_spec loops vert_positions color_func
                (loop_indices p) colors H1) as (c1 & Hrun1 & Hlen1 & Hin1 & Hout1).
    rewrite Hrun1. simpl.
    destruct (IH c1) as (c2 & Hrun2 & Hlen2 & Hin2 & Hout2).
    { eapply Forall_impl; [exact H2|]. intros li [Hli Hex].
      split; [by rewrite Hlen1 | exact Hex]. }
    exists c2. split; [exact Hrun2|]. split; [congruence|]. split.
    + intros li Hli.
      destruct (decide (li ∈ concat (map loop_indices polys))) as [Hl|Hl];
        [by apply Hin2|].
      apply elem_of_app in Hli as [Hli|Hli]; [|done].
      destruct (Hin1 li Hli) as (vi & pos & Hvi & Hpos & Hc).
      exists vi, pos. split; [exact Hvi|]. split; [exact Hpos|].
      by rewrite Hout2.
    + intros li Hli. apply not_elem_of_app in Hli as [Hl1 Hl2].
      rewrite Hout2 by assumption. by apply Hout1.
Qed.

Lemma colourable_range (mesh : Mesh) (color_func : Vector -> option Color)
    (colors : list Color) :
  Forall (fun li => exists pos, corner_position mesh li = Some pos /\
                                is_Some (color_func pos)) (polygon_corners mesh) ->
  List.length colors = List.length (loops mesh) ->
  Forall (fun li => (li < List.length colors)%nat /\
                    exists vi pos, loops mesh !! li = Some vi /\
                                   (co <$> GenerateRocks.vertices mesh) !! vi = Some pos /\
                                   is_Some (color_func pos))
         (polygon_corners mesh).
Proof.
  intros Hall Hlen. eapply Forall_impl; [exact Hall|].
  intros li (pos & Hpos & Hc). unfold corner_position in Hpos.
  destruct (loops mesh !! li) as [vi|] eqn:Hvi; [|discriminate].
  simpl in Hpos. split.
  - rewrite Hlen. by eapply lookup_lt_Some.
  - exists vi, pos. split; [reflexivity|]. split; [|exact Hc].
    by rewrite list_lookup_fmap.
Qed.

Lemma corner_position_lookup (mesh : Mesh) (li vi : nat) (pos : Vector) :
  loops mesh !! li = Some vi -> (co <$> GenerateRocks.vertices mesh) !! vi = Some pos ->
  corner_position mesh li = Some pos.
Proof.
  intros Hvi Hpos. unfold corner_position. rewrite Hvi. simpl.
  by rewrite <- list_lookup_fmap.
Qed.

(** X11: on a mesh whose polygon corners are loops of its GenerateRocks.vertices
    [set_vertex_colors] returns; every corner of every polygon then
    holds, in the first colour layer, the colour the function gives
    for the position of the vertex of that corner, so corners of one
    vertex agree across faces. Vertices, loops and polygons, the other
    layers and the corners of no polygon are as before; a layer is
    created, called 'Color', only when the mesh had none. *)
Theorem set_vertex_colors_by_position (fill : Color) (mesh : Mesh)
    (color_func : Vector -> option Color) :
  colourable mesh color_func ->
  exists mesh',
    set_vertex_colors fill mesh color_func = Some mesh' /\
    GenerateRocks.vertices mesh' = GenerateRocks.vertices mesh /\ loops mesh' = loops mesh /\
    polygons mesh' = polygons mesh /\
    (forall li, li ∈ polygon_corners mesh ->
       exists pos, corner_position mesh li = Some pos /\
                   corner mesh' li = color_func pos) /\
    (forall li, li ∉ polygon_corners mesh -> color_attributes mesh <> [] ->
       corner mesh' li = corner mesh li) /\
    attr_name <$> color_attributes mesh'
    = match color_attributes mesh with
      | [] => ["Color"%string]
      | layers => attr_name <$> layers
      end /\
    tail (color_attributes mesh') = tail (color_attributes mesh).
Proof.
  intros [Hall Hlayers]. unfold set_vertex_colors.
  destruct (color_attributes mesh) as [|layer others] eqn:Hattrs.
  - unfold color_attributes_new at 1 2. rewrite Hattrs.
    cbn [color_attributes app data attr_name GenerateRocks.vertices loops polygons].
    destruct (color_faces_spec (loops mesh) (co <$> GenerateRocks.vertices mesh) color_func
                (polygons mesh) (replicate (List.length (loops mesh)) fill))
      as (colors' & Hrun & _ & Hin & _).
    { apply colourable_range; [exact Hall | by rewrite length_replicate]. }
    unfold color_attributes_new. cbn [GenerateRocks.vertices loops polygons color_attributes].
    rewrite Hrun. cbn [mbind option_bind].
    eexists. split; [reflexivity|]. cbn [GenerateRocks.vertices loops polygons color_attributes].
    split; [reflexivity|]. split; [reflexivity|]. split; [reflexivity|].
    split; [|split; [congruence | split; reflexivity]].
    intros li Hli. destruct (Hin li Hli) as (vi & pos & Hvi & Hpos & Hc).
    exists pos. split; [by eapply corner_position_lookup|].
    unfold corner. cbn [color_attributes head mbind option_bind data]. by rewrite Hc.
  - apply Forall_cons in Hlayers as [Hlen _].
    destruct (color_faces_spec (loops mesh) (co <$> GenerateRocks.vertices mesh) color_func
                (polygons mesh) (data layer))
      as (colors' & Hrun & _ & Hin & Hout).
    { by apply colourable_range. }
    cbv beta iota zeta. rewrite Hattrs, Hrun. cbn [mbind option_bind].
    eexists. split; [reflexivity|]. cbn [GenerateRocks.vertices loops polygons color_attributes].
    split; [reflexivity|]. split; [reflexivity|]. split; [reflexivity|].
    split; [|split; [|split; reflexivity]].
    + intros li Hli. destruct (Hin li Hli) as (vi & pos & Hvi & Hpos & Hc).
      exists pos. split; [by eapply corner_position_lookup|].
      unfold corner. cbn [color_attributes head mbind option_bind data]. by rewrite Hc.
    + intros li Hli _. unfold corner. rewrite Hattrs.
      cbn [color_attributes head mbind option_bind data]. by apply Hout.
Qed.

Lemma set_vertex_colors_by_position_witness :
  exists mesh',
    set_vertex_colors (RGBA 0 0 0 0) one_quad (fun pos => Some (cottage_color 0 pos))
    = Some mesh' /\
    corner mesh' 2 = Some (RGBA 0.32 0.22 0.12 1.0).
Proof.
  destruct (set_vertex_colors_by_position (RGBA 0 0 0 0) one_quad
              (fun pos => Some (cottage_color 0 pos)))
    as (mesh' & Hrun & _ & _ & _ & Hin & _).
  - split; [|apply Forall_nil_2].
    unfold polygon_corners, one_quad. cbn [polygons map loop_indices concat app].
    repeat (apply Forall_cons; split; [eexists; split; [reflexivity | eauto]|]).
    apply Forall_nil_2.
  - exists mesh'. split; [exact Hrun|].
    destruct (Hin 2%nat) as (pos & Hpos & Hc).
    { unfold polygon_corners, one_quad. cbn [polygons map loop_indices concat app].
      set_solver. }
    rewrite Hc. injection Hpos as <-. f_equal.
    unfold cottage_color. cbn [x y z].
    rewrite decide_False by lra. rewrite decide_True by lra. reflexivity.
Defined.

End BuildingColours.

(* ================================================================== *)
(** * The skeleton and its skin                                        *)
(* ================================================================== *)

Section Skeleton.
Import Bpy RigAndExport Spec.

Lemma length_sub_self (v : Vector) : length (v - v)%vec = 0.
Proof.
  unfold length, length_squared, dot, vsub. cbn [x y z].
  replace ((x v - x v) * (x v - x v) + (y v - y v) * (y v - y v)
           + (z v - z v) * (z v - z v)) with 0 by ring.
  apply sqrt_0.
Qed.

Lemma length_far (u : Vector) : 0.0001 <= length_squared u -> ~ length u < 0.01.
Proof.
  intros Hsq Hlt. unfold length in Hlt.
  pose proof (sqrt_le_1_alt _ _ Hsq) as Hle.
  replace 0.0001 with (0.01 * 0.01) in Hle by lra.
  rewrite sqrt_square in Hle by lra. lra.
Qed.

Lemma foldl_step (st st' : list EditBone * gmap string nat)
    (d : string * Vector * Vector * option string)
    (rest : list (string * Vector * Vector * option string)) :
  new_bone st d = st' -> foldl new_bone st (d :: rest) = foldl new_bone st' rest.
Proof. intros <-. reflexivity. Qed.

Ltac eval_lookup :=
  repeat first [rewrite lookup_insert_eq | rewrite lookup_insert_ne by discriminate].

Ltac near := rewrite length_sub_self; lra.
Ltac far := apply length_far; unfold length_squared, dot, vsub; cbn [x y z]; lra.

Ltac eval_new_bone :=
  unfold new_bone, Python.truthy; cbn [String.eqb negb]; cbv beta iota zeta;
  eval_lookup; cbv beta iota zeta;
  cbn [lookup list_lookup eb_name eb_head eb_tail use_connect parent];
  try first [rewrite decide_True by near | rewrite decide_False by far];
  cbn [List.length app eb_name eb_head eb_tail use_connect parent];
  reflexivity.

Lemma create_armature_bones : create_armature = humanoid_edit_bones.
Proof.
  unfold create_armature, create_bones, BONES.
  do 20 (erewrite foldl_step by eval_new_bone).
  reflexivity.
Qed.








(** *** Skinning on the humanoid skeleton *)

Lemma bone_data_elem (arm_obj : ArmatureObject) (c : string * Vector * Vector) :
  c ∈ bone_data arm_obj ->
  exists bone, bone ∈ bones arm_obj /\ name bone <> "Root"%string /\
    c = (name bone, (arm_matrix_world arm_obj @ head_local bone)%vec,
         (arm_matrix_world arm_obj @ tail_local bone)%vec).
Proof.
  intros Hc. apply list_elem_of_In in Hc. unfold bone_data in Hc.
  apply in_flat_map in Hc as (bone & Hbone & Hin).
  exists bone. split; [by apply list_elem_of_In|].
  case_bool_decide as Hroot; [destruct Hin|].
  destruct Hin as [<-|[]]. split; [|reflexivity].
  intros Heq. apply Hroot. rewrite Heq. by apply list_elem_of_singleton.
Qed.

Lemma bone_data_nonempty (arm_obj : ArmatureObject) (bone : Bone) :
  bone ∈ bones arm_obj -> name bone <> "Root"%string -> bone_data arm_obj <> [].
Proof.
  intros Hin Hname Hnil.
  assert (Hc : name bone ∈ cand_name <$> bone_data arm_obj).
  { rewrite bone_data_names. apply list_elem_of_fmap_2.
    by apply list_elem_of_filter. }
  rewrite Hnil in Hc. by apply elem_of_nil in Hc.
Qed.

Lemma humanoid_bones_distinct : NoDup (eb_name <$> humanoid_edit_bones).
Proof. apply (bool_decide_unpack _). vm_compute. exact I. Qed.

Lemma humanoid_bones_long :
  Forall (fun eb => eb_name eb <> ""%string /\
                    epsilon <= length_squared (eb_tail eb - eb_head eb)%vec)
         humanoid_edit_bones.
Proof.
  unfold humanoid_edit_bones, epsilon.
  repeat (apply Forall_cons; split;
          [split; [discriminate
                  | unfold length_squared, dot, vsub;
                    cbn [eb_head eb_tail x y z]; lra]|]).
  apply Forall_nil_2.
Qed.

Lemma humanoid_armature (arm_obj : ArmatureObject) :
  armature_of create_armature arm_obj ->
  armature_wf arm_obj /\ bone_data arm_obj <> [] /\
  Forall nondegenerate (bone_data arm_obj).
Proof.
  rewrite create_armature_bones. intros [Hm Hperm].
  assert (Hin : forall bone, bone ∈ bones arm_obj ->
            exists eb, eb ∈ humanoid_edit_bones /\ bone = rest_bone eb).
  { intros bone Hb. rewrite Hperm in Hb.
    apply list_elem_of_fmap in Hb as (eb & -> & Heb). eauto. }
  pose proof (proj1 (Forall_forall _ _) humanoid_bones_long) as Hlong.
  split; [split|split].
  - rewrite Hperm, <- list_fmap_compose. exact humanoid_bones_distinct.
  - apply Forall_forall. intros bone Hb. destruct (Hin bone Hb) as (eb & Heb & ->).
    apply (Hlong eb Heb).
  - apply (bone_data_nonempty arm_obj
             (rest_bone (mkEditBone "Hips" (mkVector 0 0 0.90) (mkVector 0 0 0.95)
                                    false (Some 0%nat)))); [|discriminate].
    rewrite Hperm. apply list_elem_of_fmap_2. unfold humanoid_edit_bones.
    apply elem_of_cons. right. apply elem_of_cons. left. reflexivity.
  - apply Forall_forall. intros c Hc.
    apply bone_data_elem in Hc as (bone & Hb & _ & ->).
    destruct (Hin bone Hb) as (eb & Heb & ->). right.
    unfold cand_head, cand_tail. cbn [fst snd]. rewrite Hm, !matmul_identity.
    apply (Hlong eb Heb).
Qed.

(** X13: on the skeleton that [create_armature] builds from [BONES],
    every bone keeps its authored head and tail (connecting moves no
    head), and skinning binds every vertex of any mesh, with weight
    1.0 and to that bone only, to a bone whose head-tail segment is at
    least Euclidean distance from the vertex, the first such in the
    enumeration order of the bones, whatever that order is. *)
Theorem humanoid_skin_binds_nearest :
  (fun eb => (eb_name eb, eb_head eb, eb_tail eb)) <$> create_armature
  = (fun d => (definition_name d, definition_head d, definition_tail d)) <$> BONES /\
  forall (arm_obj : ArmatureObject) (mesh_obj : MeshObject) (i : nat),
    armature_of create_armature arm_obj ->
    (i < List.length (vertices mesh_obj))%nat ->
    binds_nearest nearer_segment mesh_obj arm_obj i.
Proof.
  split; [by rewrite create_armature_bones|].
  intros arm_obj mesh_obj i Harm Hi.
  destruct (humanoid_armature arm_obj Harm) as (Hwf & Hne & Hnd).
  apply binds_nearest_segment; [exact Hnd|]. by apply assign_binds_computed.
Qed.

Lemma humanoid_skin_binds_nearest_witness :
  binds_nearest nearer_segment (mkMeshObject identity [mkVector 0.1 0 1.0] [])
    (mkArmatureObject identity (rest_bone <$> create_armature)) 0.
Proof.
  apply (proj2 humanoid_skin_binds_nearest).
  - split; reflexivity.
  - simpl. lia.
Defined.

(** *** A skeleton without deforming bones *)

Lemma assign_loop_no_candidates (m : Matrix) (vs : list Vector) (index : nat)
    (groups : list VertexGroup) :
  assign_loop m [] vs index groups = Some groups.
Proof.
  revert index. induction vs as [|v vs IH]; intros index; [reflexivity|].
  cbn [assign_loop]. rewrite nearest_bone_nil. cbn [fst mbind option_bind]. apply IH.
Qed.

(** X14: when the armature has no bone other than 'Root' (or no bone at
    all) the binder completes and leaves the mesh without any vertex
    group: the groups the mesh had are removed and no vertex is bound.
    Both copies of the binder do so. *)
Theorem skin_without_deforming_bones (mesh_obj : MeshObject) (arm_obj : ArmatureObject) :
  Forall (fun bone => name bone = "Root"%string) (bones arm_obj) ->
  assign_weights_by_bones mesh_obj arm_obj
  = Some (mkMeshObject (matrix_world mesh_obj) (vertices mesh_obj) []) /\
  GenerateAnimations.assign_weights_by_bones mesh_obj arm_obj
  = Some (mkMeshObject (matrix_world mesh_obj) (vertices mesh_obj) []).
Proof.
  intros Hroot.
  assert (Hbd : bone_data arm_obj = []).
  { unfold bone_data. induction Hroot as [|bone rest Hb _ IH]; [reflexivity|].
    cbn [flat_map]. rewrite IH, Hb.
    rewrite bool_decide_eq_true_2 by (by apply list_elem_of_singleton). reflexivity. }
  rewrite assign_weights_by_bones_copies_agree.
  assert (Hrun : assign_weights_by_bones mesh_obj arm_obj
                 = Some (mkMeshObject (matrix_world mesh_obj) (vertices mesh_obj) [])).
  { rewrite assign_weights_by_bones_unfold. unfold fresh_groups. rewrite Hbd.
    cbn [fmap list_fmap]. by rewrite assign_loop_no_candidates. }
  split; exact Hrun.
Qed.

Lemma skin_without_deforming_bones_witness :
  assign_weights_by_bones one_vertex
    (mkArmatureObject identity [mkBone "Root" (mkVector 0 0 0) (mkVector 0 0 0.10)])
  = Some (mkMeshObject identity [mkVector 0.1 0 0.5] []).
Proof.
  apply (skin_without_deforming_bones one_vertex
           (mkArmatureObject identity [mkBone "Root" (mkVector 0 0 0) (mkVector 0 0 0.10)])).
  apply Forall_cons. split; [reflexivity | apply Forall_nil_2].
Defined.

End Skeleton.

(* ================================================================== *)
(** * The imported objects                                             *)
(* ================================================================== *)

Section ImportedObjects.
Import GenerateAnimations Spec.

(** The two choices after the loop over any list of objects. *)
Lemma choose_loop (objects : list DataObject) :
  match (foldl choose_step (None, None) objects).1 with
  | Some arm => last_armature objects arm
  | None => Forall (fun o => obj_type o <> "ARMATURE"%string) objects
  end /\
  match (foldl choose_step (None, None) objects).2 with
  | Some mesh => largest_mesh objects mesh
  | None => Forall (fun o => obj_type o <> "MESH"%string) objects
  end.
Proof.
  induction objects as [|o objects IH] using rev_ind.
  - cbn [foldl fst snd]. split; apply Forall_nil_2.
  - rewrite foldl_app. cbn [foldl].
    destruct (foldl choose_step (None, None) objects) as [arm_obj mesh_obj].
    cbn [fst snd] in IH. destruct IH as [Harm Hmesh]. unfold choose_step.
    assert (Harm' : obj_type o <> "ARMATURE"%string ->
              match arm_obj with
              | Some arm => last_armature (objects ++ [o]) arm
              | None => Forall (fun o => obj_type o <> "ARMATURE"%string) (objects ++ [o])
              end).
    { intros Ho. destruct arm_obj as [arm|].
      - destruct Harm as (Ha & before & after & -> & Hafter). split; [exact Ha|].
        exists before, (after ++ [o]). split; [by rewrite <- app_assoc|].
        apply Forall_app. split; [exact Hafter|]. by apply Forall_singleton.
      - apply Forall_app. split; [exact Harm|]. by apply Forall_singleton. }
    assert (Hkeep : forall mesh, largest_mesh objects mesh ->
              (obj_type o = "MESH"%string -> (n_vertices o <= n_vertices mesh)%nat) ->
              largest_mesh (objects ++ [o]) mesh).
    { intros mesh (Hm & before & after & -> & Hb & Ha) Ho. split; [exact Hm|].
      exists before, (after ++ [o]). split; [by rewrite <- app_assoc|].
      split; [exact Hb|]. apply Forall_app. split; [exact Ha|]. by apply Forall_singleton. }
    case_decide as Hisarm.
    { cbn [fst snd]. split.
      - split; [exact Hisarm|]. exists objects, []. split; [reflexivity | apply Forall_nil_2].
      - destruct mesh_obj as [mesh|].
        + apply Hkeep; [exact Hmesh|]. intros Hty. rewrite Hisarm in Hty. discriminate.
        + apply Forall_app. split; [exact Hmesh|]. apply Forall_singleton.
          rewrite Hisarm. discriminate. }
    case_decide as Hismesh.
    2:{ cbn [fst snd]. split; [by apply Harm'|]. destruct mesh_obj as [mesh|].
        - apply Hkeep; [exact Hmesh|]. intros Hty. contradiction.
        - apply Forall_app. split; [exact Hmesh|]. by apply Forall_singleton. }
    destruct mesh_obj as [mesh|].
    2:{ cbn [fst snd]. split; [by apply Harm'|]. split; [exact Hismesh|].
        exists objects, []. split; [reflexivity|]. split; [|apply Forall_nil_2].
        eapply Forall_impl; [exact Hmesh|]. intros o' Hne Hty. contradiction. }
    case_decide as Hlarger; cbn [fst snd]; (split; [by apply Harm'|]).
    + split; [exact Hismesh|]. exists objects, [].
      split; [reflexivity|]. split; [|apply Forall_nil_2].
      destruct Hmesh as (Hm & before & after & -> & Hb & Ha).
      apply Forall_app. split; [|apply Forall_cons; split].
      * eapply Forall_impl; [exact Hb|]. intros o' Ho' Hty. specialize (Ho' Hty). lia.
      * intros _. exact Hlarger.
      * eapply Forall_impl; [exact Ha|]. intros o' Ho' Hty. specialize (Ho' Hty). lia.
    + apply Hkeep; [exact Hmesh|]. intros _. lia.
Qed.

(** X15: [import_rigged_model] takes the last armature among the
    imported objects and the mesh with the most vertices, the first of
    them when several have as many; it stops the script exactly when
    there is no armature or no mesh. The objects kept are those that
    are not meshes and the meshes called like the chosen one, so that,
    names being distinct, the chosen mesh is the only mesh left. *)
Theorem import_chooses_largest_mesh (objects : list DataObject) :
  (import_rigged_model objects = None <->
   Forall (fun o => obj_type o <> "ARMATURE"%string) objects \/
   Forall (fun o => obj_type o <> "MESH"%string) objects) /\
  forall kept arm mesh,
    import_rigged_model objects = Some (kept, arm, mesh) ->
    last_armature objects arm /\ largest_mesh objects mesh /\
    (forall o, o ∈ kept <->
       o ∈ objects /\ (obj_type o = "MESH"%string -> obj_name o = obj_name mesh)) /\
    (NoDup (obj_name <$> objects) ->
     forall o, o ∈ kept -> obj_type o = "MESH"%string -> o = mesh).
Proof.
  pose proof (choose_loop objects) as [Harm Hmesh]. unfold import_rigged_model.
  destruct (foldl choose_step (None, None) objects) as [[arm|] [mesh|]];
    cbn [fst snd mbind option_bind] in *.
  - split.
    + split; [discriminate|]. intros [Hno|Hno].
      * destruct Harm as (Ha & before & after & -> & _).
        apply Forall_app in Hno as [_ Hno]. apply Forall_cons in Hno as [Hno _].
        contradiction.
      * destruct Hmesh as (Hm & before & after & -> & _).
        apply Forall_app in Hno as [_ Hno]. apply Forall_cons in Hno as [Hno _].
        contradiction.
    + intros kept arm' mesh' Heq. injection Heq as <- <- <-.
      split; [exact Harm|]. split; [exact Hmesh|].
      assert (Hkept : forall o, o ∈ remove_strays objects (Some mesh) <->
                o ∈ objects /\ (obj_type o = "MESH"%string -> obj_name o = obj_name mesh)).
      { intros o. unfold remove_strays. rewrite list_elem_of_filter.
        cbn [fmap option_fmap option_map]. split.
        - intros [Hkeep Ho]. split; [exact Ho|]. intros Hty.
          destruct (decide (obj_name o = obj_name mesh)) as [Heq|Hne]; [exact Heq|].
          exfalso. apply Hkeep. split; [exact Hty|]. intros Heq. injection Heq as Heq.
          contradiction.
        - intros [Ho Hname]. split; [|exact Ho]. intros [Hty Hne].
          apply Hne. by rewrite Hname. }
      split; [exact Hkept|].
      intros Hnd o Ho Hty. apply Hkept in Ho as [Ho Hname]. specialize (Hname Hty).
      destruct Hmesh as (_ & before & after & Hobjs & _).
      assert (Hm : mesh ∈ objects).
      { rewrite Hobjs. apply elem_of_app. right. apply elem_of_cons. by left. }
      apply list_elem_of_lookup in Ho as [i Hi]. apply list_elem_of_lookup in Hm as [j Hj].
      assert (i = j) as ->.
      { apply (NoDup_lookup _ i j (obj_name o) Hnd);
          rewrite list_lookup_fmap; [by rewrite Hi | by rewrite Hj, Hname]. }
      rewrite Hi in Hj. by injection Hj.
  - split; [|discriminate]. split; [|reflexivity]. intros _. by right.
  - split; [|discriminate]. split; [|reflexivity]. intros _. by left.
  - split; [|discriminate]. split; [|reflexivity]. intros _. by left.
Qed.

Lemma import_chooses_largest_mesh_witness :
  last_armature imported_objects (mkDataObject "Armature" "ARMATURE" 0) /\
  largest_mesh imported_objects (mkDataObject "Humanoid" "MESH" 1200).
Proof.
  destruct (proj2 (import_chooses_largest_mesh imported_objects)
              [mkDataObject "Armature" "ARMATURE" 0;
               mkDataObject "Humanoid" "MESH" 1200;
               mkDataObject "Empty" "EMPTY" 0]
              (mkDataObject "Armature" "ARMATURE" 0)
              (mkDataObject "Humanoid" "MESH" 1200)) as (Ha & Hm & _).
  - vm_compute. reflexivity.
  - split; assumption.
Defined.

End ImportedObjects.

(* ================================================================== *)
(** * Moss colouring: range and frame                                  *)
(* ================================================================== *)

Section MossRange.
Import GenerateRocks Spec.

Lemma lerp_between (a b t : R) : 0 <= t <= 1 -> between a b (a * (1 - t) + b * t).
Proof.
  intros Ht. unfold between, Rmin, Rmax. destruct (Rle_dec a b); split; nra.
Qed.

Lemma between_refl (a b : R) : between a b a.
Proof. unfold between, Rmin, Rmax. destruct (Rle_dec a b); lra. Qed.

Lemma corner_color_between (base_color moss_color : Color) (T : R) (n : Vector) :
  length n = 1 ->
  rgb_between base_color moss_color (corner_color base_color moss_color T (z n)).
Proof.
  intros Hunit. unfold corner_color. case_decide as Hz.
  - pose proof (blend_factor_range n T Hunit Hz) as Hb. unfold blend_factor in Hb.
    replace (1.0 - T) with (1 - T) by lra.
    unfold rgb_between. cbn [red green blue].
    split; [|split]; apply lerp_between; lra.
  - unfold rgb_between. split; [|split]; apply between_refl.
Qed.

(** X16: on a mesh with well-formed corners whose face normals have
    length 1, the colouring divides by no zero and writes to every
    corner of every polygon a colour whose red, green and blue lie
    between those of the base and of the moss colour, so within [0,1]
    when both colours are. *)
Theorem moss_colours_between (fill : Color) (mesh : Mesh) (base_color moss_color : Color)
    (T : R) :
  corners_wf mesh ->
  Forall (fun poly => length (poly_normal poly) = 1) (polygons mesh) ->
  (forall poly, poly ∈ polygons mesh -> z (poly_normal poly) > T -> 1.0 - T <> 0) /\
  exists mesh',
    set_vertex_colors_with_moss fill mesh base_color moss_color T = Some mesh' /\
    forall poly li, poly ∈ polygons mesh -> li ∈ loop_indices poly ->
      exists c, corner mesh' li = Some c /\ rgb_between base_color moss_color c.
Proof.
  intros Hwf Hunit.
  pose proof (proj1 (Forall_forall _ _) Hunit) as Hall. split.
  - intros poly Hp Hz. pose proof (blend_factor_range _ T (Hall poly Hp) Hz) as Hb.
    assert (Hz1 : z (poly_normal poly) <= 1).
    { pose proof (Hall poly Hp) as Hlen. unfold length in Hlen.
      assert (Hsq : length_squared (poly_normal poly) = 1).
      { rewrite <- (sqrt_sqrt (length_squared (poly_normal poly))).
        - rewrite Hlen. lra.
        - unfold length_squared, dot. nra. }
      unfold length_squared, dot in Hsq. nra. }
    lra.
  - destruct (set_vertex_colors_with_moss_corners fill mesh base_color moss_color T Hwf)
      as (mesh' & Hrun & _ & Hcorner).
    exists mesh'. split; [exact Hrun|]. intros poly li Hp Hl.
    eexists. split; [by apply Hcorner|]. apply corner_color_between. by apply Hall.
Qed.

Lemma moss_colours_between_witness :
  exists mesh',
    set_vertex_colors_with_moss (RGBA 0 0 0 0) one_triangle
      (RGBA 0.48 0.44 0.38 1.0) (RGBA 0.30 0.40 0.22 1.0) 0.5 = Some mesh' /\
    exists c, corner mesh' 0 = Some c /\
      rgb_between (RGBA 0.48 0.44 0.38 1.0) (RGBA 0.30 0.40 0.22 1.0) c.
Proof.
  destruct (moss_colours_between (RGBA 0 0 0 0) one_triangle
              (RGBA 0.48 0.44 0.38 1.0) (RGBA 0.30 0.40 0.22 1.0) 0.5 one_triangle_wf)
    as (_ & mesh' & Hrun & Hall).
  - apply Forall_cons. split; [|apply Forall_nil_2].
    unfold length, length_squared, dot. cbn [poly_normal x y z].
    replace (0 * 0 + 0 * 0 + 1 * 1) with 1 by ring. apply sqrt_1.
  - exists mesh'. split; [exact Hrun|].
    apply (Hall (mkMeshPolygon (mkVector 0 0 1) [0; 1; 2]%nat) 0%nat).
    + apply elem_of_cons. by left.
    + apply elem_of_cons. by left.
Defined.

(** X17: whenever the moss colouring returns, it has changed nothing
    but the colours of polygon corners in the first colour layer:
    vertices, loops and polygons, the names and number of the layers
    and the other layers are as before (one layer called 'Color' is
    created only when the mesh had none), and a corner of no polygon
    keeps its colour. *)
Theorem moss_painting_keeps_rest (fill : Color) (mesh mesh' : Mesh)
    (base_color moss_color : Color) (T : R) :
  set_vertex_colors_with_moss fill mesh base_color moss_color T = Some mesh' ->
  vertices mesh' = vertices mesh /\ loops mesh' = loops mesh /\
  polygons mesh' = polygons mesh /\
  attr_name <$> color_attributes mesh'
  = match color_attributes mesh with
    | [] => ["Color"%string]
    | layers => attr_name <$> layers
    end /\
  tail (color_attributes mesh') = tail (color_attributes mesh) /\
  forall li, li ∉ polygon_corners mesh ->
    corner mesh' li
    = match color_attributes mesh with
      | [] => replicate (List.length (loops mesh)) fill !! li
      | _ => corner mesh li
      end.
Proof.
  assert (Hloops : forall c idxs colors colors',
            color_loops c idxs colors = Some colors' ->
            forall li, li ∉ idxs -> colors' !! li = colors !! li).
  { intros c idxs. induction idxs as [|i idxs IH]; intros colors colors' Hrun li Hli.
    - injection Hrun as <-. reflexivity.
    - cbn [color_loops] in Hrun. unfold set_color in Hrun at 1.
      case_decide as Hi; [|discriminate]. cbn [mbind option_bind] in Hrun.
      apply not_elem_of_cons in Hli as [Hne Hli].
      rewrite (IH _ _ Hrun li Hli). by apply list_lookup_insert_ne. }
  assert (Hpolys : forall polys colors colors',
            color_polygons base_color moss_color T polys colors = Some colors' ->
            forall li, li ∉ concat (map loop_indices polys) ->
                       colors' !! li = colors !! li).
  { induction polys as [|p polys IH]; intros colors colors' Hrun li Hli.
    - injection Hrun as <-. reflexivity.
    - cbn [color_polygons] in Hrun. cbn [map concat] in Hli.
      apply not_elem_of_app in Hli as [Hl1 Hl2].
      destruct (color_loops _ (loop_indices p) colors) as [c1|] eqn:H1; [|discriminate].
      cbn [mbind option_bind] in Hrun.
      rewrite (IH _ _ Hrun li Hl2). by eapply Hloops. }
  unfold set_vertex_colors_with_moss, polygon_corners.
  destruct (color_attributes mesh) as [|layer others] eqn:Hattrs.
  - unfold color_attributes_new. rewrite Hattrs.
    cbn [color_attributes app data attr_name vertices loops polygons].
    destruct (color_polygons _ _ _ (polygons mesh) _) as [colors|] eqn:Hrun; [|discriminate].
    cbn [mbind option_bind]. intros Heq. injection Heq as <-.
    cbn [vertices loops polygons color_attributes].
    repeat (split; [reflexivity|]).
    intros li Hli. unfold corner. cbn [color_attributes head mbind option_bind data].
    by eapply Hpolys.
  - cbv beta iota zeta. rewrite Hattrs.
    destruct (color_polygons _ _ _ (polygons mesh) _) as [colors|] eqn:Hrun; [|discriminate].
    cbn [mbind option_bind]. intros Heq. injection Heq as <-.
    cbn [vertices loops polygons color_attributes].
    repeat (split; [reflexivity|]).
    intros li Hli. unfold corner. rewrite Hattrs.
    cbn [color_attributes head mbind option_bind data].
    by eapply Hpolys.
Qed.

Lemma moss_painting_keeps_rest_witness :
  exists mesh',
    set_vertex_colors_with_moss (RGBA 0 0 0 0) one_triangle
      (RGBA 0.48 0.44 0.38 1.0) (RGBA 0.30 0.40 0.22 1.0) 0.5 = Some mesh' /\
    polygons mesh' = polygons one_triangle /\
    attr_name <$> color_attributes mesh' = ["Color"%string].
Proof.
  destruct (set_vertex_colors_with_moss_corners (RGBA 0 0 0 0) one_triangle
              (RGBA 0.48 0.44 0.38 1.0) (RGBA 0.30 0.40 0.22 1.0) 0.5 one_triangle_wf)
    as (mesh' & Hrun & _).
  exists mesh'. split; [exact Hrun|].
  destruct (moss_painting_keeps_rest _ _ _ _ _ _ Hrun) as (_ & _ & Hp & Hn & _).
  split; [exact Hp | exact Hn].
Defined.

End MossRange.

(* ================================================================== *)
(** * Skinning and the place of the character                          *)
(* ================================================================== *)

Section SkinInvariance.
Import Bpy RigAndExport Spec.

Lemma vsub_moved (a b d : Vector) : ((a + d) - (b + d))%vec = (a - b)%vec.
Proof. apply vector_eq; simpl; ring. Qed.

Lemma closest_point_moved (p a b d : Vector) :
  closest_point_on_segment (p + d)%vec (a + d)%vec (b + d)%vec
  = (closest_point_on_segment p a b + d)%vec.
Proof.
  unfold closest_point_on_segment. cbv zeta. rewrite !vsub_moved.
  case_decide; [reflexivity|]. apply vector_eq; simpl; ring.
Qed.

Lemma dist_moved (co d : Vector) (n : string) (head tail : Vector) :
  dist (co + d)%vec (n, (head + d)%vec, (tail + d)%vec) = dist co (n, head, tail).
Proof. unfold dist. by rewrite closest_point_moved, vsub_moved. Qed.

Lemma nearest_bone_moved (co d : Vector) (bd : list (string * Vector * Vector)) :
  nearest_bone (co + d)%vec ((fun c => (c.1.1, (c.1.2 + d)%vec, (c.2 + d)%vec)) <$> bd)
  = nearest_bone co bd.
Proof.
  unfold nearest_bone. generalize (@None string, Python.inf).
  induction bd as [|[[n h] t] bd IH]; intros best; [reflexivity|].
  cbn [fmap list_fmap foldl fst snd]. rewrite <- IH. f_equal.
  unfold nearest_step. destruct best as [best_bone best_dist].
  by rewrite dist_moved.
Qed.

Lemma assign_loop_moved (d : Vector) (bd : list (string * Vector * Vector))
    (vs : list Vector) (index : nat) (groups : list VertexGroup) :
  assign_loop identity ((fun c => (c.1.1, (c.1.2 + d)%vec, (c.2 + d)%vec)) <$> bd)
              ((fun v => (v + d)%vec) <$> vs) index groups
  = assign_loop identity bd vs index groups.
Proof.
  revert index groups. induction vs as [|v vs IH]; intros index groups; [reflexivity|].
  cbn [fmap list_fmap assign_loop]. rewrite !matmul_identity, nearest_bone_moved.
  destruct (match (nearest_bone v bd).1 with
            | Some n => if Python.truthy n then vertex_groups_add n index 1.0 groups
                        else Some groups
            | None => Some groups
            end) as [groups'|]; [|reflexivity].
  cbn [mbind option_bind]. apply IH.
Qed.

Lemma bone_data_moved (d : Vector) (arm_obj : ArmatureObject) :
  arm_matrix_world arm_obj = identity ->
  bone_data (move_armature d arm_obj)
  = (fun c => (c.1.1, (c.1.2 + d)%vec, (c.2 + d)%vec)) <$> bone_data arm_obj.
Proof.
  intros Hm. unfold bone_data, move_armature. cbn [arm_matrix_world bones]. rewrite Hm.
  induction (bones arm_obj) as [|bone rest IH]; [reflexivity|].
  cbn [fmap list_fmap flat_map]. rewrite fmap_app. f_equal; [|exact IH].
  cbn [name head_local tail_local]. case_bool_decide; [reflexivity|].
  cbn [fmap list_fmap fst snd]. by rewrite !matmul_identity.
Qed.

(** X18: skinning does not depend on where the character stands: with
    both objects at the origin, moving every vertex of the mesh and
    every bone of the armature by the same vector leaves the vertex
    groups the binder returns, and so the bone of every vertex, the
    same. *)
Theorem skin_translation_invariant (d : Vector) (mesh_obj : MeshObject)
    (arm_obj : ArmatureObject) :
  matrix_world mesh_obj = identity -> arm_matrix_world arm_obj = identity ->
  vertex_groups <$> assign_weights_by_bones (move_mesh d mesh_obj) (move_armature d arm_obj)
  = vertex_groups <$> assign_weights_by_bones mesh_obj arm_obj.
Proof.
  intros Hmesh Harm. rewrite !assign_weights_by_bones_unfold.
  unfold fresh_groups. rewrite bone_data_moved by assumption.
  unfold move_mesh. cbn [matrix_world vertices]. rewrite Hmesh.
  rewrite assign_loop_moved, <- list_fmap_compose.
  destruct (assign_loop identity (bone_data arm_obj) (vertices mesh_obj) 0 _);
    reflexivity.
Qed.

Lemma skin_translation_invariant_witness :
  vertex_groups
    <$> assign_weights_by_bones (move_mesh (mkVector 5 0 0) one_vertex)
          (move_armature (mkVector 5 0 0) two_bones)
  = vertex_groups <$> assign_weights_by_bones one_vertex two_bones.
Proof. apply skin_translation_invariant; reflexivity. Defined.

End SkinInvariance.
